(** * udb-cli knowledge base: a shallow embedding of the ingestion,
      search and locking core, and the properties its specification states.

    The embedding follows the TypeScript sources module by module:
    - [JS]         the string and array primitives of the platform the
                   sources call ([trim], [slice], [includes], ...);
    - [Locks]      src/kb/locks.ts      ([KBLock.acquire], [cleanupStale]);
    - [Embeddings] src/kb/embeddings.ts ([serializeFloat32], ...);
    - [Search]     src/kb/search.ts     ([search], [fallbackSearch], ...);
    - [EmbeddingClient] src/kb/embeddings.ts ([generateEmbedding]);
    - [Dedupe]     src/kb/dedupe.ts     ([normalizeUrl], [cleanContent]);
    - [Quality]    src/kb/quality.ts    ([validateContent]);
    - [Chunking]   src/kb/chunking.ts   ([chunkText]);
    - [Ingest]     src/kb/ingest.ts and src/kb/storage.ts.

    Conventions.  A JavaScript string is a list of code units; the model
    keeps the code units below 256 ([ascii]).  Integers are [Z].  Numbers
    that carry similarity scores are real numbers: the arithmetic of the
    sources is read exactly, rounding is not modelled. *)

From Stdlib Require Import ZArith List Ascii String Lia Bool.
From Stdlib Require Import Numbers.DecimalString Sorting.Sorted Sorting.Permutation.
From Stdlib Require Import Reals Lra.
From stdpp Require Import base option list sorting gmap strings.

Import ListNotations.

(** A JavaScript string: the list of its code units. *)
Abbreviation str := (list ascii).

(** String literals of the sources are written as Rocq strings. *)
Coercion list_ascii_of_string : string >-> list.

(* ================================================================== *)
(** * Platform primitives *)
(* ================================================================== *)

Module JS.

Local Open Scope Z_scope.

(** Code units matched by the regular expression class [\s] and removed
    by [String.prototype.trim]: TAB, LF, VT, FF, CR, SPACE and NBSP (the
    members of the class below 256). *)
Definition is_space (c : ascii) : bool :=
  let n := nat_of_ascii c in
  (Nat.eqb n 9 || Nat.eqb n 10 || Nat.eqb n 11 || Nat.eqb n 12
   || Nat.eqb n 13 || Nat.eqb n 32 || Nat.eqb n 160)%bool.

Definition is_digit (c : ascii) : bool :=
  let n := nat_of_ascii c in (Nat.leb 48 n && Nat.leb n 57)%bool.

Fixpoint dropWhile {A} (p : A -> bool) (l : list A) : list A :=
  match l with
  | [] => []
  | x :: r => if p x then dropWhile p r else l
  end.

Fixpoint takeWhile {A} (p : A -> bool) (l : list A) : list A :=
  match l with
  | [] => []
  | x :: r => if p x then x :: takeWhile p r else []
  end.

Definition trimStart (s : str) : str := dropWhile is_space s.
Definition trimEnd (s : str) : str := rev (dropWhile is_space (rev s)).

(** [s.trim()] *)
Definition trim (s : str) : str := trimEnd (trimStart s).

(** [s.length] *)
Definition len {A} (s : list A) : Z := Z.of_nat (length s).

(** Relative index of [slice]: negative counts from the end, and the
    result is clamped to [0 .. length]. *)
Definition clampIndex (n i : Z) : Z :=
  if i <? 0 then Z.max (n + i) 0 else Z.min i n.

(** [s.slice(start, end)], for strings and arrays alike. *)
Definition slice {A} (s : list A) (start stop : Z) : list A :=
  let from := clampIndex (len s) start in
  let to := clampIndex (len s) stop in
  firstn (Z.to_nat (to - from)) (skipn (Z.to_nat from) s).

(** [s.slice(start)] *)
Definition sliceFrom {A} (s : list A) (start : Z) : list A :=
  slice s start (len s).

(** [s.startsWith(p)] *)
Fixpoint startsWith (p s : str) : bool :=
  match p, s with
  | [], _ => true
  | _ :: _, [] => false
  | a :: p', b :: s' => if Ascii.eqb a b then startsWith p' s' else false
  end.

(** [s.indexOf(p)], [None] for -1. *)
Fixpoint indexOf (p s : str) : option nat :=
  if startsWith p s then Some 0%nat
  else match s with
       | [] => None
       | _ :: s' => option_map S (indexOf p s')
       end.

(** [s.includes(p)] *)
Definition includes (p s : str) : bool :=
  match indexOf p s with Some _ => true | None => false end.

(** [c.toLowerCase()] on one code unit below 256: A-Z, and the Latin-1
    capitals 0xC0-0xDE except the multiplication sign 0xD7. *)
Definition lowerChar (c : ascii) : ascii :=
  let n := nat_of_ascii c in
  if (Nat.leb 65 n && Nat.leb n 90)%bool then ascii_of_nat (n + 32)
  else if (Nat.leb 192 n && Nat.leb n 222 && negb (Nat.eqb n 215))%bool
       then ascii_of_nat (n + 32)
  else c.

(** [s.toLowerCase()] *)
Definition toLowerCase (s : str) : str := map lowerChar s.

(** [n.toString()] of an integer. *)
Definition toString (n : Z) : str :=
  list_ascii_of_string (NilZero.string_of_int (Z.to_int n)).

Fixpoint digitsValue (acc : Z) (ds : str) : Z :=
  match ds with
  | [] => acc
  | d :: r => digitsValue (10 * acc + (Z.of_nat (nat_of_ascii d) - 48)) r
  end.

(** [parseInt(s, 10)]: leading white space is skipped, one sign is read,
    then the longest run of decimal digits; [None] is NaN. *)
Definition parseInt (s : str) : option Z :=
  let s1 := trimStart s in
  let '(neg, s2) :=
    match s1 with
    | "-"%char :: r => (true, r)
    | "+"%char :: r => (false, r)
    | _ => (false, s1)
    end in
  match takeWhile is_digit s2 with
  | [] => None
  | ds => Some (if neg : bool then - digitsValue 0 ds else digitsValue 0 ds)
  end.

(** [a.join(sep)] *)
Fixpoint join (sep : str) (l : list str) : str :=
  match l with
  | [] => []
  | [x] => x
  | x :: r => x ++ sep ++ join sep r
  end.

(** [s.split(sep)] on a one-character separator. *)
Fixpoint split (sep : ascii) (s : str) : list str :=
  match s with
  | [] => [[]]
  | c :: r =>
      if Ascii.eqb c sep then [] :: split sep r
      else match split sep r with
           | [] => [[c]]
           | w :: ws => (c :: w) :: ws
           end
  end.

(** ** Facts about the primitives *)

Lemma startsWith_spec (p s : str) :
  startsWith p s = true <-> exists post, s = p ++ post.
Proof.
  revert s. induction p as [|a p IH]; intros s; cbn.
  - split; [intros _; by exists s|done].
  - destruct s as [|b s]; [split; [done|intros [? ?]; done]|].
    destruct (Ascii.eqb_spec a b) as [->|Hne].
    + rewrite IH. split; intros [post H]; exists post; congruence.
    + split; [done|]. intros [post H]. congruence.
Qed.

Lemma indexOf_Some (p s : str) (i : nat) :
  indexOf p s = Some i -> exists post, drop i s = p ++ post.
Proof.
  revert i. induction s as [|c s IH]; intros i; cbn.
  - destruct (startsWith p []) eqn:Hs; [|done].
    intros [= <-]. by apply startsWith_spec.
  - destruct (startsWith p (c :: s)) eqn:Hs.
    + intros [= <-]. by apply startsWith_spec.
    + destruct (indexOf p s) as [j|]; [|done]. cbn. intros [= <-].
      by apply IH.
Qed.

Lemma indexOf_None (p s pre post : str) :
  indexOf p s = None -> s <> pre ++ p ++ post.
Proof.
  revert pre. induction s as [|c s IH]; intros pre; cbn.
  - destruct (startsWith p []) eqn:Hs; [done|]. intros _ H.
    destruct pre; [|done]. cbn in H.
    assert (startsWith p [] = true) by (apply startsWith_spec; eauto).
    congruence.
  - destruct (startsWith p (c :: s)) eqn:Hs; [done|].
    destruct (indexOf p s) eqn:Hi; [done|]. intros _ H.
    destruct pre as [|c' pre]; cbn in H.
    + assert (startsWith p (c :: s) = true) by (apply startsWith_spec; eauto).
      congruence.
    + injection H as _ H. by apply (IH pre).
Qed.

(** [includes] decides the occurrence of [p] as a substring. *)
Lemma includes_spec (p s : str) :
  includes p s = true <-> exists pre post, s = pre ++ p ++ post.
Proof.
  unfold includes. destruct (indexOf p s) as [i|] eqn:Hi.
  - split; [intros _|done].
    apply indexOf_Some in Hi as [post Hpost].
    exists (take i s), post. by rewrite <- Hpost, take_drop.
  - split; [done|]. intros (pre & post & H).
    by apply (indexOf_None _ _ pre post) in Hi.
Qed.

Lemma toLowerCase_app (s t : str) :
  toLowerCase (s ++ t) = toLowerCase s ++ toLowerCase t.
Proof. apply map_app. Qed.


(** A substring of the lowered text is the lowering of a substring. *)
Lemma toLowerCase_split (s pre p post : str) :
  toLowerCase s = pre ++ p ++ post ->
  exists pre' mid post',
    s = pre' ++ mid ++ post' /\ toLowerCase mid = p.
Proof.
  intros H.
  exists (take (length pre) s),
         (take (length p) (drop (length pre) s)),
         (drop (length p) (drop (length pre) s)).
  split; [by rewrite !take_drop|].
  unfold toLowerCase in *. rewrite <- firstn_map, <- skipn_map, H.
  rewrite drop_app_length. by rewrite take_app_length.
Qed.

Lemma slice_inrange {A} (s : list A) (a b : Z) :
  0 <= a <= b -> b <= len s ->
  slice s a b = take (Z.to_nat (b - a)) (drop (Z.to_nat a) s).
Proof.
  intros Hab Hb. unfold slice, clampIndex.
  rewrite (proj2 (Z.ltb_ge a 0)), (proj2 (Z.ltb_ge b 0)) by lia.
  by rewrite !Z.min_l by lia.
Qed.

Lemma slice_length_bound {A} (s : list A) (a b : Z) :
  0 <= a -> a + len (slice s a b) <= Z.max a (len s).
Proof.
  intros Ha. unfold slice, clampIndex, len.
  rewrite (proj2 (Z.ltb_ge a 0)) by lia.
  rewrite length_take, length_drop. lia.
Qed.

(** ** Facts about [trim] *)

Lemma takeWhile_dropWhile {A} (p : A -> bool) (l : list A) :
  takeWhile p l ++ dropWhile p l = l.
Proof.
  induction l as [|x l IH]; cbn; [done|].
  destruct (p x); cbn; [by rewrite IH|done].
Qed.

Lemma takeWhile_forallb {A} (p : A -> bool) (l : list A) :
  forallb p (takeWhile p l) = true.
Proof.
  induction l as [|x l IH]; cbn; [done|].
  destruct (p x) eqn:Hx; cbn; [by rewrite Hx|done].
Qed.

Lemma dropWhile_all {A} (p : A -> bool) (a l : list A) :
  forallb p a = true -> dropWhile p (a ++ l) = dropWhile p l.
Proof.
  induction a as [|x a IH]; cbn; [done|].
  intros [-> Ha]%andb_prop. by apply IH.
Qed.

Lemma dropWhile_nil {A} (p : A -> bool) (l : list A) :
  dropWhile p l = [] <-> forallb p l = true.
Proof.
  induction l as [|x l IH]; cbn; [done|].
  destruct (p x); cbn; [exact IH|done].
Qed.

Lemma dropWhile_stop {A} (p : A -> bool) (a l : list A) :
  dropWhile p a <> [] -> dropWhile p (a ++ l) = dropWhile p a ++ l.
Proof.
  induction a as [|x a IH]; cbn; [done|].
  destruct (p x); [exact IH|done].
Qed.

Lemma dropWhile_snoc {A} (p : A -> bool) (a : list A) (x : A) :
  p x = false -> dropWhile p (a ++ [x]) = dropWhile p a ++ [x].
Proof.
  intros Hx. induction a as [|y a IH]; cbn; [by rewrite Hx|].
  destruct (p y); [exact IH|done].
Qed.

Lemma dropWhile_dropWhile {A} (p : A -> bool) (l : list A) :
  dropWhile p (dropWhile p l) = dropWhile p l.
Proof.
  induction l as [|x l IH]; cbn; [done|].
  destruct (p x) eqn:Hx; [exact IH|]. cbn. by rewrite Hx.
Qed.

(** What [dropWhile] leaves does not start with a dropped character. *)
Lemma dropWhile_head {A} (p : A -> bool) (l : list A) (x : A) (r : list A) :
  dropWhile p l = x :: r -> p x = false.
Proof.
  induction l as [|y l IH]; cbn; [done|].
  destruct (p y) eqn:Hy; [exact IH|]. by intros [= <- _].
Qed.

Lemma trimEnd_cons (x : ascii) (s : str) :
  is_space x = false -> trimEnd (x :: s) = x :: trimEnd s.
Proof.
  intros Hx. unfold trimEnd. cbn [rev].
  rewrite dropWhile_snoc by done. rewrite rev_app_distr. done.
Qed.

Lemma trimEnd_trimEnd (s : str) : trimEnd (trimEnd s) = trimEnd s.
Proof.
  unfold trimEnd. by rewrite rev_involutive, dropWhile_dropWhile.
Qed.

(** [trim] is idempotent. *)
Lemma trim_trim (s : str) : trim (trim s) = trim s.
Proof.
  unfold trim, trimStart.
  destruct (dropWhile is_space s) as [|x t] eqn:Ht; [done|].
  apply dropWhile_head in Ht as Hx.
  rewrite trimEnd_cons by done. cbn [dropWhile]. rewrite Hx.
  rewrite <- trimEnd_cons by done. apply trimEnd_trimEnd.
Qed.

(** [trim] removes white space from both ends and nothing else. *)
Lemma trim_infix (s : str) :
  exists pre post,
    s = pre ++ trim s ++ post
    /\ forallb is_space pre = true /\ forallb is_space post = true.
Proof.
  exists (takeWhile is_space s),
         (rev (takeWhile is_space (rev (trimStart s)))).
  split; [|split].
  - unfold trim, trimEnd. rewrite <- rev_app_distr, takeWhile_dropWhile.
    rewrite rev_involutive. symmetry. apply takeWhile_dropWhile.
  - apply takeWhile_forallb.
  - rewrite forallb_forall. intros x Hx%in_rev.
    pose proof (takeWhile_forallb is_space (rev (trimStart s))) as Hall.
    rewrite forallb_forall in Hall. by apply Hall.
Qed.

Lemma trim_length (s : str) : len (trim s) <= len s.
Proof.
  destruct (trim_infix s) as (pre & post & Hs & _).
  unfold len. rewrite Hs at 2. rewrite !length_app. lia.
Qed.

(** White space around a string does not change what [trim] returns. *)
Lemma trim_padding (pre s post : str) :
  forallb is_space pre = true -> forallb is_space post = true ->
  trim (pre ++ s ++ post) = trim s.
Proof.
  intros Hpre Hpost. unfold trim, trimStart.
  rewrite dropWhile_all by done.
  destruct (dropWhile is_space s) as [|x t] eqn:Ht.
  - apply dropWhile_nil in Ht. rewrite dropWhile_all by done.
    by rewrite (proj2 (dropWhile_nil is_space post)).
  - rewrite dropWhile_stop by (by rewrite Ht). rewrite Ht.
    unfold trimEnd. rewrite rev_app_distr, dropWhile_all; [done|].
    rewrite forallb_forall in *. intros y Hy%in_rev. by apply Hpost.
Qed.

(** What [trim] returns neither starts nor ends with white space. *)
Lemma trim_ends (s : str) :
  (forall x r, trim s = x :: r -> is_space x = false)
  /\ (forall r x, trim s = r ++ [x] -> is_space x = false).
Proof.
  split.
  - intros x r Hs. rewrite <- trim_trim in Hs. unfold trim at 1 in Hs.
    unfold trimStart in Hs.
    destruct (dropWhile is_space (trim s)) as [|y t] eqn:Ht.
    + discriminate.
    + apply dropWhile_head in Ht as Hy.
      rewrite trimEnd_cons in Hs by done. by injection Hs as -> _.
  - intros r x Hs. unfold trim, trimEnd in Hs.
    apply (f_equal (@rev _)) in Hs.
    rewrite rev_involutive, rev_app_distr in Hs. cbn in Hs.
    by apply dropWhile_head in Hs.
Qed.

End JS.

(* ================================================================== *)
(** * Calls that return or throw *)
(* ================================================================== *)

Module Effects.

(** A call either returns or throws; the error carries its message. *)
Inductive outcome (A : Type) : Type :=
| Return (a : A)
| Throw (msg : str).
Arguments Return {A} a.
Arguments Throw {A} msg.

(** A call that reads and writes a state [S]. *)
Definition M (S A : Type) : Type := S -> outcome A * S.

Section Monad.
Context {S : Type}.

Definition ret {A} (a : A) : M S A := fun s => (Return a, s).
Definition throw {A} (msg : str) : M S A := fun s => (Throw msg, s).
Definition bind {A B} (k : A -> M S B) (m : M S A) : M S B :=
  fun s => match m s with
           | (Return a, s') => k a s'
           | (Throw e, s') => (Throw e, s')
           end.

(** [try { body } catch (err) { handler err }] *)
Definition try_catch {A} (body : M S A) (handler : str -> M S A) : M S A :=
  fun s => match body s with
           | (Return a, s') => (Return a, s')
           | (Throw e, s') => handler e s'
           end.

(** [try { body } finally { finalizer }]: the finalizer runs whether
    the body returns or throws; an error of the finalizer replaces the
    outcome of the body. *)
Definition try_finally {A} (body : M S A) (finalizer : M S unit) : M S A :=
  fun s => match body s with
           | (r, s') =>
               match finalizer s' with
               | (Return _, s'') => (r, s'')
               | (Throw e, s'') => (Throw e, s'')
               end
           end.

Definition get : M S S := fun s => (Return s, s).
Definition put (s : S) : M S unit := fun _ => (Return tt, s).
End Monad.

(** A call on a part [S] of the state [T]. *)
Definition lift {S T A} (proj : T -> S) (update : S -> T -> T) (m : M S A)
  : M T A :=
  fun t => match m (proj t) with (r, s') => (r, update s' t) end.

(** The sequencing notations [x ← m; k] and [m ;; k] are stdpp's. *)
#[global] Instance M_ret {S} : MRet (M S) := @ret S.
#[global] Instance M_bind {S} : MBind (M S) := @bind S.

End Effects.

(* ================================================================== *)
(** * File-based locks (src/kb/locks.ts) *)
(* ================================================================== *)

Module Locks.

Import JS Effects.
Local Open Scope Z_scope.

(** A file of the lock directory: its modification time and its text. *)
Record LockFile := mkLockFile { mtimeMs : Z; content : str }.

(** What [acquire] reads and writes: the lock directory (file name to
    file), the clock ([Date.now()]) and the process table, as the set of
    process identifiers for which [process.kill(pid, 0)] returns. *)
Record World := mkWorld {
  files : gmap str LockFile;
  now : Z;
  procs : gset Z
}.

(** The calls of this module run on the [World]. *)
Abbreviation M := (Effects.M World).

Definition setFiles (f : gmap str LockFile) (w : World) : World :=
  mkWorld f (now w) (procs w).

(** [fs.existsSync] *)
Definition existsSync (path : str) : M bool :=
  fun w => (Return (bool_decide (is_Some (files w !! path))), w).

(** [fs.statSync(path).mtimeMs] *)
Definition statSync_mtimeMs (path : str) : M Z :=
  fun w => match files w !! path with
           | Some f => (Return (mtimeMs f), w)
           | None => (Throw "ENOENT", w)
           end.

(** [fs.readFileSync(path, 'utf-8')] *)
Definition readFileSync (path : str) : M str :=
  fun w => match files w !! path with
           | Some f => (Return (content f), w)
           | None => (Throw "ENOENT", w)
           end.

(** [fs.unlinkSync] *)
Definition unlinkSync (path : str) : M unit :=
  fun w => match files w !! path with
           | Some _ => (Return tt, setFiles (delete path (files w)) w)
           | None => (Throw "ENOENT", w)
           end.

(** [fs.writeFileSync]: creates or replaces the file. *)
Definition writeFileSync (path : str) (data : str) : M unit :=
  fun w => (Return tt, setFiles (<[path := mkLockFile (now w) data]> (files w)) w).

(** [Date.now()] *)
Definition Date_now : M Z := fun w => (Return (now w), w).

(** [process.kill(pid, 0)]: returns when the process exists, throws
    otherwise (and on NaN). *)
Definition kill0 (pid : option Z) : M unit :=
  fun w => match pid with
           | None => (Throw "ERR_INVALID_ARG_TYPE", w)
           | Some p => if bool_decide (p ∈ procs w) then (Return tt, w)
                       else (Throw "ESRCH", w)
           end.

Definition showPid (p : option Z) : str :=
  match p with Some z => toString z | None => "NaN" end.

Definition STALE_AGE_MS : Z := 15 * 60 * 1000.

(** [path.join(lockDir, `${operation}.lock`)], relative to the lock
    directory. *)
Definition lockFileOf (operation : str) : str := operation ++ ".lock".

(** The release function [acquire] returns. *)
Definition release (lockFile : str) : M unit :=
  ex ← existsSync lockFile;
  if ex : bool then unlinkSync lockFile else ret tt.

(** [KBLock.acquire(operation)], run by the process [pid]. *)
Definition acquire (operation : str) (pid : Z) : M (M unit) :=
  let lockFile := lockFileOf operation in
  ex ← existsSync lockFile;
  (if ex : bool then
     mtime ← statSync_mtimeMs lockFile;
     t ← Date_now;
     let age := t - mtime in
     if age >? STALE_AGE_MS then unlinkSync lockFile
     else
       try_catch
         (text ← readFileSync lockFile;
          let lockPid := parseInt text in
          kill0 lockPid ;;
          throw ("Lock file exists and process " ++ showPid lockPid
                 ++ " is still running"))
         (fun _ => unlinkSync lockFile)
   else ret tt) ;;
  writeFileSync lockFile (toString pid) ;;
  ret (release lockFile).

(** [KBLock.isStale(lockPath)], for the path of a file of the lock
    directory, which is the part of the file system the [World] holds:
    the path is taken relative to the directory, as in [lockFileOf]. *)
Definition isStale (lockPath : str) : M bool :=
  ex ← existsSync lockPath;
  if ex : bool then
    mtime ← statSync_mtimeMs lockPath;
    t ← Date_now;
    ret (t - mtime >? STALE_AGE_MS)
  else ret false.

(** [KBLock.cleanupStale()]: the loop over the directory listing. *)
Fixpoint cleanupLoop (names : list str) : M unit :=
  match names with
  | [] => ret tt
  | file :: rest =>
      try_catch
        (mtime ← statSync_mtimeMs file;
         t ← Date_now;
         if t - mtime >? STALE_AGE_MS then unlinkSync file else ret tt)
        (fun _ => ret tt) ;;
      cleanupLoop rest
  end.

Definition cleanupStale : M unit :=
  fun w => cleanupLoop (map fst (map_to_list (files w))) w.

(** The lock of [operation] is held: its file exists, is not stale, and
    records a process that is alive. *)
Definition heldByLiveProcess (operation : str) (w : World) : Prop :=
  exists f p, files w !! lockFileOf operation = Some f
    /\ now w - mtimeMs f <= STALE_AGE_MS
    /\ parseInt (content f) = Some p
    /\ p ∈ procs w.

(** A world in which process 4242, alive, took the ingest lock one minute
    ago. *)
Definition heldWorld : World :=
  mkWorld {[ lockFileOf "ingest" := mkLockFile 1000 "4242" ]}
          61000
          {[ 4242; 7 ]}.

(** The same processes and an empty lock directory. *)
Definition freeWorld : World := mkWorld ∅ 61000 {[ 4242; 7 ]}.

(** ** Properties of the lock *)

Lemma heldWorld_held : heldByLiveProcess "ingest" heldWorld.
Proof.
  exists (mkLockFile 1000 "4242"), 4242.
  split; [reflexivity|]. split; [vm_compute; discriminate|].
  split; [reflexivity|]. vm_compute. set_solver.
Qed.

(** Whatever the lock directory holds, [acquire] returns: the error it
    throws for a live owner is raised inside the [try] whose [catch]
    removes the file, so it never reaches the caller. *)
Lemma acquire_returns (operation : str) (pid : Z) (w : World) :
  exists w',
    acquire operation pid w = (Return (release (lockFileOf operation)), w')
    /\ files w' !! lockFileOf operation
       = Some (mkLockFile (now w) (toString pid))
    /\ now w' = now w /\ procs w' = procs w.
Proof.
  unfold acquire, mbind, M_bind, bind, existsSync, mret, M_ret.
  destruct (files w !! lockFileOf operation) as [f|] eqn:Hf.
  - rewrite bool_decide_eq_true_2 by eauto.
    unfold statSync_mtimeMs, Date_now. rewrite Hf. cbn.
    destruct (now w - mtimeMs f >? STALE_AGE_MS).
    + unfold unlinkSync. rewrite Hf. cbn. eexists. split; [reflexivity|].
      cbn. rewrite lookup_insert_eq. auto.
    + unfold try_catch, readFileSync, kill0, mbind, M_bind, bind, throw.
      rewrite Hf. cbn.
      destruct (parseInt (content f)) as [p|]; [case_bool_decide|];
        unfold unlinkSync; rewrite Hf; cbn;
        (eexists; split; [reflexivity|]; cbn; rewrite lookup_insert_eq; auto).
  - rewrite bool_decide_eq_false_2 by (intros [? ?]; congruence).
    cbn. eexists. split; [reflexivity|]. cbn. rewrite lookup_insert_eq. auto.
Qed.

(** C1, evaluated where it fails.  Process 4242 is alive and took the
    ingest lock one minute ago; process 7 calls [acquire "ingest"].  The
    specification asks for an "already locked" failure that leaves the
    file alone; the code returns a release function and the lock file now
    records process 7.  The same happens when the first holder took the
    lock through [acquire] itself and has not released it. *)
Theorem acquire_overwrites_live_lock :
  heldByLiveProcess "ingest" heldWorld
  /\ fst (acquire "ingest" 7 heldWorld) = Return (release (lockFileOf "ingest"))
  /\ files (snd (acquire "ingest" 7 heldWorld)) !! lockFileOf "ingest"
     = Some (mkLockFile 61000 "7")
  /\ (let held := snd (acquire "ingest" 4242 freeWorld) in
      heldByLiveProcess "ingest" held
      /\ fst (acquire "ingest" 7 held) = Return (release (lockFileOf "ingest"))
      /\ files (snd (acquire "ingest" 7 held)) !! lockFileOf "ingest"
         = Some (mkLockFile 61000 "7")).
Proof.
  split; [apply heldWorld_held|].
  destruct (acquire_returns "ingest" 7 heldWorld) as (w' & -> & Hf & _).
  split; [reflexivity|]. split; [exact Hf|].
  destruct (acquire_returns "ingest" 4242 freeWorld)
    as (held & -> & Hheld & Hnow & Hprocs).
  cbn [snd]. split.
  - exists (mkLockFile 61000 "4242"), 4242.
    split; [exact Hheld|]. rewrite Hnow, Hprocs.
    split; [vm_compute; discriminate|]. split; [reflexivity|].
    vm_compute. set_solver.
  - destruct (acquire_returns "ingest" 7 held) as (w2 & -> & Hf2 & _).
    split; [reflexivity|]. cbn [snd]. by rewrite Hf2, Hnow.
Qed.

(** ** Stale locks and the release function *)

(** What [cleanupStale] leaves of a directory entry at the time [t]: the
    file, unless it is older than [STALE_AGE_MS]. *)
Definition keepFresh (t : Z) (entry : option LockFile) : option LockFile :=
  match entry with
  | Some f => if t - mtimeMs f >? STALE_AGE_MS then None else Some f
  | None => None
  end.

Lemma keepFresh_idemp (t : Z) (entry : option LockFile) :
  keepFresh t (keepFresh t entry) = keepFresh t entry.
Proof.
  destruct entry as [f|]; [|done]. cbn.
  destruct (t - mtimeMs f >? STALE_AGE_MS) eqn:Hold; [done|]. cbn. by rewrite Hold.
Qed.

(** One pass through the body of the loop of [cleanupStale]. *)
Lemma cleanupLoop_step (file : str) (w : World) :
  exists w1,
    try_catch
      (mtime ← statSync_mtimeMs file;
       t ← Date_now;
       if t - mtime >? STALE_AGE_MS then unlinkSync file else ret tt)
      (fun _ => ret tt) w = (Return tt, w1)
    /\ now w1 = now w /\ procs w1 = procs w
    /\ forall k, files w1 !! k
         = if bool_decide (k = file) then keepFresh (now w) (files w !! k)
           else files w !! k.
Proof.
  unfold try_catch, mbind, M_bind, bind, statSync_mtimeMs, Date_now.
  destruct (files w !! file) as [f|] eqn:Hf.
  - cbn. destruct (now w - mtimeMs f >? STALE_AGE_MS) eqn:Hold.
    + unfold unlinkSync. rewrite Hf. eexists. split; [reflexivity|].
      cbn. split; [done|]. split; [done|]. intros k. case_bool_decide as Hk.
      * subst k. by rewrite lookup_delete_eq, Hf; cbn; rewrite Hold.
      * by rewrite lookup_delete_ne.
    + exists w. split; [done|]. split; [done|]. split; [done|].
      intros k. case_bool_decide as Hk; [|done].
      subst k. rewrite Hf. cbn. by rewrite Hold.
  - exists w. split; [done|]. split; [done|]. split; [done|].
    intros k. case_bool_decide as Hk; [|done]. subst k. by rewrite Hf.
Qed.

Lemma cleanupLoop_spec (names : list str) (w : World) :
  exists w',
    cleanupLoop names w = (Return tt, w')
    /\ now w' = now w /\ procs w' = procs w
    /\ forall k, files w' !! k
         = if bool_decide (k ∈ names) then keepFresh (now w) (files w !! k)
           else files w !! k.
Proof.
  revert w. induction names as [|file rest IH]; intros w.
  - exists w. split; [done|]. split; [done|]. split; [done|].
    intros k. rewrite bool_decide_eq_false_2; [done|]. apply not_elem_of_nil.
  - destruct (cleanupLoop_step file w) as (w1 & Hstep & Hnow1 & Hprocs1 & Hfiles1).
    destruct (IH w1) as (w' & Hloop & Hnow & Hprocs & Hfiles).
    exists w'. split; [|split; [congruence|split; [congruence|]]].
    + cbn [cleanupLoop]. unfold mbind at 1, M_bind at 1, bind at 1.
      by rewrite Hstep.
    + intros k. rewrite Hfiles, Hfiles1, Hnow1.
      destruct (decide (k = file)) as [->|Hne].
      * rewrite (bool_decide_eq_true_2 (file = file)) by done.
        rewrite (bool_decide_eq_true_2 (file ∈ file :: rest)) by left.
        case_bool_decide; [apply keepFresh_idemp|done].
      * rewrite (bool_decide_eq_false_2 (k = file)) by done.
        rewrite (bool_decide_ext (k ∈ file :: rest) (k ∈ rest)); [done|].
        rewrite elem_of_cons. split; [by intros [?|?]|by right].
Qed.

(** X1.  [cleanupStale] never throws, whatever the lock directory holds;
    it leaves the clock and the process table alone, removes every file
    older than fifteen minutes and keeps every other file as it is. *)
Theorem cleanupStale_removes_stale_only (w : World) :
  exists w',
    cleanupStale w = (Return tt, w')
    /\ now w' = now w /\ procs w' = procs w
    /\ forall path, files w' !! path = keepFresh (now w) (files w !! path).
Proof.
  unfold cleanupStale.
  destruct (cleanupLoop_spec (map fst (map_to_list (files w))) w)
    as (w' & Hrun & Hnow & Hprocs & Hfiles).
  exists w'. split; [done|]. split; [done|]. split; [done|].
  intros path. rewrite Hfiles. case_bool_decide as Hin; [done|].
  destruct (files w !! path) as [f|] eqn:Hf; [|done].
  exfalso. apply Hin. apply list_elem_of_fmap. exists (path, f).
  split; [done|]. by apply elem_of_map_to_list.
Qed.

(** X2.  On a file of the lock directory, [isStale] never throws and
    changes nothing; it answers [true] exactly when the file exists and
    is older than fifteen minutes (a missing file is not stale).  The
    lock file of an operation, whose name holds no path separator so that
    the file lies in the directory itself, is not stale once
    [cleanupStale] has run, and it is not stale when [acquire] has just
    written it. *)
Theorem isStale_spec (lockPath : str) (w : World) :
  (exists b, isStale lockPath w = (Return b, w)
     /\ (b = true <-> exists f, files w !! lockPath = Some f
                        /\ STALE_AGE_MS < now w - mtimeMs f))
  /\ (forall operation,
        "/"%char ∉ operation ->
        isStale (lockFileOf operation) (snd (cleanupStale w))
        = (Return false, snd (cleanupStale w)))
  /\ (forall operation pid,
        "/"%char ∉ operation ->
        isStale (lockFileOf operation) (snd (acquire operation pid w))
        = (Return false, snd (acquire operation pid w))).
Proof.
  assert (Hspec : forall path v, exists b, isStale path v = (Return b, v)
     /\ (b = true <-> exists f, files v !! path = Some f
                        /\ STALE_AGE_MS < now v - mtimeMs f)).
  { intros path v.
    unfold isStale, mbind, M_bind, bind, existsSync, statSync_mtimeMs,
      Date_now, ret.
    destruct (files v !! path) as [f|] eqn:Hf.
    - rewrite bool_decide_eq_true_2 by eauto. rewrite Hf.
      eexists. split; [reflexivity|]. rewrite Z.gtb_ltb, Z.ltb_lt.
      split; [eauto|]. by intros (f' & [= <-] & Hold).
    - rewrite bool_decide_eq_false_2 by (intros [? ?]; congruence).
      exists false. split; [done|]. split; [done|]. by intros (f' & ? & _). }
  split; [apply Hspec|]. split.
  - intros operation _.
    destruct (cleanupLoop_spec (map fst (map_to_list (files w))) w)
      as (w' & Hrun & Hnow & _ & Hloop).
    fold (cleanupStale w) in Hrun.
    assert (forall path, files w' !! path = keepFresh (now w) (files w !! path))
      as Hfiles.
    { intros path. rewrite Hloop. case_bool_decide as Hin; [done|].
      destruct (files w !! path) as [f|] eqn:Hf; [|done].
      exfalso. apply Hin. apply list_elem_of_fmap. exists (path, f).
      split; [done|]. by apply elem_of_map_to_list. }
    rewrite Hrun. cbn [snd].
    destruct (Hspec (lockFileOf operation) w') as ([|] & Hb & Hiff); [|done].
    destruct Hiff as [Hiff _]. destruct (Hiff eq_refl) as (f & Hf & Hold).
    rewrite Hfiles in Hf. unfold keepFresh in Hf.
    destruct (files w !! lockFileOf operation) as [g|]; [|done].
    destruct (now w - mtimeMs g >? STALE_AGE_MS) eqn:Hg; [done|].
    injection Hf as ->. rewrite Hnow in Hold.
    rewrite Z.gtb_ltb in Hg. apply Z.ltb_ge in Hg. lia.
  - intros operation pid _.
    destruct (acquire_returns operation pid w) as (w' & Hrun & Hfile & Hnow & _).
    rewrite Hrun. cbn [snd].
    destruct (Hspec (lockFileOf operation) w') as ([|] & Hb & Hiff); [|done].
    destruct Hiff as [Hiff _]. destruct (Hiff eq_refl) as (f & Hf & Hold).
    rewrite Hfile in Hf. injection Hf as <-. cbn in Hold.
    rewrite Hnow in Hold. unfold STALE_AGE_MS in Hold. lia.
Qed.

(** X3.  [acquire] writes one file and nothing else: afterwards the lock
    directory is the one before with the lock file of the operation
    holding the caller's process identifier.  The release function it
    returns removes that file, so the directory is the one before without
    the lock file, and a second call of the release function changes
    nothing and does not throw. *)
Theorem acquire_then_release (operation : str) (pid : Z) (w : World) :
  exists release w1 w2,
    acquire operation pid w = (Return release, w1)
    /\ files w1 = <[lockFileOf operation := mkLockFile (now w) (toString pid)]>
                    (files w)
    /\ release w1 = (Return tt, w2)
    /\ files w2 = delete (lockFileOf operation) (files w)
    /\ release w2 = (Return tt, w2)
    /\ now w2 = now w /\ procs w2 = procs w.
Proof.
  assert (Hacq : exists w1,
    acquire operation pid w = (Return (release (lockFileOf operation)), w1)
    /\ files w1 = <[lockFileOf operation := mkLockFile (now w) (toString pid)]>
                    (files w)
    /\ now w1 = now w /\ procs w1 = procs w).
  { unfold acquire, mbind, M_bind, bind, existsSync, mret, M_ret.
    destruct (files w !! lockFileOf operation) as [f|] eqn:Hf.
    - rewrite bool_decide_eq_true_2 by eauto.
      unfold statSync_mtimeMs, Date_now. rewrite Hf. cbn.
      destruct (now w - mtimeMs f >? STALE_AGE_MS).
      + unfold unlinkSync. rewrite Hf. cbn. eexists. split; [reflexivity|].
        cbn. by rewrite insert_delete_eq.
      + unfold try_catch, readFileSync, kill0, mbind, M_bind, bind, throw.
        rewrite Hf. cbn.
        destruct (parseInt (content f)) as [p|]; [case_bool_decide|];
          unfold unlinkSync; rewrite Hf; cbn;
          (eexists; split; [reflexivity|]; cbn; by rewrite insert_delete_eq).
    - rewrite bool_decide_eq_false_2 by (intros [? ?]; congruence).
      cbn. eexists. split; [reflexivity|]. done. }
  destruct Hacq as (w1 & Hrun & Hfiles1 & Hnow1 & Hprocs1).
  exists (release (lockFileOf operation)), w1,
    (setFiles (delete (lockFileOf operation) (files w1)) w1).
  split; [done|]. split; [done|].
  assert (Hlock : files w1 !! lockFileOf operation
                  = Some (mkLockFile (now w) (toString pid)))
    by (by rewrite Hfiles1, lookup_insert_eq).
  split; [|split; [|split]].
  - unfold release, mbind, M_bind, bind, existsSync, unlinkSync.
    rewrite bool_decide_eq_true_2 by eauto. by rewrite Hlock.
  - cbn. by rewrite Hfiles1, delete_insert_eq.
  - unfold release, mbind, M_bind, bind, existsSync. cbn [files setFiles].
    rewrite bool_decide_eq_false_2; [done|].
    rewrite lookup_delete_eq. by intros [? ?].
  - done.
Qed.

End Locks.

(* ================================================================== *)
(** * Embedding vectors (src/kb/embeddings.ts) *)
(* ================================================================== *)

Module Embeddings.

Import JS.
Local Open Scope Z_scope.

(** ** Typed-array views *)

(** An [ArrayBuffer] is its bytes.  A [Float32Array] and a [Buffer] are
    views of an [ArrayBuffer]: the buffer, the offset of the view in
    bytes, and its extent (in elements for the typed array, in bytes for
    the [Buffer]).  The views below never write, so a view carries the
    bytes of the buffer it aliases. *)
Abbreviation ArrayBuffer := (list Byte.byte).

Record Float32Array := mkFloat32Array {
  f_buffer : ArrayBuffer;
  f_byteOffset : Z;
  f_length : Z
}.

Record Buffer := mkBuffer {
  b_buffer : ArrayBuffer;
  b_byteOffset : Z;
  b_byteLength : Z
}.

(** [new Float32Array(buffer, byteOffset, length)]: a RangeError ([None])
    when the offset is not a multiple of four or the view leaves the
    buffer; a fractional [length] is truncated. *)
Definition new_Float32Array (buffer : ArrayBuffer) (byteOffset length : Z)
  : option Float32Array :=
  if (0 <=? byteOffset) && (byteOffset mod 4 =? 0) && (0 <=? length)
     && (byteOffset + 4 * length <=? len buffer)
  then Some (mkFloat32Array buffer byteOffset length)
  else None.

(** [Buffer.from(arrayBuffer)]: a view of the whole buffer. *)
Definition Buffer_from (ab : ArrayBuffer) : Buffer :=
  mkBuffer ab 0 (len ab).

(** [serializeFloat32(arr)] = [Buffer.from(arr.buffer)] *)
Definition serializeFloat32 (arr : Float32Array) : Buffer :=
  Buffer_from (f_buffer arr).

(** [deserializeFloat32(buffer)] =
    [new Float32Array(buffer.buffer, buffer.byteOffset, buffer.byteLength / 4)] *)
Definition deserializeFloat32 (buffer : Buffer) : option Float32Array :=
  new_Float32Array (b_buffer buffer) (b_byteOffset buffer)
                   (b_byteLength buffer / 4).

(** The 32-bit pattern stored little-endian at byte [i] of the buffer. *)
Definition byteAt (ab : ArrayBuffer) (i : nat) : Z :=
  match nth_error ab i with
  | Some b => Z.of_N (Byte.to_N b)
  | None => 0
  end.

Definition word32At (ab : ArrayBuffer) (i : nat) : Z :=
  byteAt ab i + 256 * byteAt ab (i + 1) + 65536 * byteAt ab (i + 2)
  + 16777216 * byteAt ab (i + 3).

(** [arr[i]], as the bit pattern of the float; [None] is [undefined]. *)
Definition getIndex (arr : Float32Array) (i : Z) : option Z :=
  if (0 <=? i) && (i <? f_length arr)
  then Some (word32At (f_buffer arr) (Z.to_nat (f_byteOffset arr + 4 * i)))
  else None.

(** The components [arr[0]], ..., [arr[length - 1]]. *)
Definition components (arr : Float32Array) : list Z :=
  map (fun i => word32At (f_buffer arr)
                  (Z.to_nat (f_byteOffset arr + 4 * Z.of_nat i)))
      (seq 0 (Z.to_nat (f_length arr))).

(** A typed array that spans its whole backing buffer. *)
Definition spansBuffer (arr : Float32Array) : Prop :=
  f_byteOffset arr = 0 /\ 4 * f_length arr = len (f_buffer arr).

(** Three floats 1.0, 2.0, 3.0 and the sub-array of the middle one. *)
Definition threeFloats : Float32Array :=
  mkFloat32Array
    [Byte.x00; Byte.x00; Byte.x80; Byte.x3f;
     Byte.x00; Byte.x00; Byte.x00; Byte.x40;
     Byte.x00; Byte.x00; Byte.x40; Byte.x40] 0 3.

Definition middleFloat : Float32Array :=
  mkFloat32Array (f_buffer threeFloats) 4 1.

(** ** Normalisation *)

Local Open Scope R_scope.

(** The values of a [Float32Array], as real numbers. *)
Abbreviation Vec := (list R).

(** The sum of the squares, accumulated as the loops of the sources do. *)
Fixpoint sumSquaresFrom (acc : R) (v : Vec) : R :=
  match v with
  | [] => acc
  | x :: r => sumSquaresFrom (acc + x * x) r
  end.

(** [normalize(vec)]: divides by the Euclidean norm unless it is zero. *)
Definition normalize (vec : Vec) : Vec :=
  let norm := sqrt (sumSquaresFrom 0 vec) in
  if Rlt_dec 0 norm then map (fun x => x / norm) vec else vec.

(** A vector of Euclidean norm one. *)
Definition unitVec (v : Vec) : Prop := sumSquaresFrom 0 v = 1.

(** ** Properties *)

Local Open Scope Z_scope.

(** C10.  For a [Float32Array] that spans its whole backing buffer,
    serialising and deserialising gives back a typed array of the same
    length with the same components. *)
Theorem deserialize_serialize_spanning (v : Float32Array) :
  spansBuffer v ->
  exists v', deserializeFloat32 (serializeFloat32 v) = Some v'
    /\ f_length v' = f_length v
    /\ components v' = components v
    /\ forall i, getIndex v' i = getIndex v i.
Proof.
  intros [Hoff Hlen]. exists v.
  unfold deserializeFloat32, serializeFloat32, Buffer_from, new_Float32Array.
  cbn [b_buffer b_byteOffset b_byteLength].
  rewrite <- Hlen.
  replace (4 * f_length v / 4) with (f_length v)
    by (symmetry; rewrite Z.mul_comm; apply Z.div_mul; lia).
  assert (0 <= f_length v) by (unfold len in Hlen; lia).
  replace (0 <=? 0) with true by reflexivity.
  replace (0 mod 4 =? 0) with true by reflexivity.
  rewrite (proj2 (Z.leb_le 0 (f_length v))) by lia.
  rewrite (proj2 (Z.leb_le (0 + 4 * f_length v) (4 * f_length v))) by lia.
  cbn [andb]. destruct v as [b o l]; cbn in *; subst o. auto.
Qed.

Lemma deserialize_serialize_spanning_witness :
  spansBuffer threeFloats
  /\ exists v', deserializeFloat32 (serializeFloat32 threeFloats) = Some v'
       /\ f_length v' = f_length threeFloats
       /\ components v' = components threeFloats
       /\ forall i, getIndex v' i = getIndex threeFloats i.
Proof.
  split; [split; reflexivity|].
  apply (deserialize_serialize_spanning threeFloats). split; reflexivity.
Defined.

(** The hypothesis matters: the serialised form of a sub-array is the
    whole backing buffer. *)
Example serialize_subarray :
  (f_length <$> deserializeFloat32 (serializeFloat32 middleFloat)) = Some 3
  /\ f_length middleFloat = 1.
Proof. split; reflexivity. Qed.

(** ** Serialising a view of a larger buffer *)

(** A typed array the platform can construct: its offset is a multiple
    of four and the view lies inside its buffer. *)
Definition validView (arr : Float32Array) : Prop :=
  new_Float32Array (f_buffer arr) (f_byteOffset arr) (f_length arr) = Some arr.

(** X4.  [serializeFloat32] takes the whole backing buffer, whatever part
    of it the typed array views.  For every constructible typed array,
    deserialising its serialised form succeeds and gives a typed array
    over the whole buffer, of [buffer.byteLength / 4] elements at offset
    zero, in which the components of the argument are found from index
    [byteOffset / 4] on. *)
Theorem deserialize_serialize_view (v : Float32Array) :
  validView v ->
  exists v',
    deserializeFloat32 (serializeFloat32 v) = Some v'
    /\ f_buffer v' = f_buffer v /\ f_byteOffset v' = 0
    /\ f_length v' = len (f_buffer v) / 4
    /\ forall i, 0 <= i < f_length v ->
         getIndex v' (f_byteOffset v / 4 + i) = getIndex v i.
Proof.
  unfold validView, new_Float32Array. intros Hv.
  destruct (_ && _) eqn:Hok in Hv; [clear Hv|done].
  apply andb_prop in Hok as [Hok Hin%Z.leb_le].
  apply andb_prop in Hok as [Hok Hlen%Z.leb_le].
  apply andb_prop in Hok as [Hoff%Z.leb_le Hmod%Z.eqb_eq].
  pose proof (Z.div_mod (len (f_buffer v)) 4 ltac:(lia)) as Hdm.
  pose proof (Z.mod_pos_bound (len (f_buffer v)) 4 ltac:(lia)) as Hmb.
  pose proof (Z.div_mod (f_byteOffset v) 4 ltac:(lia)) as Hdo.
  exists (mkFloat32Array (f_buffer v) 0 (len (f_buffer v) / 4)).
  split; [|split; [done|split; [done|split; [done|]]]].
  - unfold deserializeFloat32, serializeFloat32, Buffer_from, new_Float32Array.
    cbn [b_buffer b_byteOffset b_byteLength].
    assert (0 <= len (f_buffer v)) by (unfold len; lia).
    replace (0 <=? 0) with true by reflexivity.
    replace (0 mod 4 =? 0) with true by reflexivity.
    rewrite (proj2 (Z.leb_le 0 (len (f_buffer v) / 4))) by lia.
    rewrite (proj2 (Z.leb_le _ (len (f_buffer v)))) by lia.
    done.
  - intros i Hi. unfold getIndex. cbn [f_buffer f_byteOffset f_length].
    rewrite (proj2 (Z.leb_le 0 i)), (proj2 (Z.ltb_lt i (f_length v))) by lia.
    rewrite (proj2 (Z.leb_le 0 (f_byteOffset v / 4 + i))) by lia.
    rewrite (proj2 (Z.ltb_lt (f_byteOffset v / 4 + i) (len (f_buffer v) / 4)))
      by lia.
    cbn [andb]. do 2 f_equal. lia.
Qed.

Lemma deserialize_serialize_view_witness :
  validView middleFloat
  /\ exists v',
       deserializeFloat32 (serializeFloat32 middleFloat) = Some v'
       /\ f_buffer v' = f_buffer middleFloat /\ f_byteOffset v' = 0
       /\ f_length v' = len (f_buffer middleFloat) / 4
       /\ forall i, 0 <= i < f_length middleFloat ->
            getIndex v' (f_byteOffset middleFloat / 4 + i)
            = getIndex middleFloat i.
Proof.
  split; [reflexivity|].
  apply (deserialize_serialize_view middleFloat). reflexivity.
Defined.

End Embeddings.

(* ================================================================== *)
(** * Semantic search (src/kb/search.ts) *)
(* ================================================================== *)

Module Search.

Import JS Embeddings.
Local Open Scope R_scope.

#[global] Instance Rle_decision (x y : R) : Decision (x <= y) := Rle_dec x y.
#[global] Instance Rlt_decision (x y : R) : Decision (x < y) := Rlt_dec x y.
#[global] Instance Req_decision : EqDecision R := Req_dec_T.

(** A row of the join of [kb_chunks] with [kb_sources]. *)
Record SearchRow := mkSearchRow {
  id : Z;
  source_id : str;
  content : str;
  source_url : option str;
  source_title : option str;
  source_type : str
}.

Record SearchResult := mkSearchResult {
  r_chunk_id : Z;
  r_source_id : str;
  r_source_url : option str;
  r_source_title : option str;
  r_source_type : str;
  r_content : str;
  similarity : R
}.

(** [SearchOptions]: every field may be left out. *)
Record SearchOptions := mkSearchOptions {
  limit : option Z;
  minSimilarity : option R;
  dedupeBySource : option bool
}.

Definition limitOf (o : SearchOptions) : Z := default 10%Z (limit o).
Definition minSimilarityOf (o : SearchOptions) : R :=
  default (7 / 10) (minSimilarity o).
Definition dedupeOf (o : SearchOptions) : bool :=
  default true (dedupeBySource o).

(** The object literal both paths build from a row and its score. *)
Definition toResult (row : SearchRow) (sim : R) : SearchResult :=
  mkSearchResult (id row) (source_id row) (source_url row)
                 (source_title row) (source_type row) (content row) sim.

(** ** Ranking *)

(** [Array.prototype.sort(cmp)]: a stable sort; [x] stays before [y] when
    [cmp x y <= 0]. *)
Fixpoint insertBy {A} (cmp : A -> A -> R) (x : A) (l : list A) : list A :=
  match l with
  | [] => [x]
  | y :: r => if decide (cmp x y <= 0) then x :: l else y :: insertBy cmp x r
  end.

Definition sortBy {A} (cmp : A -> A -> R) (l : list A) : list A :=
  foldr (insertBy cmp) [] l.

(** The comparator [(a, b) => b.similarity - a.similarity]. *)
Definition bySimilarityDesc (a b : SearchResult) : R :=
  similarity b - similarity a.

(** A [Map<string, SearchResult>]: the entries in insertion order. *)
Fixpoint Map_get (k : str) (m : list (str * SearchResult))
  : option SearchResult :=
  match m with
  | [] => None
  | (k', v) :: r => if decide (k = k') then Some v else Map_get k r
  end.

Fixpoint Map_set (k : str) (v : SearchResult) (m : list (str * SearchResult))
  : list (str * SearchResult) :=
  match m with
  | [] => [(k, v)]
  | (k', v') :: r =>
      if decide (k = k') then (k, v) :: r else (k', v') :: Map_set k v r
  end.

Definition Map_values (m : list (str * SearchResult)) : list SearchResult :=
  map snd m.

(** The body of the loop [for (const r of results)]. *)
Definition keepBest (m : list (str * SearchResult)) (r : SearchResult)
  : list (str * SearchResult) :=
  match Map_get (r_source_id r) m with
  | None => Map_set (r_source_id r) r m
  | Some existing =>
      if decide (similarity existing < similarity r)
      then Map_set (r_source_id r) r m
      else m
  end.

(** [processAndRankResults(results, limit, dedupeBySource)] *)
Definition processAndRankResults (results : list SearchResult) (limit : Z)
  (dedupeBySource : bool) : list SearchResult :=
  let results := sortBy bySimilarityDesc results in
  let finalResults :=
    if dedupeBySource
    then sortBy bySimilarityDesc (Map_values (fold_left keepBest results []))
    else results in
  slice finalResults 0 limit.

(** ** The exact path *)

(** The loop of [cosineSimilarity]: dot product and squared norms. *)
Fixpoint cosineLoop (a b : Vec) (dotProduct normA normB : R) : R * R * R :=
  match a, b with
  | x :: a', y :: b' =>
      cosineLoop a' b' (dotProduct + x * y) (normA + x * x) (normB + y * y)
  | _, _ => (dotProduct, normA, normB)
  end.

(** [cosineSimilarity(a, b)] *)
Definition cosineSimilarity (a b : Vec) : R :=
  if decide (length a = length b) then
    let '(dotProduct, normA, normB) := cosineLoop a b 0 0 0 in
    let magnitude := sqrt normA * sqrt normB in
    if decide (magnitude = 0) then 0 else dotProduct / magnitude
  else 0.

(** The stored data a search reads: the join of the chunks with their
    sources, each row with its embedding when it has one, and the answer
    of the vector index to a query vector and a fetch limit: the rows
    with the distance it reports for them, or [None] when the index is
    absent or fails. *)
Record Database := mkDatabase {
  chunkRows : list (SearchRow * option Vec);
  vss_search : Vec -> Z -> option (list (SearchRow * R))
}.

(** [SELECT ... WHERE c.embedding IS NOT NULL] *)
Definition embeddedRows (db : Database) : list (SearchRow * option Vec) :=
  filter (fun row => is_Some (snd row)) (chunkRows db).

(** The loop of [fallbackSearch] over the rows. *)
Fixpoint fallbackLoop (queryEmbedding : Vec)
  (rows : list (SearchRow * option Vec)) (minSimilarity : R)
  : list SearchResult :=
  match rows with
  | [] => []
  | (row, None) :: rest => fallbackLoop queryEmbedding rest minSimilarity
  | (row, Some chunkEmbedding) :: rest =>
      let similarity := cosineSimilarity queryEmbedding chunkEmbedding in
      if decide (minSimilarity <= similarity)
      then toResult row similarity
           :: fallbackLoop queryEmbedding rest minSimilarity
      else fallbackLoop queryEmbedding rest minSimilarity
  end.

(** [fallbackSearch(queryEmbedding, options)] *)
Definition fallbackSearch (db : Database) (queryEmbedding : Vec)
  (options : SearchOptions) : list SearchResult :=
  processAndRankResults
    (fallbackLoop queryEmbedding (embeddedRows db) (minSimilarityOf options))
    (limitOf options) (dedupeOf options).

(** ** The accelerated path *)

(** The score computed from the distance the index reports. *)
Definition vssSimilarity (distance : R) : R :=
  Rmax 0 (1 - (distance * distance) / 2).

(** [rows.map(...).filter((r) => r.similarity >= minSimilarity)] *)
Definition vssResults (rows : list (SearchRow * R)) (minSimilarity : R)
  : list SearchResult :=
  filter (fun r => minSimilarity <= similarity r)
         (map (fun rd => toResult (fst rd) (vssSimilarity (snd rd))) rows).

(** The accelerated path of [search], when the index answers. *)
Definition acceleratedSearch (db : Database) (queryEmbedding : Vec)
  (options : SearchOptions) : option (list SearchResult) :=
  let count := len (embeddedRows db) in
  let fetchLimit := Z.min (limitOf options * 3) count in
  rows ← vss_search db queryEmbedding fetchLimit;
  Some (processAndRankResults (vssResults rows (minSimilarityOf options))
                              (limitOf options) (dedupeOf options)).

(** [search(query, options)].  [available] is [isAvailable()] and
    [queryEmbedding] the result of [generateEmbedding(query)], [None] for
    [null]. *)
Definition search (available : bool) (queryEmbedding : option Vec)
  (db : Database) (options : SearchOptions) : list SearchResult :=
  if negb available then []
  else match queryEmbedding with
       | None => []
       | Some q =>
           if decide (len (embeddedRows db) = 0%Z) then []
           else match acceleratedSearch db q options with
                | Some results => results
                | None => fallbackSearch db q options
                end
       end.

(** ** Vocabulary of the properties *)

(** The Euclidean distance of two vectors. *)
Fixpoint squaredDistance (a b : Vec) : R :=
  match a, b with
  | x :: a', y :: b' => (x - y) * (x - y) + squaredDistance a' b'
  | _, _ => 0
  end.

Definition euclideanDistance (a b : Vec) : R := sqrt (squaredDistance a b).

(** The index is consistent with the store for the query [q]: every row it
    reports is a stored row with an embedding, and the number it reports
    in the column [distance] is the squared Euclidean distance from [q] to
    that embedding (an L2 index reports the distance squared). *)
Definition indexConsistent (db : Database) (q : Vec) : Prop :=
  forall k rows row d,
    vss_search db q k = Some rows -> (row, d) ∈ rows ->
    exists e, (row, Some e) ∈ chunkRows db /\ d = squaredDistance q e.

(** Chunk identifiers are unique among the stored rows. *)
Definition uniqueIds (db : Database) : Prop :=
  forall r1 e1 r2 e2,
    (r1, e1) ∈ chunkRows db -> (r2, e2) ∈ chunkRows db ->
    id r1 = id r2 -> r1 = r2 /\ e1 = e2.

(** Every stored embedding is a unit vector of the query's dimension. *)
Definition unitEmbeddings (db : Database) (q : Vec) : Prop :=
  forall row e, (row, Some e) ∈ chunkRows db ->
    unitVec e /\ length e = length q.

(** The two paths agree within [tol] on every chunk both report. *)
Definition pathsAgree (tol : R) (db : Database) (q : Vec)
  (options : SearchOptions) : Prop :=
  forall accelerated r1 r2,
    acceleratedSearch db q options = Some accelerated ->
    r1 ∈ accelerated -> r2 ∈ fallbackSearch db q options ->
    r_chunk_id r1 = r_chunk_id r2 ->
    Rabs (similarity r1 - similarity r2) <= tol.

(** The dot product and the squared norm. *)
Fixpoint dot (a b : Vec) : R :=
  match a, b with
  | x :: a', y :: b' => x * y + dot a' b'
  | _, _ => 0
  end.

Fixpoint sumSquares (a : Vec) : R :=
  match a with
  | [] => 0
  | x :: a' => x * x + sumSquares a'
  end.

(** A stored row passes the threshold [m] for the query [q]. *)
Definition scoresAtLeast (q : Vec) (m : R) (row : SearchRow * option Vec)
  : Prop :=
  match snd row with
  | Some e => m <= cosineSimilarity q e
  | None => False
  end.

#[global] Instance scoresAtLeast_dec q m row : Decision (scoresAtLeast q m row).
Proof. unfold scoresAtLeast. destruct (snd row); apply _. Defined.

(** Descending order of similarity. *)
Definition descending (l : list SearchResult) : Prop :=
  StronglySorted (fun a b => similarity b <= similarity a) l.

(** The results are chunks of the store that have an embedding, as many
    as the store has up to [lim], in descending order of similarity. *)
Definition everyEmbeddedUpTo (db : Database) (lim : Z)
  (results : list SearchResult) : Prop :=
  len results = Z.min lim (len (embeddedRows db))
  /\ descending results
  /\ forall r, r ∈ results ->
       exists row e, (row, Some e) ∈ chunkRows db /\ r_chunk_id r = id row.

(** One stored chunk whose embedding points away from the query. *)
Definition note1 : SearchRow :=
  mkSearchRow 1 "kb-1" "alpha" None (Some (list_ascii_of_string "Note")) "text".

Definition query10 : Vec := [1; 0].

Definition oppositeDbNoIndex : Database :=
  mkDatabase [(note1, Some [-1; 0])] (fun _ _ => None).

(** Options with the threshold one half, and the options of C5. *)
Definition halfScore : SearchOptions := mkSearchOptions None (Some (1 / 2)) None.

Definition defaultOptions : SearchOptions := mkSearchOptions None None None.

Definition allUpTo (lim : Z) : SearchOptions :=
  mkSearchOptions (Some lim) (Some 0) (Some false).

(** One stored chunk whose embedding is the query. *)
Definition alignedDb : Database :=
  mkDatabase [(note1, Some [1; 0])] (fun _ _ => Some [(note1, 0)]).

Definition alignedDbNoIndex : Database :=
  mkDatabase [(note1, Some [1; 0])] (fun _ _ => None).

(** One stored chunk whose unit embedding (3/5, 4/5) has the cosine
    similarity 3/5 to the query; the index reports its squared distance
    4/5. *)
Definition slantedDb : Database :=
  mkDatabase [(note1, Some [3 / 5; 4 / 5])] (fun _ _ => Some [(note1, 4 / 5)]).

(** ** Facts about sorting and ranking *)

Section Sorting.
Context {A : Type} (cmp : A -> A -> R).

Lemma insertBy_Permutation (x : A) (l : list A) :
  insertBy cmp x l ≡ₚ x :: l.
Proof.
  induction l as [|y r IH]; cbn; [done|].
  case_decide; [done|]. rewrite IH. apply Permutation_swap.
Qed.

Lemma sortBy_Permutation (l : list A) : sortBy cmp l ≡ₚ l.
Proof.
  induction l as [|x r IH]; cbn; [done|].
  rewrite insertBy_Permutation. by rewrite IH.
Qed.

Lemma sortBy_elem_of (x : A) (l : list A) : x ∈ sortBy cmp l <-> x ∈ l.
Proof. by rewrite sortBy_Permutation. Qed.

Lemma sortBy_length (l : list A) : length (sortBy cmp l) = length l.
Proof. by rewrite sortBy_Permutation. Qed.
End Sorting.

Lemma insertBy_descending (x : SearchResult) (l : list SearchResult) :
  descending l -> descending (insertBy bySimilarityDesc x l).
Proof.
  unfold descending. induction 1 as [|y r Hr IH Hy]; cbn.
  - repeat constructor.
  - unfold bySimilarityDesc at 1. case_decide as Hc.
    + constructor; [by constructor|].
      constructor; [lra|].
      eapply Forall_impl; [exact Hy|]. cbn. intros; lra.
    + constructor; [exact IH|].
      rewrite insertBy_Permutation. constructor; [lra|exact Hy].
Qed.

Lemma sortBy_descending (l : list SearchResult) :
  descending (sortBy bySimilarityDesc l).
Proof.
  induction l as [|x r IH]; cbn; [constructor|].
  by apply insertBy_descending.
Qed.

(** Sorting a list that is already in descending order changes nothing:
    the sort is stable. *)
Lemma sortBy_descending_id (l : list SearchResult) :
  descending l -> sortBy bySimilarityDesc l = l.
Proof.
  unfold descending. induction 1 as [|x r Hr IH Hx]; [done|].
  change (sortBy bySimilarityDesc (x :: r))
    with (insertBy bySimilarityDesc x (sortBy bySimilarityDesc r)).
  rewrite IH. destruct r as [|y r']; cbn; [done|].
  apply Forall_cons in Hx as [Hxy _].
  unfold bySimilarityDesc at 1. case_decide; [done|lra].
Qed.

Lemma slice_0_take {A} (l : list A) (n : Z) :
  (0 <= n)%Z -> slice l 0 n = take (Z.to_nat n) l.
Proof.
  intros Hn. unfold slice, clampIndex, len.
  replace (0 <? 0)%Z with false by reflexivity.
  rewrite (proj2 (Z.ltb_ge n 0)) by lia.
  rewrite (Z.min_l 0) by lia. change (Z.to_nat 0) with 0%nat.
  rewrite drop_0, Z.sub_0_r.
  destruct (decide (n <= Z.of_nat (length l))%Z).
  - by rewrite Z.min_l by lia.
  - rewrite Z.min_r by lia. rewrite Nat2Z.id.
    rewrite !firstn_all2; [done| |]; lia.
Qed.

Lemma slice_elem_of {A} (x : A) (l : list A) (a b : Z) :
  x ∈ slice l a b -> x ∈ l.
Proof.
  unfold slice. intros H.
  by apply subseteq_take, subseteq_drop in H.
Qed.

Lemma Map_set_values_subset k v m x :
  x ∈ Map_values (Map_set k v m) -> x = v \/ x ∈ Map_values m.
Proof.
  unfold Map_values. induction m as [|[k' v'] r IH]; cbn.
  - rewrite list_elem_of_singleton. auto.
  - case_decide; cbn; rewrite !elem_of_cons; intuition.
Qed.

Lemma keepBest_values_subset (rs : list SearchResult) m x :
  x ∈ Map_values (fold_left keepBest rs m) -> x ∈ rs \/ x ∈ Map_values m.
Proof.
  revert m. induction rs as [|r rs IH]; cbn; intros m H; [by right|].
  apply IH in H as [H|H]; [left; by right|].
  unfold keepBest in H.
  destruct (Map_get (r_source_id r) m); [case_decide|];
    try (apply Map_set_values_subset in H as [->|H]; [left; by left|by right]).
  by right.
Qed.

(** Ranking only selects among the results it is given. *)
Lemma processAndRankResults_elem_of x results limit dedupe :
  x ∈ processAndRankResults results limit dedupe -> x ∈ results.
Proof.
  unfold processAndRankResults. intros H. apply slice_elem_of in H.
  destruct dedupe.
  - apply sortBy_elem_of in H. apply keepBest_values_subset in H as [H|H].
    + by apply sortBy_elem_of in H.
    + cbn in H. by apply elem_of_nil in H.
  - by apply sortBy_elem_of in H.
Qed.

(** ** Facts about the scores *)

Lemma sumSquaresFrom_acc (v : Vec) (acc : R) :
  sumSquaresFrom acc v = acc + sumSquares v.
Proof.
  revert acc. induction v as [|x v IH]; intros acc; cbn; [lra|].
  rewrite IH. lra.
Qed.

Lemma unitVec_sumSquares (v : Vec) : unitVec v <-> sumSquares v = 1.
Proof. unfold unitVec. rewrite sumSquaresFrom_acc. split; intros; lra. Qed.

Lemma sumSquares_nonneg (v : Vec) : 0 <= sumSquares v.
Proof. induction v as [|x v IH]; cbn; [lra|]. nra. Qed.

Lemma cosineLoop_spec (a b : Vec) (d na nb : R) :
  length a = length b ->
  cosineLoop a b d na nb = (d + dot a b, na + sumSquares a, nb + sumSquares b).
Proof.
  revert b d na nb. induction a as [|x a IH]; intros [|y b] d na nb Hl;
    cbn in *; try discriminate.
  - f_equal; [f_equal|]; lra.
  - rewrite IH by congruence. f_equal; [f_equal|]; lra.
Qed.

(** The Cauchy-Schwarz inequality. *)
Lemma dot_squared_le (a b : Vec) :
  dot a b * dot a b <= sumSquares a * sumSquares b.
Proof.
  revert b. induction a as [|x a IH]; intros [|y b]; cbn; try lra.
  specialize (IH b).
  pose proof (sumSquares_nonneg a) as Ha.
  pose proof (sumSquares_nonneg b) as Hb.
  set (D := dot a b) in *. set (A := sumSquares a) in *.
  set (B := sumSquares b) in *.
  assert (Hmix : 2 * (x * y) * D <= x * x * B + y * y * A).
  { destruct (Req_dec_T A 0) as [HA|HA].
    - assert (D = 0) by nra. nra.
    - assert (0 < A) by lra.
      assert (A * (2 * (x * y) * D) <= A * (x * x * B + y * y * A)).
      { pose proof (Rle_0_sqr (A * y - D * x)) as Hsq.
        unfold Rsqr in Hsq. nra. }
      nra. }
  nra.
Qed.

Lemma dot_le_norms (a b : Vec) :
  dot a b <= sqrt (sumSquares a) * sqrt (sumSquares b).
Proof.
  pose proof (sumSquares_nonneg a) as Ha.
  pose proof (sumSquares_nonneg b) as Hb.
  rewrite <- sqrt_mult by assumption.
  destruct (Rle_dec (dot a b) 0) as [Hn|Hp].
  - pose proof (sqrt_pos (sumSquares a * sumSquares b)). lra.
  - rewrite <- (sqrt_square (dot a b)) by lra.
    apply sqrt_le_1_alt, dot_squared_le.
Qed.

(** The exact score never exceeds one. *)
Lemma cosineSimilarity_le_1 (a b : Vec) : cosineSimilarity a b <= 1.
Proof.
  unfold cosineSimilarity. case_decide as Hl; [|lra].
  rewrite cosineLoop_spec by done. rewrite !Rplus_0_l.
  case_decide as Hm; [lra|].
  pose proof (sqrt_pos (sumSquares a)). pose proof (sqrt_pos (sumSquares b)).
  assert (0 < sqrt (sumSquares a) * sqrt (sumSquares b)) by nra.
  apply Rmult_le_reg_r with (sqrt (sumSquares a) * sqrt (sumSquares b));
    [done|].
  unfold Rdiv. rewrite Rmult_assoc, Rinv_l by done.
  rewrite Rmult_1_r, Rmult_1_l. apply dot_le_norms.
Qed.

(** On unit vectors of one dimension the exact score is the dot product. *)
Lemma cosineSimilarity_unit (a b : Vec) :
  length a = length b -> unitVec a -> unitVec b ->
  cosineSimilarity a b = dot a b.
Proof.
  intros Hl Ha%unitVec_sumSquares Hb%unitVec_sumSquares.
  unfold cosineSimilarity. rewrite decide_True by done.
  rewrite cosineLoop_spec by done. rewrite !Rplus_0_l, Ha, Hb, sqrt_1.
  rewrite decide_False by lra. field.
Qed.

Lemma squaredDistance_expand (a b : Vec) :
  length a = length b ->
  squaredDistance a b = sumSquares a + sumSquares b - 2 * dot a b.
Proof.
  revert b. induction a as [|x a IH]; intros [|y b] Hl; cbn in *;
    try discriminate; [lra|].
  rewrite IH by congruence. lra.
Qed.

Lemma squaredDistance_nonneg (a b : Vec) : 0 <= squaredDistance a b.
Proof.
  revert b. induction a as [|x a IH]; intros [|y b]; cbn; try lra.
  specialize (IH b). pose proof (Rle_0_sqr (x - y)) as Hsq.
  unfold Rsqr in Hsq. lra.
Qed.

(** The formula of the accelerated path is the one for the Euclidean
    distance itself: applied to the distance of two unit vectors it gives
    their cosine similarity, cut off at zero. *)
Lemma vssSimilarity_distance (q e : Vec) :
  length e = length q -> unitVec q -> unitVec e ->
  vssSimilarity (euclideanDistance q e) = Rmax 0 (cosineSimilarity q e).
Proof.
  intros Hl Hq He. rewrite cosineSimilarity_unit by done.
  unfold vssSimilarity, euclideanDistance.
  rewrite sqrt_sqrt by apply squaredDistance_nonneg.
  rewrite squaredDistance_expand by done.
  apply unitVec_sumSquares in Hq, He. rewrite Hq, He.
  f_equal. lra.
Qed.

(** Applied to the squared distance, which the index reports, it squares
    a second time: for unit vectors of cosine similarity [c] the score is
    [1 - 2 (1 - c)^2], cut off at zero. *)
Lemma vssSimilarity_squaredDistance (q e : Vec) :
  length e = length q -> unitVec q -> unitVec e ->
  vssSimilarity (squaredDistance q e)
  = Rmax 0 (1 - 2 * ((1 - cosineSimilarity q e) * (1 - cosineSimilarity q e))).
Proof.
  intros Hl Hq He. rewrite cosineSimilarity_unit by done.
  unfold vssSimilarity. rewrite squaredDistance_expand by done.
  apply unitVec_sumSquares in Hq, He. rewrite Hq, He.
  f_equal. lra.
Qed.

Lemma vssSimilarity_le_1 (d : R) : vssSimilarity d <= 1.
Proof. unfold vssSimilarity. apply Rmax_lub; [lra|]. nra. Qed.

Lemma vssSimilarity_nonneg (d : R) : 0 <= vssSimilarity d.
Proof. unfold vssSimilarity. apply Rmax_l. Qed.

(** ** What each path reports *)

Lemma fallbackLoop_elem_of q rows m r :
  r ∈ fallbackLoop q rows m <->
  exists row e, (row, Some e) ∈ rows
    /\ r = toResult row (cosineSimilarity q e)
    /\ m <= cosineSimilarity q e.
Proof.
  induction rows as [|[row [e|]] rest IH]; cbn.
  - split; [intros H; by apply elem_of_nil in H|].
    intros (? & ? & H & _). by apply elem_of_nil in H.
  - case_decide as Hm.
    + rewrite elem_of_cons, IH. split.
      * intros [->|(row' & e' & Hin & -> & Hle)].
        -- exists row, e. split; [by left|done].
        -- exists row', e'. split; [by right|done].
      * intros (row' & e' & Hin & -> & Hle).
        apply elem_of_cons in Hin as [Heq|Hin].
        -- inversion Heq; subst. by left.
        -- right. by exists row', e'.
    + rewrite IH. split.
      * intros (row' & e' & Hin & -> & Hle).
        exists row', e'. split; [by right|done].
      * intros (row' & e' & Hin & -> & Hle).
        apply elem_of_cons in Hin as [Heq|Hin].
        -- inversion Heq; subst. done.
        -- by exists row', e'.
  - rewrite IH. split.
    + intros (row' & e' & Hin & -> & Hle).
      exists row', e'. split; [by right|done].
    + intros (row' & e' & Hin & -> & Hle).
      apply elem_of_cons in Hin as [Heq|Hin]; [discriminate|].
      by exists row', e'.
Qed.

Lemma embeddedRows_elem_of db row e :
  (row, Some e) ∈ embeddedRows db <-> (row, Some e) ∈ chunkRows db.
Proof.
  unfold embeddedRows. rewrite list_elem_of_filter. cbn.
  split; [by intros [_ ?]|]. intros H. split; [by eexists|done].
Qed.

Lemma vssResults_elem_of rows m r :
  r ∈ vssResults rows m <->
  exists row d, (row, d) ∈ rows
    /\ r = toResult row (vssSimilarity d)
    /\ m <= vssSimilarity d.
Proof.
  unfold vssResults. rewrite list_elem_of_filter, list_elem_of_fmap.
  split.
  - intros (Hle & [row d] & -> & Hin). exists row, d. done.
  - intros (row & d & Hin & -> & Hle). split; [done|]. by exists (row, d).
Qed.

(** Every result of the exact path is a stored, embedded row with its
    cosine similarity, which passes the threshold. *)
Lemma fallbackSearch_elem_of db q options r :
  r ∈ fallbackSearch db q options ->
  exists row e, (row, Some e) ∈ chunkRows db
    /\ r = toResult row (cosineSimilarity q e)
    /\ minSimilarityOf options <= cosineSimilarity q e.
Proof.
  unfold fallbackSearch. intros H%processAndRankResults_elem_of.
  apply fallbackLoop_elem_of in H as (row & e & Hin & -> & Hle).
  exists row, e. by rewrite <- embeddedRows_elem_of.
Qed.

Lemma acceleratedSearch_elem_of db q options results r :
  acceleratedSearch db q options = Some results -> r ∈ results ->
  exists k rows row d, vss_search db q k = Some rows /\ (row, d) ∈ rows
    /\ r = toResult row (vssSimilarity d)
    /\ minSimilarityOf options <= vssSimilarity d.
Proof.
  unfold acceleratedSearch. intros Hacc Hin.
  destruct (vss_search db q _) as [rows|] eqn:Hv; [|discriminate].
  cbn in Hacc. injection Hacc as <-.
  apply processAndRankResults_elem_of, vssResults_elem_of in Hin
    as (row & d & Hin & -> & Hle).
  eauto 10.
Qed.

(** On a chunk both paths report, the accelerated score is a function of
    the exact score [c], and not [c] itself: it is [1 - 2 (1 - c)^2], cut
    off at zero. *)
Lemma paths_scores db q options accelerated r1 r2 :
  unitVec q -> unitEmbeddings db q -> indexConsistent db q -> uniqueIds db ->
  acceleratedSearch db q options = Some accelerated ->
  r1 ∈ accelerated -> r2 ∈ fallbackSearch db q options ->
  r_chunk_id r1 = r_chunk_id r2 ->
  similarity r1
  = Rmax 0 (1 - 2 * ((1 - similarity r2) * (1 - similarity r2)))
  /\ minSimilarityOf options <= similarity r2.
Proof.
  intros Hq Hunit Hidx Huniq Hacc H1 H2 Hid.
  destruct (acceleratedSearch_elem_of _ _ _ _ _ Hacc H1)
    as (k & rows & row1 & d & Hv & Hin1 & -> & _).
  destruct (fallbackSearch_elem_of _ _ _ _ H2)
    as (row2 & e2 & Hin2 & -> & Hle).
  destruct (Hidx _ _ _ _ Hv Hin1) as (e1 & Hst & ->).
  cbn in Hid. destruct (Huniq _ _ _ _ Hst Hin2 Hid) as [-> He].
  injection He as ->. cbn. split; [|done].
  destruct (Hunit _ _ Hin2) as [Hu Hl]. by apply vssSimilarity_squaredDistance.
Qed.

(** ** Evaluation on the sample stores *)

Lemma processAndRankResults_singleton r lim dedupe :
  (1 <= lim)%Z -> processAndRankResults [r] lim dedupe = [r].
Proof.
  intros Hl. unfold processAndRankResults.
  rewrite slice_0_take by lia.
  replace (if dedupe then _ else _) with [r]; [|by destruct dedupe].
  apply take_ge. cbn. lia.
Qed.

Lemma processAndRankResults_nil lim dedupe :
  processAndRankResults [] lim dedupe = [].
Proof.
  unfold processAndRankResults.
  replace (if dedupe then _ else _) with (@nil SearchResult);
    [|by destruct dedupe].
  unfold slice. by rewrite drop_nil, take_nil.
Qed.

Lemma unitVec_query10 : unitVec query10.
Proof. unfold unitVec, query10. cbn. lra. Qed.

Lemma unitVec_opposite : unitVec [-1; 0].
Proof. unfold unitVec. cbn. lra. Qed.

Lemma cosine_opposite : cosineSimilarity query10 [-1; 0] = -1.
Proof.
  rewrite cosineSimilarity_unit;
    [cbn; lra|done|apply unitVec_query10|apply unitVec_opposite].
Qed.

Lemma cosine_aligned : cosineSimilarity query10 [1; 0] = 1.
Proof.
  rewrite cosineSimilarity_unit;
    [cbn; lra|done|apply unitVec_query10|apply unitVec_query10].
Qed.

Lemma unitVec_slanted : unitVec [3 / 5; 4 / 5].
Proof. unfold unitVec. cbn. lra. Qed.

Lemma cosine_slanted : cosineSimilarity query10 [3 / 5; 4 / 5] = 3 / 5.
Proof.
  rewrite cosineSimilarity_unit;
    [cbn; lra|done|apply unitVec_query10|apply unitVec_slanted].
Qed.

Lemma squaredDistance_aligned : squaredDistance query10 [1; 0] = 0.
Proof. unfold query10. cbn. lra. Qed.

Lemma squaredDistance_slanted : squaredDistance query10 [3 / 5; 4 / 5] = 4 / 5.
Proof. unfold query10. cbn. lra. Qed.

Lemma vssSimilarity_0 : vssSimilarity 0 = 1.
Proof. unfold vssSimilarity. rewrite Rmax_right; lra. Qed.

Lemma vssSimilarity_slanted : vssSimilarity (4 / 5) = 17 / 25.
Proof. unfold vssSimilarity. rewrite Rmax_right; lra. Qed.

Section SampleStores.
Variables (e : Vec) (d : R) (index : Vec -> Z -> option (list (SearchRow * R))).
Let db := mkDatabase [(note1, Some e)] index.

Lemma sample_unitEmbeddings q :
  unitVec e -> length e = length q -> unitEmbeddings db q.
Proof.
  intros He Hl row e' [Heq|Hin%elem_of_nil]%elem_of_cons; [|done].
  by injection Heq as -> ->.
Qed.

Lemma sample_uniqueIds : uniqueIds db.
Proof.
  intros r1 e1 r2 e2 [H1|H1%elem_of_nil]%elem_of_cons
    [H2|H2%elem_of_nil]%elem_of_cons _; try done.
  injection H1 as -> ->. by injection H2 as -> ->.
Qed.

Lemma sample_indexConsistent q :
  (forall q' k, index q' k = Some [(note1, d)]) ->
  d = squaredDistance q e -> indexConsistent db q.
Proof.
  intros Hidx Hd k rows row d' Hv Hin. cbn in Hv. rewrite Hidx in Hv.
  injection Hv as <-.
  apply elem_of_cons in Hin as [Heq|Hin%elem_of_nil]; [|done].
  injection Heq as -> ->. exists e. split; [by left|done].
Qed.

Lemma sample_fallbackSearch q options :
  (1 <= limitOf options)%Z ->
  fallbackSearch db q options =
    if decide (minSimilarityOf options <= cosineSimilarity q e)
    then [toResult note1 (cosineSimilarity q e)] else [].
Proof.
  intros Hl. unfold fallbackSearch, embeddedRows. cbn.
  rewrite decide_True by (by eexists). cbn.
  case_decide.
  - by apply processAndRankResults_singleton.
  - apply processAndRankResults_nil.
Qed.

Lemma sample_acceleratedSearch q options :
  (forall q' k, index q' k = Some [(note1, d)]) ->
  (1 <= limitOf options)%Z ->
  minSimilarityOf options <= vssSimilarity d ->
  acceleratedSearch db q options = Some [toResult note1 (vssSimilarity d)].
Proof.
  intros Hidx Hl Hm. unfold acceleratedSearch. cbn. rewrite Hidx. cbn.
  unfold vssResults. cbn. rewrite decide_True by done.
  by rewrite processAndRankResults_singleton.
Qed.
End SampleStores.

(** ** C2: the two paths *)

(** C2, evaluated where it fails.  The store holds one chunk whose unit
    embedding (3/5, 4/5) has the cosine similarity 3/5 to the unit query
    (1, 0); the index reports the squared distance 4/5 of the two.  With
    the threshold 1/2 both paths report the chunk: the exact path with
    the score 3/5, the accelerated path, and with it [search], with the
    score 17/25, since it squares the reported number once more.  The
    formula is the one for the distance itself, on which it gives 3/5. *)
Theorem paths_disagree_on_squared_distance :
  unitVec query10 /\ unitEmbeddings slantedDb query10
  /\ indexConsistent slantedDb query10 /\ uniqueIds slantedDb
  /\ acceleratedSearch slantedDb query10 halfScore
     = Some [toResult note1 (17 / 25)]
  /\ search true (Some query10) slantedDb halfScore = [toResult note1 (17 / 25)]
  /\ fallbackSearch slantedDb query10 halfScore = [toResult note1 (3 / 5)]
  /\ ~ pathsAgree (1 / 20) slantedDb query10 halfScore
  /\ vssSimilarity (euclideanDistance query10 [3 / 5; 4 / 5]) = 3 / 5.
Proof.
  assert (Hacc : acceleratedSearch slantedDb query10 halfScore
                 = Some [toResult note1 (17 / 25)]).
  { rewrite <- vssSimilarity_slanted.
    apply sample_acceleratedSearch; [done|done|].
    rewrite vssSimilarity_slanted. cbn. lra. }
  assert (Hfb : fallbackSearch slantedDb query10 halfScore
                = [toResult note1 (3 / 5)]).
  { unfold slantedDb. rewrite sample_fallbackSearch by done.
    rewrite cosine_slanted. rewrite decide_True; [done|cbn; lra]. }
  split; [apply unitVec_query10|].
  split; [apply sample_unitEmbeddings; [apply unitVec_slanted|done]|].
  split; [apply (sample_indexConsistent _ (4 / 5)); [done|];
          symmetry; apply squaredDistance_slanted|].
  split; [apply sample_uniqueIds|].
  split; [exact Hacc|]. split; [|split; [exact Hfb|split]].
  - unfold search. cbn [negb]. rewrite Hacc.
    rewrite decide_False; [done|].
    unfold embeddedRows, slantedDb, len. cbn.
    rewrite decide_True by (by eexists). done.
  - intros Hagree.
    specialize (Hagree [toResult note1 (17 / 25)] (toResult note1 (17 / 25))
                       (toResult note1 (3 / 5)) Hacc).
    rewrite Hfb in Hagree.
    specialize (Hagree ltac:(by left) ltac:(by left) eq_refl).
    cbn in Hagree. replace (17 / 25 - 3 / 5) with (2 / 25) in Hagree by lra.
    rewrite Rabs_right in Hagree; lra.
  - rewrite vssSimilarity_distance, cosine_slanted;
      [|done|apply unitVec_query10|apply unitVec_slanted].
    rewrite Rmax_right; lra.
Qed.

(** ** C5: the extreme thresholds *)

Lemma fallbackLoop_above_1 q rows m : 1 < m -> fallbackLoop q rows m = [].
Proof.
  intros Hm. induction rows as [|[row [e|]] rest IH]; cbn; [done| |done].
  pose proof (cosineSimilarity_le_1 q e). rewrite decide_False by lra. done.
Qed.

Lemma vssResults_above_1 rows m : 1 < m -> vssResults rows m = [].
Proof.
  intros Hm. unfold vssResults. induction rows as [|[row d] rest IH]; [done|].
  pose proof (vssSimilarity_le_1 d). rewrite map_cons.
  rewrite filter_cons_False by (cbn; lra). exact IH.
Qed.

Lemma search_above_1 available queryEmbedding db options :
  1 < minSimilarityOf options ->
  search available queryEmbedding db options = [].
Proof.
  intros Hm. unfold search. destruct available; [|done]. cbn.
  destruct queryEmbedding as [q|]; [|done]. case_decide; [done|].
  unfold acceleratedSearch, fallbackSearch.
  destruct (vss_search db q _) as [rows|]; cbn.
  - rewrite vssResults_above_1 by done. apply processAndRankResults_nil.
  - rewrite fallbackLoop_above_1 by done. apply processAndRankResults_nil.
Qed.

Lemma fallbackLoop_length q db m :
  length (fallbackLoop q (embeddedRows db) m)
  = length (filter (scoresAtLeast q m) (chunkRows db)).
Proof.
  unfold embeddedRows.
  induction (chunkRows db) as [|[row [e|]] rest IH]; [done| |].
  - rewrite filter_cons_True by (by eexists). cbn [fallbackLoop].
    unfold scoresAtLeast at 1. cbn [snd].
    case_decide.
    + rewrite filter_cons_True by done. cbn. by rewrite IH.
    + rewrite filter_cons_False by done. exact IH.
  - rewrite filter_cons_False by (intros [? ?]; done).
    rewrite filter_cons_False by (intros []). exact IH.
Qed.

(** C5, as amended.  With [minSimilarity = 1.1] a search returns nothing.
    With [minSimilarity = 0], [dedupeBySource = false] and a limit that is
    not negative, the exact path returns the embedded chunks whose cosine
    similarity to the query is not negative: as many of them as there are
    up to the limit, the best ones, in descending order of similarity. *)
Theorem search_extreme_thresholds
  (db : Database) (q : Vec) (lim : Z)
  (available : bool) (queryEmbedding : option Vec)
  (anyLimit : option Z) (anyDedupe : option bool) :
  (0 <= lim)%Z ->
  search available queryEmbedding db
         (mkSearchOptions anyLimit (Some (11 / 10)) anyDedupe) = []
  /\ let results := fallbackSearch db q (allUpTo lim) in
     descending results
     /\ len results
        = Z.min lim (len (filter (scoresAtLeast q 0) (chunkRows db)))
     /\ (forall r, r ∈ results ->
           exists row e, (row, Some e) ∈ chunkRows db
             /\ r = toResult row (cosineSimilarity q e)
             /\ 0 <= cosineSimilarity q e)
     /\ (forall row e, (row, Some e) ∈ chunkRows db ->
           0 <= cosineSimilarity q e ->
           toResult row (cosineSimilarity q e) ∈ results
           \/ forall r, r ∈ results -> cosineSimilarity q e <= similarity r).
Proof.
  intros Hlim. split; [apply search_above_1; cbn; lra|].
  cbn zeta.
  change (fallbackSearch db q (allUpTo lim))
    with (slice (sortBy bySimilarityDesc
                   (fallbackLoop q (embeddedRows db) 0)) 0 lim).
  rewrite slice_0_take by done.
  set (L := fallbackLoop q (embeddedRows db) 0).
  pose proof (sortBy_descending L) as Hsorted.
  rewrite <- (take_drop (Z.to_nat lim) (sortBy bySimilarityDesc L)) in Hsorted.
  split; [by apply StronglySorted_app_1_l in Hsorted|].
  split.
  { unfold len. rewrite length_take, sortBy_length. subst L.
    rewrite fallbackLoop_length. lia. }
  split.
  { intros r Hr%subseteq_take%sortBy_elem_of.
    apply fallbackLoop_elem_of in Hr as (row & e & Hin & -> & Hle).
    exists row, e. by rewrite <- embeddedRows_elem_of. }
  intros row e Hin Hle.
  assert (Hc : toResult row (cosineSimilarity q e) ∈ L).
  { apply fallbackLoop_elem_of. exists row, e.
    by rewrite embeddedRows_elem_of. }
  apply (sortBy_elem_of bySimilarityDesc) in Hc.
  rewrite <- (take_drop (Z.to_nat lim)) in Hc.
  apply elem_of_app in Hc as [Hc|Hc]; [by left|right].
  intros r Hr.
  exact (StronglySorted_app_1_elem_of _ _ _ _ _ Hsorted Hr Hc).
Qed.

Lemma search_extreme_thresholds_witness :
  (0 <= 10)%Z
  /\ search true (Some query10) alignedDb
            (mkSearchOptions None (Some (11 / 10)) None) = []
  /\ let results := fallbackSearch alignedDb query10 (allUpTo 10) in
     descending results
     /\ len results
        = Z.min 10 (len (filter (scoresAtLeast query10 0) (chunkRows alignedDb)))
     /\ (forall r, r ∈ results ->
           exists row e, (row, Some e) ∈ chunkRows alignedDb
             /\ r = toResult row (cosineSimilarity query10 e)
             /\ 0 <= cosineSimilarity query10 e)
     /\ (forall row e, (row, Some e) ∈ chunkRows alignedDb ->
           0 <= cosineSimilarity query10 e ->
           toResult row (cosineSimilarity query10 e) ∈ results
           \/ forall r, r ∈ results ->
                cosineSimilarity query10 e <= similarity r).
Proof.
  split; [lia|].
  apply (search_extreme_thresholds alignedDb query10 10 true (Some query10)
           None None).
  lia.
Defined.

(** C5, as stated, fails.  The store holds one chunk with an embedding,
    opposite to the query; with [minSimilarity = 0], [dedupeBySource =
    false] and [limit = 10] the search returns nothing. *)
Lemma search_zero_threshold_drops_negative :
  search true (Some query10) oppositeDbNoIndex (allUpTo 10) = []
  /\ len (embeddedRows oppositeDbNoIndex) = 1%Z
  /\ ~ everyEmbeddedUpTo oppositeDbNoIndex 10
         (search true (Some query10) oppositeDbNoIndex (allUpTo 10)).
Proof.
  assert (Hrows : len (embeddedRows oppositeDbNoIndex) = 1%Z).
  { unfold embeddedRows. cbn. by rewrite decide_True by (by eexists). }
  assert (Hs : search true (Some query10) oppositeDbNoIndex (allUpTo 10) = []).
  { unfold search. cbn [negb]. rewrite Hrows.
    rewrite decide_False by done. cbn.
    unfold oppositeDbNoIndex. rewrite sample_fallbackSearch by done.
    rewrite cosine_opposite. rewrite decide_False; [done|cbn; lra]. }
  split; [exact Hs|]. split; [exact Hrows|].
  rewrite Hs. intros [Hlen _]. rewrite Hrows in Hlen.
  unfold len in Hlen. cbn in Hlen. lia.
Qed.

(** ** The exact path as the path of a search without index *)

Lemma search_without_index (db : Database) (q : Vec) (options : SearchOptions) :
  (forall k, vss_search db q k = None) ->
  search true (Some q) db options = fallbackSearch db q options.
Proof.
  intros Hno. unfold search. cbn [negb]. case_decide as Hcount.
  - unfold fallbackSearch.
    destruct (embeddedRows db); [|unfold len in Hcount; cbn in Hcount; lia].
    cbn. by rewrite processAndRankResults_nil.
  - unfold acceleratedSearch. by rewrite Hno.
Qed.

(** ** Normalised vectors are unit vectors *)

Lemma sumSquares_scale (v : Vec) (k : R) :
  sumSquares (map (fun x => x / k) v) = sumSquares v / (k * k).
Proof.
  destruct (Req_dec_T k 0) as [->|Hk].
  - induction v as [|x v IH]; cbn.
    + unfold Rdiv. by rewrite Rmult_0_l.
    + rewrite IH. unfold Rdiv. rewrite !Rmult_0_r, !Rinv_0. lra.
  - induction v as [|x v IH]; cbn; [field; done|]. rewrite IH. by field.
Qed.

(** In exact arithmetic, what [normalize] leaves in the array is a unit
    vector, unless the vector was zero. *)
Lemma normalize_unitVec (v : Vec) :
  0 < sumSquares v -> unitVec (normalize v).
Proof.
  intros Hpos. apply unitVec_sumSquares. unfold normalize.
  rewrite sumSquaresFrom_acc, Rplus_0_l.
  pose proof (sqrt_lt_R0 _ Hpos) as Hn.
  destruct (Rlt_dec 0 (sqrt (sumSquares v))) as [_|Hno]; [|done].
  rewrite sumSquares_scale, sqrt_sqrt by lra. field. lra.
Qed.

(** ** The exact score at its edges *)




(** ** One result for each source *)

Lemma Map_get_Some k m v : Map_get k m = Some v -> (k, v) ∈ m.
Proof.
  induction m as [|[k' v'] r IH]; cbn; [done|].
  case_decide as Hk.
  - intros [= <-]. subst. left.
  - intros H. right. by apply IH.
Qed.

Lemma Map_get_elem_of k m v :
  NoDup (map fst m) -> (k, v) ∈ m -> Map_get k m = Some v.
Proof.
  induction m as [|[k' v'] r IH]; cbn; intros Hnd Hin.
  - by apply elem_of_nil in Hin.
  - apply NoDup_cons in Hnd as [Hk' Hnd].
    apply elem_of_cons in Hin as [Heq|Hin].
    + injection Heq as <- <-. by rewrite decide_True.
    + case_decide as Hk; [|by apply IH]. subst k'.
      exfalso. apply Hk'. apply list_elem_of_fmap. by exists (k, v).
Qed.

Lemma Map_get_set_eq k v m : Map_get k (Map_set k v m) = Some v.
Proof.
  induction m as [|[k' v'] r IH]; cbn.
  - by rewrite decide_True.
  - case_decide as Hk; cbn.
    + by rewrite decide_True.
    + by rewrite decide_False.
Qed.

Lemma Map_get_set_ne k k' v m :
  k' <> k -> Map_get k' (Map_set k v m) = Map_get k' m.
Proof.
  intros Hne. induction m as [|[k1 v1] r IH]; cbn.
  - by rewrite decide_False.
  - case_decide as Hk; cbn.
    + subst k1. by rewrite !decide_False.
    + case_decide; [done|exact IH].
Qed.

Lemma Map_set_keys k v m :
  map fst (Map_set k v m)
  = if decide (k ∈ map fst m) then map fst m else map fst m ++ [k].
Proof.
  induction m as [|[k' v'] r IH]; cbn.
  - rewrite decide_False; [done|apply not_elem_of_nil].
  - destruct (decide (k = k')) as [<-|Hk]; cbn.
    + rewrite decide_True; [done|left].
    + rewrite IH. destruct (decide (k ∈ map fst r)) as [Hin|Hin].
      * rewrite decide_True; [done|by right].
      * rewrite decide_False; [done|].
        rewrite not_elem_of_cons. done.
Qed.

Lemma Map_set_NoDup k v m :
  NoDup (map fst m) -> NoDup (map fst (Map_set k v m)).
Proof.
  intros Hnd. rewrite Map_set_keys. case_decide as Hin; [done|].
  apply NoDup_app. split; [done|]. split.
  - intros x Hx Hxk. apply list_elem_of_singleton in Hxk. by subst.
  - apply NoDup_singleton.
Qed.

(** The map the loop has built from the results [seen]: one entry for
    each source seen, and it holds a result of that source that no other
    result seen of that source beats. *)
Definition bestOf (seen : list SearchResult) (m : list (str * SearchResult))
  : Prop :=
  NoDup (map fst m)
  /\ (forall k v, Map_get k m = Some v ->
        r_source_id v = k /\ v ∈ seen
        /\ forall r, r ∈ seen -> r_source_id r = k ->
                     similarity r <= similarity v)
  /\ (forall r, r ∈ seen -> is_Some (Map_get (r_source_id r) m)).

Lemma keepBest_bestOf seen m r :
  bestOf seen m -> bestOf (seen ++ [r]) (keepBest m r).
Proof.
  intros (Hnd & Hbest & Hall). unfold keepBest.
  destruct (Map_get (r_source_id r) m) as [existing|] eqn:Hget.
  - destruct (Hbest _ _ Hget) as (Hsrc & Hseen & Hmax).
    case_decide as Hlt.
    + split; [by apply Map_set_NoDup|]. split.
      * intros k v Hv. destruct (decide (k = r_source_id r)) as [->|Hne].
        -- rewrite Map_get_set_eq in Hv. injection Hv as <-.
           split; [done|]. split; [apply elem_of_app; right; by left|].
           intros r' [Hr'|Hr']%elem_of_app Hsame.
           ++ specialize (Hmax r' Hr' Hsame). lra.
           ++ apply list_elem_of_singleton in Hr' as ->. lra.
        -- rewrite Map_get_set_ne in Hv by done.
           destruct (Hbest _ _ Hv) as (Hs & Hin & Hm).
           split; [done|]. split; [apply elem_of_app; by left|].
           intros r' [Hr'|Hr']%elem_of_app Hsame; [by apply Hm|].
           apply list_elem_of_singleton in Hr' as ->. done.
      * intros r' [Hr'|Hr']%elem_of_app.
        -- destruct (decide (r_source_id r' = r_source_id r)) as [->|Hne].
           ++ rewrite Map_get_set_eq. by eexists.
           ++ rewrite Map_get_set_ne by done. by apply Hall.
        -- apply list_elem_of_singleton in Hr' as ->.
           rewrite Map_get_set_eq. by eexists.
    + split; [done|]. split.
      * intros k v Hv. destruct (Hbest _ _ Hv) as (Hs & Hin & Hm).
        split; [done|]. split; [apply elem_of_app; by left|].
        intros r' [Hr'|Hr']%elem_of_app Hsame; [by apply Hm|].
        apply list_elem_of_singleton in Hr' as ->.
        rewrite <- Hsame, Hget in Hv. injection Hv as <-. lra.
      * intros r' [Hr'|Hr']%elem_of_app; [by apply Hall|].
        apply list_elem_of_singleton in Hr' as ->. rewrite Hget. by eexists.
  - assert (Hfresh : forall r', r' ∈ seen -> r_source_id r' <> r_source_id r).
    { intros r' Hr' Hsame. destruct (Hall r' Hr') as [v Hv].
      rewrite Hsame in Hv. congruence. }
    split; [by apply Map_set_NoDup|]. split.
    + intros k v Hv. destruct (decide (k = r_source_id r)) as [->|Hne].
      * rewrite Map_get_set_eq in Hv. injection Hv as <-.
        split; [done|]. split; [apply elem_of_app; right; by left|].
        intros r' [Hr'|Hr']%elem_of_app Hsame.
        -- by apply Hfresh in Hr'.
        -- apply list_elem_of_singleton in Hr' as ->. lra.
      * rewrite Map_get_set_ne in Hv by done.
        destruct (Hbest _ _ Hv) as (Hs & Hin & Hm).
        split; [done|]. split; [apply elem_of_app; by left|].
        intros r' [Hr'|Hr']%elem_of_app Hsame; [by apply Hm|].
        apply list_elem_of_singleton in Hr' as ->. done.
    + intros r' [Hr'|Hr']%elem_of_app.
      * rewrite Map_get_set_ne by (by apply Hfresh). by apply Hall.
      * apply list_elem_of_singleton in Hr' as ->.
        rewrite Map_get_set_eq. by eexists.
Qed.

Lemma fold_keepBest_bestOf rs seen m :
  bestOf seen m -> bestOf (seen ++ rs) (fold_left keepBest rs m).
Proof.
  revert seen m. induction rs as [|r rs IH]; intros seen m Hinv; cbn.
  - by rewrite app_nil_r.
  - rewrite (cons_middle r seen rs), app_assoc.
    apply IH. by apply keepBest_bestOf.
Qed.

Lemma bestOf_values seen m :
  bestOf seen m -> map r_source_id (Map_values m) = map fst m.
Proof.
  intros (Hnd & Hbest & _). unfold Map_values.
  rewrite map_map. apply map_ext_in. intros [k v] Hin.
  apply list_elem_of_In, (Map_get_elem_of _ _ _ Hnd) in Hin.
  cbn. by destruct (Hbest _ _ Hin) as (Hsrc & _).
Qed.

Lemma descending_take (n : nat) (l : list SearchResult) :
  descending l -> descending (take n l).
Proof.
  unfold descending. intros Hl. revert n.
  induction Hl as [|x r Hr IH Hx]; intros [|n]; cbn; try constructor.
  - apply IH.
  - apply Forall_forall. intros y Hy%subseteq_take.
    by apply (proj1 (Forall_forall _ _) Hx).
Qed.

Lemma descending_take_drop (n : nat) (l : list SearchResult) x y :
  descending l -> x ∈ take n l -> y ∈ drop n l ->
  similarity y <= similarity x.
Proof.
  unfold descending. intros Hl. revert n.
  induction Hl as [|z r Hr IH Hz]; intros [|n]; cbn; intros Hx Hy.
  - by apply elem_of_nil in Hx.
  - by apply elem_of_nil in Hx.
  - by apply elem_of_nil in Hx.
  - apply elem_of_cons in Hx as [->|Hx]; [|by apply (IH n)].
    apply subseteq_drop in Hy. by apply (proj1 (Forall_forall _ _) Hz).
Qed.

(** Two results of one source and a result of another. *)
Definition threeResults : list SearchResult :=
  [ mkSearchResult 1 "kb-1" None None "text" "alpha" (1 / 2);
    mkSearchResult 2 "kb-1" None None "text" "beta" (9 / 10);
    mkSearchResult 3 "kb-2" None None "text" "gamma" (7 / 10) ].

(** X6.  With [dedupeBySource] set and a limit that is not negative,
    [processAndRankResults] returns at most [limit] results, in
    descending order of similarity, no two of the same source; each is
    one of the results given and no result given of the same source has
    a higher similarity; and a source is left out only when the limit is
    reached by results at least as similar as any result of that
    source. *)
Theorem processAndRankResults_best_per_source
  (results : list SearchResult) (limit : Z) :
  (0 <= limit)%Z ->
  let out := processAndRankResults results limit true in
  (len out <= limit)%Z
  /\ descending out
  /\ NoDup (map r_source_id out)
  /\ (forall r, r ∈ out ->
        r ∈ results
        /\ forall r', r' ∈ results -> r_source_id r' = r_source_id r ->
                      similarity r' <= similarity r)
  /\ (forall r, r ∈ results ->
        (exists best, best ∈ out /\ r_source_id best = r_source_id r)
        \/ (len out = limit
            /\ forall o, o ∈ out -> similarity r <= similarity o)).
Proof.
  intros Hlim out. unfold processAndRankResults in out.
  set (sorted := sortBy bySimilarityDesc results) in *.
  set (m := fold_left keepBest sorted []) in *.
  assert (Hinv : bestOf sorted m).
  { apply (fold_keepBest_bestOf sorted [] []).
    split; [constructor|]. split; [done|].
    intros r Hr. by apply elem_of_nil in Hr. }
  pose proof (bestOf_values _ _ Hinv) as Hkeys.
  destruct Hinv as (Hnd & Hbest & Hall).
  set (ranked := sortBy bySimilarityDesc (Map_values m)) in *.
  assert (Hout : out = take (Z.to_nat limit) ranked)
    by (unfold out; by apply slice_0_take).
  assert (Hranked : descending ranked) by apply sortBy_descending.
  assert (Hmember : forall r, r ∈ ranked <-> Map_get (r_source_id r) m = Some r).
  { intros r. unfold ranked. rewrite sortBy_elem_of. unfold Map_values. split.
    - intros ([k v] & -> & Hin)%list_elem_of_fmap. cbn.
      apply (Map_get_elem_of _ _ _ Hnd) in Hin.
      by destruct (Hbest _ _ Hin) as (-> & _).
    - intros Hget%Map_get_Some. apply list_elem_of_fmap.
      by exists (r_source_id r, r). }
  rewrite Hout. split; [|split; [|split; [|split]]].
  - unfold len. rewrite length_take. lia.
  - by apply descending_take.
  - rewrite <- firstn_map. apply (sublist_NoDup _ (map r_source_id ranked)).
    + assert (Hp : map r_source_id ranked ≡ₚ map r_source_id (Map_values m))
        by apply Permutation_map, sortBy_Permutation.
      by rewrite Hp, Hkeys.
    + apply sublist_take.
  - intros r Hr%subseteq_take. apply Hmember in Hr.
    destruct (Hbest _ _ Hr) as (_ & Hin & Hmax).
    split; [by apply sortBy_elem_of in Hin|].
    intros r' Hr' Hsame. apply Hmax; [|done]. by apply sortBy_elem_of.
  - intros r Hr. destruct (Hall r) as [best Hget]; [by apply sortBy_elem_of|].
    destruct (Hbest _ _ Hget) as (Hsrc & _ & Hmax).
    assert (Hle : similarity r <= similarity best)
      by (apply Hmax; [by apply sortBy_elem_of|done]).
    assert (Hin : best ∈ ranked) by (apply Hmember; by rewrite Hsrc).
    rewrite <- (take_drop (Z.to_nat limit) ranked) in Hin.
    apply elem_of_app in Hin as [Hin|Hin]; [left; by exists best|].
    right. split.
    + unfold len. rewrite length_take.
      destruct (decide (Z.to_nat limit <= length ranked)%nat); [lia|].
      rewrite drop_ge in Hin by lia. by apply elem_of_nil in Hin.
    + intros o Ho.
      pose proof (descending_take_drop _ _ _ _ Hranked Ho Hin). lra.
Qed.

Lemma processAndRankResults_best_per_source_witness :
  (0 <= 1)%Z
  /\ let out := processAndRankResults threeResults 1 true in
     (len out <= 1)%Z
     /\ descending out
     /\ NoDup (map r_source_id out)
     /\ (forall r, r ∈ out ->
           r ∈ threeResults
           /\ forall r', r' ∈ threeResults -> r_source_id r' = r_source_id r ->
                         similarity r' <= similarity r)
     /\ (forall r, r ∈ threeResults ->
           (exists best, best ∈ out /\ r_source_id best = r_source_id r)
           \/ (len out = 1%Z
               /\ forall o, o ∈ out -> similarity r <= similarity o)).
Proof.
  split; [lia|].
  apply (processAndRankResults_best_per_source threeResults 1). lia.
Defined.

Lemma processAndRankResults_length l lim dedupe :
  (0 <= lim)%Z -> (len (processAndRankResults l lim dedupe) <= lim)%Z.
Proof.
  intros Hlim. unfold processAndRankResults.
  rewrite slice_0_take by done. unfold len. rewrite length_take. lia.
Qed.

Lemma processAndRankResults_descending l lim dedupe :
  (0 <= lim)%Z -> descending (processAndRankResults l lim dedupe).
Proof.
  intros Hlim. unfold processAndRankResults.
  rewrite slice_0_take by done. apply descending_take.
  destruct dedupe; apply sortBy_descending.
Qed.

Lemma processAndRankResults_NoDup l lim :
  (0 <= lim)%Z -> NoDup (map r_source_id (processAndRankResults l lim true)).
Proof.
  intros Hlim. unfold processAndRankResults.
  rewrite slice_0_take by done.
  set (sorted := sortBy bySimilarityDesc l).
  set (m := fold_left keepBest sorted []).
  assert (Hinv : bestOf sorted m).
  { apply (fold_keepBest_bestOf sorted [] []).
    split; [constructor|]. split; [done|].
    intros r Hr. by apply elem_of_nil in Hr. }
  pose proof (bestOf_values _ _ Hinv) as Hkeys.
  destruct Hinv as (Hnd & _).
  set (ranked := sortBy bySimilarityDesc (Map_values m)).
  rewrite <- firstn_map. apply (sublist_NoDup _ (map r_source_id ranked)).
  - assert (Hp : map r_source_id ranked ≡ₚ map r_source_id (Map_values m))
      by apply Permutation_map, sortBy_Permutation.
    by rewrite Hp, Hkeys.
  - apply sublist_take.
Qed.

(** X7.  Whatever the store and the index hold, with a limit that is not
    negative [search] returns at most [limit] results, in descending
    order of similarity, each with a similarity of at least
    [minSimilarity]; and unless [dedupeBySource] is switched off, no two
    of them belong to one source. *)
Theorem search_results_within (available : bool) (queryEmbedding : option Vec)
  (db : Database) (options : SearchOptions) :
  (0 <= limitOf options)%Z ->
  let results := search available queryEmbedding db options in
  (len results <= limitOf options)%Z
  /\ descending results
  /\ (forall r, r ∈ results -> minSimilarityOf options <= similarity r)
  /\ (dedupeOf options = true -> NoDup (map r_source_id results)).
Proof.
  intros Hlim. cbv zeta.
  set (P := fun results : list SearchResult =>
    (len results <= limitOf options)%Z
    /\ descending results
    /\ (forall r, r ∈ results -> minSimilarityOf options <= similarity r)
    /\ (dedupeOf options = true -> NoDup (map r_source_id results))).
  change (P (search available queryEmbedding db options)).
  assert (Hnil : P []).
  { split; [unfold len; cbn; lia|]. split; [constructor|].
    split; [|intros _; constructor].
    intros r Hr. by apply elem_of_nil in Hr. }
  assert (Hrank : forall l,
            (forall r, r ∈ l -> minSimilarityOf options <= similarity r) ->
            P (processAndRankResults l (limitOf options) (dedupeOf options))).
  { intros l Hl. split; [by apply processAndRankResults_length|].
    split; [by apply processAndRankResults_descending|]. split.
    - intros r Hr%processAndRankResults_elem_of. by apply Hl.
    - intros ->. by apply processAndRankResults_NoDup. }
  unfold search. destruct available; cbn [negb]; [|done].
  destruct queryEmbedding as [q|]; [|done].
  case_decide as Hcount; [done|].
  unfold acceleratedSearch, fallbackSearch.
  destruct (vss_search db q _) as [rows|]; cbn.
  - apply Hrank. by intros r (row & d & _ & -> & Hle)%vssResults_elem_of.
  - apply Hrank. by intros r (row & e & _ & -> & Hle)%fallbackLoop_elem_of.
Qed.

Lemma search_results_within_witness :
  (0 <= limitOf halfScore)%Z
  /\ let results := search true (Some query10) slantedDb halfScore in
     (len results <= limitOf halfScore)%Z
     /\ descending results
     /\ (forall r, r ∈ results -> minSimilarityOf halfScore <= similarity r)
     /\ (dedupeOf halfScore = true -> NoDup (map r_source_id results)).
Proof.
  split; [by vm_compute|].
  apply (search_results_within true (Some query10) slantedDb halfScore).
  by vm_compute.
Defined.

End Search.

(* ================================================================== *)
(** * The embedding client (src/kb/embeddings.ts) *)
(* ================================================================== *)

Module EmbeddingClient.

Import JS Effects Embeddings.
Local Open Scope Z_scope.

Definition DIMENSIONS : Z := 768.
Definition MAX_INPUT_LENGTH : Z := 8000.

(** An [Error]: its name and its message. *)
Record Error := mkError { e_name : str; e_message : str }.

(** What a request to the provider comes to: [fetch] rejects with an
    error; it resolves with a status that is not [ok]; it resolves with
    an [ok] status and a body that [res.json()] cannot read, a body whose
    [embedding] is missing or not an array, or a body with an array of
    numbers. *)
Inductive Response :=
| FetchRejected (err : Error)
| NotOk (status : Z) (statusText : str)
| BodyUnreadable (err : Error)
| BodyWithoutEmbedding
| BodyWithEmbedding (embedding : Vec).

(** The module state: the cache ([LRUCache] with [max: 1000], the entry
    used last first) and the flag [ollamaAvailable]; with them, what the
    client has done so far: the prompts it posted and the delays it
    waited, oldest first. *)
Record Client := mkClient {
  cache : list (str * Vec);
  ollamaAvailable : bool;
  sent : list str;
  slept : list Z
}.

Definition setCache (m : list (str * Vec)) (c : Client) : Client :=
  mkClient m (ollamaAvailable c) (sent c) (slept c).

(** ** The cache *)

Definition CACHE_MAX : nat := 1000.

Fixpoint assoc (key : str) (m : list (str * Vec)) : option Vec :=
  match m with
  | [] => None
  | (k, v) :: r => if decide (k = key) then Some v else assoc key r
  end.

Definition removeKey (key : str) (m : list (str * Vec)) : list (str * Vec) :=
  List.filter (fun kv => negb (bool_decide (fst kv = key))) m.

(** [cache.get(key)]: a hit makes the entry the most recent one. *)
Definition cache_get (key : str) : M Client (option Vec) :=
  fun c => match assoc key (cache c) with
           | Some v =>
               (Return (Some v), setCache ((key, v) :: removeKey key (cache c)) c)
           | None => (Return None, c)
           end.

(** [cache.set(key, value)]: the entry becomes the most recent one, and
    the entries past the thousandth are dropped. *)
Definition cache_set (key : str) (value : Vec) : M Client unit :=
  fun c =>
    (Return tt,
     setCache (take CACHE_MAX ((key, value) :: removeKey key (cache c))) c).

(** ** The client *)

(** [isAvailable()], [setAvailable(available)], [getEmbeddingDimensions()] *)
Definition isAvailable : M Client bool :=
  fun c => (Return (ollamaAvailable c), c).

Definition setAvailable (available : bool) : M Client unit :=
  fun c => (Return tt, mkClient (cache c) available (sent c) (slept c)).

Definition getEmbeddingDimensions : Z := DIMENSIONS.

(** [sleep(ms)] *)
Definition sleep (ms : Z) : M Client unit :=
  fun c => (Return tt, mkClient (cache c) (ollamaAvailable c) (sent c)
                                (slept c ++ [ms])).

(** The words of [/ECONNRESET|ETIMEDOUT|ECONNREFUSED|fetch|network|timeout/i],
    in lower case. *)
Definition TRANSIENT_WORDS : list str :=
  [ list_ascii_of_string "econnreset";
    list_ascii_of_string "etimedout";
    list_ascii_of_string "econnrefused";
    list_ascii_of_string "fetch";
    list_ascii_of_string "network";
    list_ascii_of_string "timeout" ].

(** [isTransientError(err)] *)
Definition isTransientError (err : Error) : bool :=
  existsb (fun word => includes word (toLowerCase (e_message err)))
          TRANSIENT_WORDS
  || bool_decide (e_name err = "AbortError").

(** The statements of the [try] block after the request: the numbers of
    the embedding, or the error thrown. *)
Definition readResponse (response : Response) : Vec + Error :=
  match response with
  | FetchRejected err => inr err
  | NotOk status statusText =>
      inr (mkError "Error"
             ("Ollama error: " ++ toString status ++ " " ++ statusText))
  | BodyUnreadable err => inr err
  | BodyWithoutEmbedding =>
      inr (mkError "Error" "Invalid embedding response from Ollama")
  | BodyWithEmbedding embedding => inl embedding
  end.

Section Provider.

(** The provider: its response to a prompt, given the prompts posted
    before. *)
Variable provider : list str -> str -> Response.

(** [fetch(`${config.OLLAMA_URL}/api/embeddings`, ...)] with the prompt. *)
Definition post (prompt : str) : M Client Response :=
  fun c => (Return (provider (sent c) prompt),
            mkClient (cache c) (ollamaAvailable c) (sent c ++ [prompt])
                     (slept c)).

(** The loop [for (let attempt = 0; attempt < 3; attempt++)], over the
    values [attempt] takes. *)
Fixpoint attemptLoop (attempts : list Z) (cacheKey truncated : str)
  : M Client (option Vec) :=
  match attempts with
  | [] => mret None
  | attempt :: rest =>
      response ← post truncated;
      match readResponse response with
      | inl data =>
          let embedding := normalize data in
          cache_set cacheKey embedding ;;
          mret (Some embedding)
      | inr err =>
          let isLastAttempt := attempt =? 2 in
          let isTransient := isTransientError err in
          if negb isLastAttempt && isTransient then
            sleep (nth (Z.to_nat attempt) [1000; 2000; 4000] 0) ;;
            attemptLoop rest cacheKey truncated
          else if isLastAttempt then mret None
          else attemptLoop rest cacheKey truncated
      end
  end.

(** [generateEmbedding(text)] *)
Definition generateEmbedding (text : str) : M Client (option Vec) :=
  let cacheKey := slice text 0 500 in
  cached ← cache_get cacheKey;
  match cached with
  | Some embedding => mret (Some embedding)
  | None =>
      available ← isAvailable;
      if negb available then mret None
      else attemptLoop [0; 1; 2] cacheKey (slice text 0 MAX_INPUT_LENGTH)
  end.

(** ** Vocabulary of the properties *)

(** The numbers of the first answer that is not an error. *)
Fixpoint firstEmbedding (answers : list (Vec + Error)) : option Vec :=
  match answers with
  | [] => None
  | inl data :: _ => Some data
  | inr _ :: rest => firstEmbedding rest
  end.

(** The number of answers up to the first that is not an error. *)
Fixpoint answersRead (answers : list (Vec + Error)) : nat :=
  match answers with
  | [] => 0
  | inl _ :: _ => 1
  | inr _ :: rest => S (answersRead rest)
  end.

(** The delays waited during a run that reads [answers]: the delay of an
    attempt is waited when the answer to the attempt is a transient
    error; [delays] holds the delays of the attempts that have a
    successor, in turn. *)
Fixpoint waits (delays : list Z) (answers : list (Vec + Error)) : list Z :=
  match delays, answers with
  | delay :: delays', inr err :: rest =>
      (if isTransientError err then [delay] else []) ++ waits delays' rest
  | _, _ => []
  end.

(** ** Properties *)

Lemma assoc_cons_eq key v m : assoc key ((key, v) :: m) = Some v.
Proof. cbn. by rewrite decide_True. Qed.

(** A cached entry is returned without a request, whether the provider
    is marked available or not. *)
Lemma generateEmbedding_hit (text : str) (v : Vec) (c : Client) :
  assoc (slice text 0 500) (cache c) = Some v ->
  exists c',
    generateEmbedding text c = (Return (Some v), c')
    /\ assoc (slice text 0 500) (cache c') = Some v
    /\ sent c' = sent c /\ slept c' = slept c
    /\ ollamaAvailable c' = ollamaAvailable c.
Proof.
  intros Hhit. unfold generateEmbedding, mbind, M_bind, bind, cache_get.
  rewrite Hhit. eexists. split; [reflexivity|]. cbn.
  by rewrite decide_True.
Qed.

(** The answers to [n] requests with the same prompt, posted one after
    the other. *)
Fixpoint answersFor (n : nat) (history : list str) (prompt : str)
  : list (Vec + Error) :=
  match n with
  | O => []
  | S n' =>
      readResponse (provider history prompt)
      :: answersFor n' (history ++ [prompt]) prompt
  end.

(** The delay before the attempt that follows [attempt]. *)
Definition delayAfter (attempt : Z) : Z :=
  nth (Z.to_nat attempt) [1000; 2000; 4000] 0.

(** What a run of the loop comes to, given the answers it can read and
    the delays of its attempts. *)
Definition loopResult (answers : list (Vec + Error)) (delays : list Z)
  (cacheKey prompt : str) (c : Client)
  (run : outcome (option Vec) * Client) : Prop :=
  exists c',
    run = (Return (normalize <$> firstEmbedding answers), c')
    /\ sent c' = sent c ++ repeat prompt (answersRead answers)
    /\ slept c' = slept c ++ waits delays answers
    /\ ollamaAvailable c' = ollamaAvailable c
    /\ (forall data, firstEmbedding answers = Some data ->
          assoc cacheKey (cache c') = Some (normalize data))
    /\ (firstEmbedding answers = None -> cache c' = cache c).

Lemma attemptLoop_cons (attempt : Z) (rest : list Z) (cacheKey prompt : str)
  (c : Client) :
  attemptLoop (attempt :: rest) cacheKey prompt c
  = let c1 := mkClient (cache c) (ollamaAvailable c) (sent c ++ [prompt])
                       (slept c) in
    match readResponse (provider (sent c) prompt) with
    | inl data =>
        (Return (Some (normalize data)),
         setCache (take CACHE_MAX ((cacheKey, normalize data)
                                   :: removeKey cacheKey (cache c))) c1)
    | inr err =>
        if negb (attempt =? 2) && isTransientError err
        then attemptLoop rest cacheKey prompt
               (mkClient (cache c) (ollamaAvailable c) (sent c ++ [prompt])
                         (slept c ++ [delayAfter attempt]))
        else if attempt =? 2 then (Return None, c1)
        else attemptLoop rest cacheKey prompt c1
    end.
Proof.
  cbn [attemptLoop]. unfold mbind, M_bind, bind, post.
  destruct (readResponse (provider (sent c) prompt)) as [data|err]; [done|].
  destruct (negb (attempt =? 2) && isTransientError err); [done|].
  by destruct (attempt =? 2).
Qed.

Lemma attemptLoop_result (init : list Z) (cacheKey prompt : str) :
  2 ∉ init ->
  forall c,
    loopResult (answersFor (S (length init)) (sent c) prompt)
               (map delayAfter init) cacheKey prompt c
               (attemptLoop (init ++ [2]) cacheKey prompt c).
Proof.
  induction init as [|attempt init IH]; intros Hno c.
  - change ([] ++ [2]) with [2]. rewrite attemptLoop_cons.
    cbn [length answersFor map].
    destruct (readResponse (provider (sent c) prompt)) as [data|err].
    + eexists. split; [reflexivity|]. cbn. rewrite app_nil_r.
      rewrite decide_True by done.
      repeat split; try done. by intros ? [= <-].
    + change (2 =? 2) with true. cbn [negb andb].
      eexists. split; [reflexivity|]. cbn. rewrite app_nil_r.
      repeat split; try done.
  - apply not_elem_of_cons in Hno as [Hne Hno].
    change ((attempt :: init) ++ [2]) with (attempt :: (init ++ [2])).
    rewrite attemptLoop_cons.
    change (answersFor (S (length (attempt :: init))) (sent c) prompt)
      with (readResponse (provider (sent c) prompt)
            :: answersFor (S (length init)) (sent c ++ [prompt]) prompt).
    destruct (readResponse (provider (sent c) prompt)) as [data|err].
    + eexists. split; [reflexivity|]. cbn. rewrite app_nil_r.
      rewrite decide_True by done.
      repeat split; try done. by intros ? [= <-].
    + rewrite (proj2 (Z.eqb_neq attempt 2)) by done. cbn [negb andb].
      assert (Hwaits : forall d ds rest,
                waits (d :: ds) (inr err :: rest)
                = (if isTransientError err then [d] else []) ++ waits ds rest)
        by done.
      destruct (isTransientError err).
      * destruct (IH Hno (mkClient (cache c) (ollamaAvailable c)
                            (sent c ++ [prompt])
                            (slept c ++ [delayAfter attempt])))
          as (c' & -> & Hsent & Hslept & Havail & Hhit & Hmiss).
        exists c'.
        cbn [sent slept cache ollamaAvailable firstEmbedding answersRead
             repeat map] in *.
        split; [done|]. split; [by rewrite Hsent, <- app_assoc|].
        split; [by rewrite Hwaits, Hslept, <- app_assoc|]. done.
      * destruct (IH Hno (mkClient (cache c) (ollamaAvailable c)
                            (sent c ++ [prompt]) (slept c)))
          as (c' & -> & Hsent & Hslept & Havail & Hhit & Hmiss).
        exists c'.
        cbn [sent slept cache ollamaAvailable firstEmbedding answersRead
             repeat map] in *.
        split; [done|]. split; [by rewrite Hsent, <- app_assoc|].
        split; [by rewrite Hwaits, Hslept|]. done.
Qed.

(** The retry loop on a provider that is marked available, for a text
    that is not cached. *)
Lemma generateEmbedding_miss (text : str) (c : Client) :
  assoc (slice text 0 500) (cache c) = None ->
  ollamaAvailable c = true ->
  loopResult (answersFor 3 (sent c) (slice text 0 MAX_INPUT_LENGTH))
             [1000; 2000] (slice text 0 500) (slice text 0 MAX_INPUT_LENGTH) c
             (generateEmbedding text c).
Proof.
  intros Hmiss Havail.
  unfold generateEmbedding, mbind, M_bind, bind, cache_get, isAvailable.
  rewrite Hmiss, Havail. cbn [negb].
  apply (attemptLoop_result [0; 1]).
  rewrite !not_elem_of_cons. repeat split; try done. apply not_elem_of_nil.
Qed.

(** X9.  [generateEmbedding] on a text that is not cached, with the
    provider marked available and no other call in between: it posts the
    first 8000 characters of the text, up to three times, until an answer
    holds an embedding.  Every error is followed by another attempt,
    transient or not; what [isTransientError] decides is the wait: one
    second after a first answer that is a transient error, two seconds
    after a second one, no wait after an error that is not transient and
    none after the third answer.  The result is the normalised embedding
    of the first answer that holds one, which is then cached under the
    first 500 characters of the text, and [null] when the three answers
    are errors, in which case the cache is as before. *)
Theorem generateEmbedding_retries (text : str) (c : Client) :
  assoc (slice text 0 500) (cache c) = None ->
  ollamaAvailable c = true ->
  let prompt := slice text 0 MAX_INPUT_LENGTH in
  let answers :=
    [ readResponse (provider (sent c) prompt);
      readResponse (provider (sent c ++ [prompt]) prompt);
      readResponse (provider (sent c ++ [prompt; prompt]) prompt) ] in
  exists c',
    generateEmbedding text c
    = (Return (normalize <$> firstEmbedding answers), c')
    /\ sent c' = sent c ++ repeat prompt (answersRead answers)
    /\ slept c' = slept c ++ waits [1000; 2000] answers
    /\ ollamaAvailable c' = true
    /\ (forall data, firstEmbedding answers = Some data ->
          assoc (slice text 0 500) (cache c') = Some (normalize data))
    /\ (firstEmbedding answers = None -> cache c' = cache c).
Proof.
  intros Hmiss Havail prompt answers.
  destruct (generateEmbedding_miss text c Hmiss Havail)
    as (c' & Hrun & Hsent & Hslept & Hav & Hhit & Hkeep).
  cbn [answersFor] in *. rewrite <- app_assoc in *. cbn [app] in *.
  exists c'. rewrite Hav, Havail. done.
Qed.

(** X10.  The cache of [generateEmbedding] is keyed by the first 500
    characters of the text: once a call has returned an embedding for a
    text, a call for any text with the same first 500 characters returns
    that same embedding, without a request to the provider and without a
    wait, whether the provider is marked available or not. *)
Theorem generateEmbedding_shared_prefix (text text' : str) (e : Vec)
  (c c1 : Client) :
  generateEmbedding text c = (Return (Some e), c1) ->
  slice text' 0 500 = slice text 0 500 ->
  exists c2,
    generateEmbedding text' c1 = (Return (Some e), c2)
    /\ sent c2 = sent c1 /\ slept c2 = slept c1.
Proof.
  intros Hrun Hprefix.
  assert (Hcached : assoc (slice text 0 500) (cache c1) = Some e).
  { destruct (assoc (slice text 0 500) (cache c)) as [v|] eqn:Hc.
    - destruct (generateEmbedding_hit text v c Hc) as (c' & Hrun' & Hhit & _).
      rewrite Hrun in Hrun'. by injection Hrun' as -> ->.
    - destruct (ollamaAvailable c) eqn:Hav.
      + destruct (generateEmbedding_miss text c Hc Hav)
          as (c' & Hrun' & _ & _ & _ & Hhit & _).
        destruct (firstEmbedding _) as [data|].
        * rewrite Hrun in Hrun'. injection Hrun' as -> ->. by apply Hhit.
        * rewrite Hrun in Hrun'. done.
      + unfold generateEmbedding, mbind, M_bind, bind, cache_get, isAvailable
          in Hrun.
        rewrite Hc, Hav in Hrun. done. }
  rewrite <- Hprefix in Hcached.
  destruct (generateEmbedding_hit text' e c1 Hcached) as (c2 & Hrun2 & _ & Hs & Hsl & _).
  by exists c2.
Qed.

End Provider.

(** ** Sample runs *)

(** A provider that is down; a provider whose first answer is lost on
    the network; and a client that has cached the embedding of a text of
    500 characters. *)
Definition downProvider (history : list str) (prompt : str) : Response :=
  NotOk 503 "Service Unavailable".

Definition flakyProvider (history : list str) (prompt : str) : Response :=
  match history with
  | [] => FetchRejected (mkError "TypeError" "fetch failed")
  | _ => BodyWithEmbedding [3%R; 4%R]
  end.

Definition freshClient : Client := mkClient [] true [] [].

Definition cachedClient : Client :=
  mkClient [(repeat "a"%char 500, [1%R; 0%R])] false [] [].

Lemma generateEmbedding_retries_witness :
  assoc (slice "note" 0 500) (cache freshClient) = None
  /\ ollamaAvailable freshClient = true
  /\ let prompt := slice "note" 0 MAX_INPUT_LENGTH in
     let answers :=
       [ readResponse (flakyProvider (sent freshClient) prompt);
         readResponse (flakyProvider (sent freshClient ++ [prompt]) prompt);
         readResponse (flakyProvider (sent freshClient ++ [prompt; prompt]) prompt) ] in
     exists c',
       generateEmbedding flakyProvider "note" freshClient
       = (Return (normalize <$> firstEmbedding answers), c')
       /\ sent c' = sent freshClient ++ repeat prompt (answersRead answers)
       /\ slept c' = slept freshClient ++ waits [1000; 2000] answers
       /\ ollamaAvailable c' = true
       /\ (forall data, firstEmbedding answers = Some data ->
             assoc (slice "note" 0 500) (cache c') = Some (normalize data))
       /\ (firstEmbedding answers = None -> cache c' = cache freshClient).
Proof.
  split; [reflexivity|]. split; [reflexivity|].
  apply (generateEmbedding_retries flakyProvider "note" freshClient);
    reflexivity.
Defined.

(** The runs of the two providers: one request lost and one wait of a
    second before the answer; three requests and no wait, since the error
    is not transient. *)
Example generateEmbedding_waits :
  (let c' := snd (generateEmbedding flakyProvider "note" freshClient) in
   sent c' = [list_ascii_of_string "note"; list_ascii_of_string "note"]
   /\ slept c' = [1000])
  /\ (let c' := snd (generateEmbedding downProvider "note" freshClient) in
      fst (generateEmbedding downProvider "note" freshClient) = Return None
      /\ sent c' = repeat (list_ascii_of_string "note") 3
      /\ slept c' = []).
Proof. repeat split; reflexivity. Qed.

Lemma generateEmbedding_shared_prefix_witness :
  let textA := repeat "a"%char 500 ++ "x" in
  let textB := repeat "a"%char 500 ++ "y" in
  let c1 := snd (generateEmbedding downProvider textA cachedClient) in
  generateEmbedding downProvider textA cachedClient
  = (Return (Some [1%R; 0%R]), c1)
  /\ slice textB 0 500 = slice textA 0 500
  /\ exists c2,
       generateEmbedding downProvider textB c1 = (Return (Some [1%R; 0%R]), c2)
       /\ sent c2 = sent c1 /\ slept c2 = slept c1.
Proof.
  intros textA textB c1.
  assert (Hrun : generateEmbedding downProvider textA cachedClient
                 = (Return (Some [1%R; 0%R]), c1)) by reflexivity.
  assert (Hprefix : slice textB 0 500 = slice textA 0 500) by reflexivity.
  split; [exact Hrun|]. split; [exact Hprefix|].
  exact (generateEmbedding_shared_prefix downProvider textA textB _ _ _
           Hrun Hprefix).
Defined.

End EmbeddingClient.

(* ================================================================== *)
(** * Content quality (src/kb/quality.ts) *)
(* ================================================================== *)

Module Quality.

Import JS.
Local Open Scope Z_scope.

(** [SourceType] of src/kb/types.ts. *)
Inductive SourceType := article | video | pdf | text | tweet | other.

#[global] Instance SourceType_eq_dec : EqDecision SourceType.
Proof. solve_decision. Defined.

(** The string a [SourceType] is at run time. *)
Definition sourceTypeName (t : SourceType) : str :=
  match t with
  | article => "article" | video => "video" | pdf => "pdf"
  | text => "text" | tweet => "tweet" | other => "other"
  end.

Record ValidationResult := mkValidationResult {
  valid : bool;
  reason : option str;
  truncated : option bool
}.

Definition ERROR_PATTERNS : list str :=
  [ list_ascii_of_string "access denied";
    list_ascii_of_string "captcha";
    list_ascii_of_string "please enable javascript";
    list_ascii_of_string "cloudflare";
    list_ascii_of_string "404";
    list_ascii_of_string "not found";
    list_ascii_of_string "sign in";
    list_ascii_of_string "blocked";
    list_ascii_of_string "rate limit";
    list_ascii_of_string "subscribe to continue";
    list_ascii_of_string "login required";
    list_ascii_of_string "authorization required";
    list_ascii_of_string "page not found" ].

Definition MIN_LENGTHS (t : SourceType) : Z :=
  match t with
  | article => 500
  | video => 100
  | pdf => 100
  | text => 20
  | tweet => 20
  | other => 100
  end.

Definition MAX_CONTENT_LENGTH : Z := 200000.

(** [MIN_LENGTHS[type] || 100] *)
Definition minLengthOf (t : SourceType) : Z :=
  if MIN_LENGTHS t =? 0 then 100 else MIN_LENGTHS t.

(** [ERROR_PATTERNS.filter((p) => lower.includes(p))] *)
Definition errorSignals (content : str) : list str :=
  let lower := toLowerCase content in
  List.filter (fun p => includes p lower) ERROR_PATTERNS.

Definition LF : ascii := ascii_of_nat 10.

(** The non-blank lines of the content. *)
Definition nonBlankLines (content : str) : list str :=
  List.filter (fun l => 0 <? len (trim l)) (split LF content).

(** [validateContent(content, type)].  The test [ratio < 0.15] on the
    quotient of two line counts is the test [100 * long < 15 * lines]. *)
Definition validateContent (content : str) (type : SourceType)
  : ValidationResult :=
  let minLength := minLengthOf type in
  if len content <? minLength then
    mkValidationResult false
      (Some ("Content too short for " ++ sourceTypeName type ++ " (< "
             ++ toString minLength ++ " chars)"))
      None
  else
    let signals := errorSignals content in
    if 2 <=? len signals then
      mkValidationResult false
        (Some ("Detected error page: " ++ join ", " (slice signals 0 2)))
        None
    else
      let lowQuality :=
        if bool_decide (type <> tweet) && bool_decide (type <> text) then
          let lines := nonBlankLines content in
          if 10 <? len lines then
            let longLines := List.filter (fun l => 80 <? len l) lines in
            100 * len longLines <? 15 * len lines
          else false
        else false in
      if lowQuality then
        mkValidationResult false
          (Some (list_ascii_of_string
             "Low quality content (mostly short lines, likely navigation)"))
          None
      else
        mkValidationResult true None
          (Some (MAX_CONTENT_LENGTH <? len content)).

(** [detectErrorPage(content)] *)
Definition detectErrorPage (content : str) : bool :=
  2 <=? len (errorSignals content).

(** [truncateContent(content)] *)
Definition truncateContent (content : str) : str :=
  if len content <=? MAX_CONTENT_LENGTH then content
  else slice content 0 MAX_CONTENT_LENGTH.

(** ** Vocabulary of the properties *)

(** The phrase [p] occurs in [content] as a substring, letter case
    ignored. *)
Definition occursIgnoringCase (p content : str) : Prop :=
  exists pre mid post,
    content = pre ++ mid ++ post /\ toLowerCase mid = toLowerCase p.

(** The result is a rejection for the error-page reason. *)
Definition rejectedAsErrorPage (r : ValidationResult) : Prop :=
  valid r = false
  /\ exists detail, reason r = Some ("Detected error page: " ++ detail).

(** At least two distinct phrases of the list occur in the content. *)
Definition twoSignals (content : str) : Prop :=
  exists p1 p2, p1 ∈ ERROR_PATTERNS /\ p2 ∈ ERROR_PATTERNS /\ p1 <> p2
    /\ occursIgnoringCase p1 content /\ occursIgnoringCase p2 content.

(** A content of type [text] that names two signals, in capitals. *)
Definition blockedPage : str := "Access Denied: please solve the CAPTCHA".

(** ** Properties *)

Lemma minLengthOf_MIN_LENGTHS (t : SourceType) : minLengthOf t = MIN_LENGTHS t.
Proof. by destruct t. Qed.

Lemma ERROR_PATTERNS_NoDup : NoDup ERROR_PATTERNS.
Proof. apply (bool_decide_unpack (NoDup ERROR_PATTERNS)). by vm_compute. Qed.

Lemma ERROR_PATTERNS_lower (p : str) :
  p ∈ ERROR_PATTERNS -> toLowerCase p = p.
Proof.
  revert p. apply Forall_forall.
  unfold ERROR_PATTERNS. repeat (constructor; [reflexivity|]). constructor.
Qed.

(** The signals found are the phrases of the list that occur in the
    content, letter case ignored. *)
Lemma errorSignals_elem_of (p content : str) :
  p ∈ errorSignals content <->
  p ∈ ERROR_PATTERNS /\ occursIgnoringCase p content.
Proof.
  unfold errorSignals. rewrite list_elem_of_In, List.filter_In.
  rewrite <- list_elem_of_In, includes_spec.
  split; intros [Hp Hocc]; (split; [done|]).
  - destruct Hocc as (pre & post & Hl).
    apply toLowerCase_split in Hl as (pre' & mid & post' & -> & Hm).
    exists pre', mid, post'. by rewrite (ERROR_PATTERNS_lower p).
  - destruct Hocc as (pre & mid & post & -> & Hm).
    rewrite (ERROR_PATTERNS_lower p) in Hm by done.
    exists (toLowerCase pre), (toLowerCase post).
    by rewrite !toLowerCase_app, Hm.
Qed.

Lemma errorSignals_NoDup (content : str) : NoDup (errorSignals content).
Proof.
  unfold errorSignals.
  apply NoDup_ListNoDup, List.NoDup_filter, NoDup_ListNoDup,
    ERROR_PATTERNS_NoDup.
Qed.

Lemma two_distinct_members {A} (l : list A) :
  NoDup l ->
  (2 <= len l <-> exists x y, x ∈ l /\ y ∈ l /\ x <> y).
Proof.
  intros Hnd. unfold len. split.
  - destruct l as [|x [|y l]]; cbn; try lia. intros _.
    exists x, y. split; [by left|]. split; [right; by left|].
    apply NoDup_cons in Hnd as [Hx _]. intros ->. apply Hx. by left.
  - intros (x & y & Hx & Hy & Hne).
    destruct l as [|a [|b l]]; cbn; try lia.
    + by apply elem_of_nil in Hx.
    + apply list_elem_of_singleton in Hx, Hy. congruence.
Qed.

Lemma twoSignals_length (content : str) :
  2 <= len (errorSignals content) <-> twoSignals content.
Proof.
  rewrite two_distinct_members by apply errorSignals_NoDup.
  unfold twoSignals. split.
  - intros (x & y & [Hx Hxo]%errorSignals_elem_of
                  & [Hy Hyo]%errorSignals_elem_of & Hne).
    by exists x, y.
  - intros (x & y & Hx & Hy & Hne & Hxo & Hyo).
    exists x, y. by rewrite !errorSignals_elem_of.
Qed.

Lemma validateContent_rejectedAsErrorPage (content : str) (type : SourceType) :
  MIN_LENGTHS type <= len content ->
  rejectedAsErrorPage (validateContent content type)
  <-> 2 <= len (errorSignals content).
Proof.
  intros Hmin. unfold validateContent. rewrite minLengthOf_MIN_LENGTHS.
  rewrite (proj2 (Z.ltb_ge _ _)) by done.
  destruct (Z.leb_spec 2 (len (errorSignals content))) as [Hge|Hlt].
  - split; [done|]. intros _. split; [done|]. by eexists.
  - split; [|lia]. intros [Hv [detail Hr]].
    destruct (_ && _); [destruct (_ <? _); [destruct (_ <? _)|]|];
      cbn in Hv, Hr; done.
Qed.

(** C8.  For a content that meets the minimum length of its source type,
    [validateContent] rejects with the error-page reason exactly when at
    least two distinct phrases of [ERROR_PATTERNS] occur in the content,
    letter case ignored; in particular a content in which only one phrase
    occurs is not rejected for that reason. *)
Theorem validateContent_error_page (content : str) (type : SourceType) :
  MIN_LENGTHS type <= len content ->
  (rejectedAsErrorPage (validateContent content type) <-> twoSignals content)
  /\ (forall p,
        occursIgnoringCase p content ->
        (forall p', p' ∈ ERROR_PATTERNS -> occursIgnoringCase p' content ->
                    p' = p) ->
        ~ rejectedAsErrorPage (validateContent content type)).
Proof.
  intros Hmin.
  assert (Hiff : rejectedAsErrorPage (validateContent content type)
                 <-> twoSignals content)
    by (by rewrite validateContent_rejectedAsErrorPage, twoSignals_length).
  split; [exact Hiff|].
  intros p _ Honly Hrej. apply Hiff in Hrej.
  destruct Hrej as (p1 & p2 & H1 & H2 & Hne & Ho1 & Ho2).
  apply Hne. by rewrite (Honly p1), (Honly p2).
Qed.

Lemma validateContent_error_page_witness :
  MIN_LENGTHS text <= len blockedPage
  /\ (rejectedAsErrorPage (validateContent blockedPage text)
      <-> twoSignals blockedPage)
  /\ (forall p,
        occursIgnoringCase p blockedPage ->
        (forall p', p' ∈ ERROR_PATTERNS -> occursIgnoringCase p' blockedPage ->
                    p' = p) ->
        ~ rejectedAsErrorPage (validateContent blockedPage text)).
Proof.
  split; [by vm_compute|].
  apply (validateContent_error_page blockedPage text). by vm_compute.
Defined.

(** The sample page is rejected, a page with one signal is not, and one
    occurrence of "page not found" counts as two signals. *)
Example validateContent_samples :
  validateContent blockedPage text
  = mkValidationResult false
      (Some (list_ascii_of_string "Detected error page: access denied, captcha"))
      None
  /\ validateContent "Please Sign In to your account" text
     = mkValidationResult true None (Some false)
  /\ validateContent "Page Not Found ............" text
     = mkValidationResult false
         (Some (list_ascii_of_string
                  "Detected error page: not found, page not found"))
         None.
Proof. repeat split; by vm_compute. Qed.

(** ** Truncation, detection and the other checks *)

(** X15.  [truncateContent] returns the first [MAX_CONTENT_LENGTH]
    characters of the content, and the whole content when it has no
    more: the result has [min(length, 200000)] characters, truncating
    twice is truncating once, and for a content that [validateContent]
    accepts the flag [truncated] is set exactly when [truncateContent]
    shortens it. *)
Theorem truncateContent_prefix (content : str) :
  truncateContent content = take (Z.to_nat MAX_CONTENT_LENGTH) content
  /\ len (truncateContent content) = Z.min (len content) MAX_CONTENT_LENGTH
  /\ truncateContent (truncateContent content) = truncateContent content
  /\ forall type,
       valid (validateContent content type) = true ->
       truncated (validateContent content type)
       = Some (negb (bool_decide (truncateContent content = content))).
Proof.
  assert (Htake : forall s,
            truncateContent s = take (Z.to_nat MAX_CONTENT_LENGTH) s).
  { intros s. unfold truncateContent.
    destruct (Z.leb_spec (len s) MAX_CONTENT_LENGTH) as [Hle|Hgt].
    - rewrite take_ge; [done|]. unfold len in Hle. lia.
    - unfold slice, clampIndex.
      replace (0 <? 0) with false by reflexivity.
      replace (MAX_CONTENT_LENGTH <? 0) with false by reflexivity.
      rewrite (Z.min_l 0), (Z.min_l MAX_CONTENT_LENGTH) by (unfold len in *; lia).
      change (Z.to_nat 0) with 0%nat. by rewrite drop_0, Z.sub_0_r. }
  assert (Hlen : len (truncateContent content)
                 = Z.min (len content) MAX_CONTENT_LENGTH).
  { rewrite Htake. unfold len. rewrite length_take.
    unfold MAX_CONTENT_LENGTH. lia. }
  split; [apply Htake|]. split; [exact Hlen|]. split.
  - rewrite (Htake (truncateContent content)), Htake.
    rewrite take_take, Nat.min_id. reflexivity.
  - intros type. unfold validateContent.
    destruct (len content <? minLengthOf type); [done|].
    destruct (2 <=? len (errorSignals content)); [done|].
    match goal with |- context [if ?b then mkValidationResult false _ _ else _] =>
      destruct b end; [done|].
    intros _. cbn. f_equal.
    destruct (Z.ltb_spec MAX_CONTENT_LENGTH (len content)) as [Hgt|Hle].
    + rewrite bool_decide_eq_false_2; [done|]. intros Heq.
      rewrite Heq in Hlen. lia.
    + rewrite bool_decide_eq_true_2; [done|].
      unfold truncateContent. by rewrite (proj2 (Z.leb_le _ _)).
Qed.

(** X16.  [detectErrorPage] answers [true] exactly when at least two
    distinct phrases of [ERROR_PATTERNS] occur in the content, letter
    case ignored; for a content that meets the minimum length of its
    source type this is exactly when [validateContent] rejects it as an
    error page. *)
Theorem detectErrorPage_two_signals (content : str) :
  (detectErrorPage content = true <-> twoSignals content)
  /\ forall type,
       MIN_LENGTHS type <= len content ->
       (detectErrorPage content = true
        <-> rejectedAsErrorPage (validateContent content type)).
Proof.
  assert (Hdetect : detectErrorPage content = true
                    <-> 2 <= len (errorSignals content))
    by (unfold detectErrorPage; apply Z.leb_le).
  split.
  - by rewrite Hdetect, twoSignals_length.
  - intros type Hmin.
    by rewrite Hdetect, validateContent_rejectedAsErrorPage.
Qed.

(** X17.  For the source types [text] and [tweet], [validateContent]
    accepts a content exactly when it has at least 20 characters and
    fewer than two error signals occur in it: the line structure of the
    content is not examined. *)
Theorem validateContent_text_tweet (content : str) (type : SourceType) :
  type = text \/ type = tweet ->
  (valid (validateContent content type) = true
   <-> 20 <= len content /\ ~ twoSignals content).
Proof.
  intros Htype. rewrite <- twoSignals_length. unfold validateContent.
  assert (Hmin : minLengthOf type = 20) by (by destruct Htype as [-> | ->]).
  assert (Hskip : bool_decide (type <> tweet) && bool_decide (type <> text)
                  = false) by (by destruct Htype as [-> | ->]).
  rewrite Hmin, Hskip.
  destruct (Z.ltb_spec (len content) 20) as [Hshort|Hlong]; cbn [valid].
  - split; [done|lia].
  - destruct (Z.leb_spec 2 (len (errorSignals content))) as [Hsig|Hsig];
      cbn [valid].
    + split; [done|]. intros [_ Hno]. lia.
    + split; [|done]. intros _. lia.
Qed.

Lemma validateContent_text_tweet_witness :
  (text = text \/ text = tweet)
  /\ (valid (validateContent "git stash -u keeps untracked files" text) = true
      <-> 20 <= len "git stash -u keeps untracked files"
          /\ ~ twoSignals "git stash -u keeps untracked files").
Proof.
  split; [by left|].
  apply (validateContent_text_tweet "git stash -u keeps untracked files" text).
  by left.
Defined.

Lemma validateContent_truncated (content : str) (type : SourceType) :
  valid (validateContent content type) = true ->
  truncated (validateContent content type)
  = Some (MAX_CONTENT_LENGTH <? len content).
Proof.
  unfold validateContent.
  repeat match goal with
         | |- context [if ?b then mkValidationResult false _ _ else _] =>
             destruct b; cbn [valid truncated]; [done|]
         end.
  done.
Qed.

(** X18.  Whatever the source type, a content that [validateContent]
    accepts has at least the minimum length of its type and fewer than
    two error signals, and the result then carries the flag [truncated]
    and no reason; a content it rejects comes with a reason, and a
    content shorter than the minimum is rejected whatever it holds. *)
Theorem validateContent_outcome (content : str) (type : SourceType) :
  (valid (validateContent content type) = true ->
     MIN_LENGTHS type <= len content /\ ~ twoSignals content
     /\ reason (validateContent content type) = None
     /\ truncated (validateContent content type)
        = Some (MAX_CONTENT_LENGTH <? len content))
  /\ (valid (validateContent content type) = false ->
        is_Some (reason (validateContent content type)))
  /\ (len content < MIN_LENGTHS type ->
        valid (validateContent content type) = false).
Proof.
  rewrite <- twoSignals_length. unfold validateContent.
  rewrite minLengthOf_MIN_LENGTHS.
  destruct (Z.ltb_spec (len content) (MIN_LENGTHS type)) as [Hshort|Hlong].
  { cbn [valid reason]. split; [done|]. split; [by eexists|done]. }
  destruct (Z.leb_spec 2 (len (errorSignals content))) as [Hsig|Hsig].
  { cbn [valid reason]. split; [done|]. split; [by eexists|lia]. }
  match goal with |- context [if ?b then mkValidationResult false _ _ else _] =>
    destruct b end; cbn [valid reason truncated].
  - split; [done|]. split; [by eexists|lia].
  - split; [intros _; repeat split; [done|lia]|]. split; [done|lia].
Qed.

End Quality.

(* ================================================================== *)
(** * Text chunking (src/kb/chunking.ts) *)
(* ================================================================== *)

Module Chunking.

Import JS.
Local Open Scope Z_scope.

(** [ChunkOptions]: every field may be left out. *)
Record ChunkOptions := mkChunkOptions {
  chunkSize : option Z;
  overlap : option Z;
  minChunk : option Z
}.

Definition chunkSizeOf (o : ChunkOptions) : Z := default 800 (chunkSize o).
Definition overlapOf (o : ChunkOptions) : Z := default 200 (overlap o).
Definition minChunkOf (o : ChunkOptions) : Z := default 100 (minChunk o).

(** The class [[.!?]]. *)
Definition is_terminal (c : ascii) : bool :=
  let n := nat_of_ascii c in
  (Nat.eqb n 46 || Nat.eqb n 33 || Nat.eqb n 63)%bool.

(** [SENTENCE_BOUNDARY.exec(window)] for [/(?<=[.!?])\s+/]: the matcher
    tries the start positions from the left; at a position it needs a
    terminal just before (the look-behind sees the window only) and
    consumes the longest run of white space.  The result is
    [(match.index, match[0].length)]. *)
Fixpoint execSentenceFrom (before : option ascii) (index : nat) (w : str)
  : option (nat * nat) :=
  match w with
  | [] => None
  | c :: r =>
      if match before with Some b => is_terminal b | None => false end
         && is_space c
      then Some (index, length (takeWhile is_space w))
      else execSentenceFrom (Some c) (S index) r
  end.

Definition SENTENCE_BOUNDARY_exec (window : str) : option (nat * nat) :=
  execSentenceFrom None 0 window.

(** [/\s\S*$/.exec(window)]: the leftmost position that holds a white
    space followed by nothing but non-blank characters up to the end of
    the window.  The result is [match.index]. *)
Fixpoint execWordFrom (index : nat) (w : str) : option nat :=
  match w with
  | [] => None
  | c :: r =>
      if is_space c && forallb (fun x => negb (is_space x)) r
      then Some index
      else execWordFrom (S index) r
  end.

Definition wordBoundary_exec (window : str) : option nat :=
  execWordFrom 0 window.

(** The window searched for a breaking point around the tentative end
    [stop]. *)
Definition windowStart (position stop ov : Z) : Z := Z.max position (stop - ov).
Definition windowEnd (text : str) (stop ov : Z) : Z :=
  Z.min (stop + ov) (len text).
Definition windowOf (text : str) (position stop ov : Z) : str :=
  slice text (windowStart position stop ov) (windowEnd text stop ov).

(** The value of [end] when the chunk is sliced: one pass through the
    body of the [while] loop, up to the slice. *)
Definition chunkEnd (text : str) (size ov : Z) (position : Z) : Z :=
  let stop := Z.min (position + size) (len text) in
  if stop <? len text then
    let window := windowOf text position stop ov in
    match SENTENCE_BOUNDARY_exec window with
    | Some (index, length) =>
        windowStart position stop ov + Z.of_nat index + Z.of_nat length
    | None =>
        match wordBoundary_exec window with
        | Some index => windowStart position stop ov + Z.of_nat index + 1
        | None => stop
        end
    end
  else stop.

(** The [while] loop.  It need not end (a [chunkSize] of zero never moves
    the position), so it runs on fuel: [None] when the fuel is spent. *)
Fixpoint chunkLoop (fuel : nat) (text : str) (size ov minc : Z)
  (chunks : list str) (position : Z) : option (list str * Z) :=
  if position <? len text then
    match fuel with
    | O => None
    | S fuel' =>
        let stop := chunkEnd text size ov position in
        let chunk := trim (slice text position stop) in
        let chunks' :=
          if minc <=? len chunk then chunks ++ [chunk] else chunks in
        chunkLoop fuel' text size ov minc chunks' stop
    end
  else Some (chunks, position).

(** [chunks[chunks.length - 1] += suffix] *)
Fixpoint appendToLast (chunks : list str) (suffix : str) : list str :=
  match chunks with
  | [] => []
  | [c] => [c ++ suffix]
  | c :: r => c :: appendToLast r suffix
  end.

(** [chunkText(text, options)], with the fuel of its loop. *)
Definition chunkText_fuel (fuel : nat) (text : str) (options : ChunkOptions)
  : option (list str) :=
  let minc := minChunkOf options in
  '(chunks, position) ←
    chunkLoop fuel text (chunkSizeOf options) (overlapOf options) minc [] 0;
  let lastEnd := position in
  if (lastEnd <? len text) && (len text - lastEnd <? minc) then
    let remainder := trim (sliceFrom text lastEnd) in
    if (0 <? len remainder) && (0 <? len chunks)
    then Some (appendToLast chunks (" " ++ remainder))
    else Some chunks
  else Some chunks.

(** [chunkText(text, options)] with one unit of fuel for each character:
    enough whenever [chunkSize] is positive (see [chunkText_fuel_enough]). *)
Definition chunkText (text : str) (options : ChunkOptions) : option (list str) :=
  chunkText_fuel (length text) text options.

(** [countTokens(text)] = [Math.ceil(text.length / 4)] *)
Definition countTokens (text : str) : Z := (len text + 3) / 4.

(** ** Vocabulary of the properties *)

(** Position [j] of the window holds a white space. *)
Definition spaceAt (w : str) (j : nat) : Prop :=
  exists c, w !! j = Some c /\ is_space c = true.

(** A sentence-terminal boundary of the window: position [i] holds a
    white space and position [i - 1] a sentence-ending punctuation. *)
Definition boundaryAt (w : str) (i : nat) : Prop :=
  spaceAt w i
  /\ exists j p, i = S j /\ w !! j = Some p /\ is_terminal p = true.

Definition firstBoundary (w : str) (i : nat) : Prop :=
  boundaryAt w i /\ forall j, (j < i)%nat -> ~ boundaryAt w j.

Definition lastBoundary (w : str) (i : nat) : Prop :=
  boundaryAt w i /\ forall j, (i < j)%nat -> ~ boundaryAt w j.

Definition lastSpace (w : str) (j : nat) : Prop :=
  spaceAt w j /\ forall k, (j < k)%nat -> ~ spaceAt w k.

(** The character the look-behind sees at position [j], when the window
    is matched with [before] in front of it. *)
Definition prevChar (before : option ascii) (w : str) (j : nat) : option ascii :=
  match j with
  | O => before
  | S j' => w !! j'
  end.

Definition boundaryWith (before : option ascii) (w : str) (j : nat) : Prop :=
  spaceAt w j /\ exists p, prevChar before w j = Some p /\ is_terminal p = true.

(** The length of the run of white space that starts at position [i]. *)
Definition spaceRun (w : str) (i : nat) : nat :=
  length (takeWhile is_space (drop i w)).

(** C7 as stated: when the tentative end is before the end of the text
    and the window has a sentence-terminal boundary, the cut is after the
    last one. *)
Definition cutsAtLastBoundary (text : str) (size ov position : Z) : Prop :=
  position + size < len text ->
  forall i, lastBoundary (windowOf text position (position + size) ov) i ->
    chunkEnd text size ov position
    = windowStart position (position + size) ov + Z.of_nat i
      + Z.of_nat (spaceRun (windowOf text position (position + size) ov) i).

(** The characters of a text that are not white space. *)
Definition nonBlank (s : str) : str :=
  List.filter (fun c => negb (is_space c)) s.

(** The chunks, read one after the other, cover the text without gap:
    white space apart, the characters of the text are found in order in
    the chunks (characters that neighbours repeat may come in between). *)
Definition coversText (chunks : list str) (text : str) : Prop :=
  sublist (nonBlank text) (nonBlank (concat chunks)).

(** C3 as stated, for a run that returns [chunks]. *)
Definition coversWithMinimum (text : str) (options : ChunkOptions)
  (chunks : list str) : Prop :=
  coversText chunks text
  /\ Forall (fun c => minChunkOf options <= len c) chunks.

(** The trimmed segments that reach the minimum size. *)
Definition keepChunks (minc : Z) (segments : list str) : list str :=
  List.filter (fun c => minc <=? len c) (map trim segments).

(** Sample options: chunks of 4 with a window of 4 on each side, and
    chunks of 6 with a window of 2. *)
Definition tiny (minc : Z) : ChunkOptions :=
  mkChunkOptions (Some 4) (Some 4) (Some minc).

Definition small (minc : Z) : ChunkOptions :=
  mkChunkOptions (Some 6) (Some 2) (Some minc).

Definition twoSentences : str := "a. b. cdefgh".


Definition threeWords : str := "hello world foo".

(** ** The two regular expressions *)

Lemma boundaryWith_None (w : str) (j : nat) :
  boundaryWith None w j <-> boundaryAt w j.
Proof.
  unfold boundaryWith, boundaryAt. split; intros [Hs H]; (split; [done|]).
  - destruct H as (p & Hp & Ht). destruct j as [|j]; [done|]. by exists j, p.
  - destruct H as (j' & p & -> & Hp & Ht). by exists p.
Qed.

Lemma boundaryWith_S before c r j :
  boundaryWith before (c :: r) (S j) <-> boundaryWith (Some c) r j.
Proof.
  unfold boundaryWith, spaceAt. cbn. by destruct j.
Qed.

Lemma boundaryWith_0 before c r :
  boundaryWith before (c :: r) 0
  <-> match before with Some b => is_terminal b | None => false end
      && is_space c = true.
Proof.
  unfold boundaryWith, spaceAt. cbn. rewrite andb_true_iff. split.
  - intros [(c' & [= <-] & Hc) (p & -> & Hp)]. done.
  - intros [Hb Hc]. split; [by exists c|].
    destruct before as [b|]; [by exists b|done].
Qed.

Lemma execSentenceFrom_Some before k w i n :
  execSentenceFrom before k w = Some (i, n) ->
  exists j, i = (k + j)%nat /\ boundaryWith before w j
    /\ (forall j', (j' < j)%nat -> ~ boundaryWith before w j')
    /\ n = spaceRun w j.
Proof.
  revert before k. induction w as [|c r IH]; intros before k; [done|].
  cbn [execSentenceFrom].
  destruct (_ && is_space c) eqn:Hcond.
  - intros [= <- <-]. exists 0%nat.
    split; [lia|]. split; [by apply boundaryWith_0|]. split; [lia|done].
  - intros (j & -> & Hb & Hmin & ->)%IH. exists (S j).
    split; [lia|]. split; [by apply boundaryWith_S|]. split; [|done].
    intros [|j'] Hlt.
    + rewrite boundaryWith_0, Hcond. done.
    + rewrite boundaryWith_S. apply Hmin. lia.
Qed.

Lemma execSentenceFrom_None before k w :
  execSentenceFrom before k w = None -> forall j, ~ boundaryWith before w j.
Proof.
  revert before k. induction w as [|c r IH]; intros before k.
  - intros _ j [(c & Hc & _) _]. done.
  - cbn [execSentenceFrom]. destruct (_ && is_space c) eqn:Hcond; [done|].
    intros Hn [|j].
    + rewrite boundaryWith_0, Hcond. done.
    + rewrite boundaryWith_S. by eapply IH.
Qed.

Lemma no_space_forallb (r : str) :
  forallb (fun x => negb (is_space x)) r = true <-> forall k, ~ spaceAt r k.
Proof.
  induction r as [|c r IH]; cbn.
  - split; [|done]. intros _ k (c & Hc & _). done.
  - rewrite andb_true_iff, IH, negb_true_iff. split.
    + intros [Hc Hr] [|k] (c' & Hl & Hs); cbn in Hl.
      * injection Hl as <-. congruence.
      * apply (Hr k). by exists c'.
    + intros H. split.
      * destruct (is_space c) eqn:Hc; [|done].
        exfalso. apply (H 0%nat). by exists c.
      * intros k (c' & Hl & Hs). apply (H (S k)). by exists c'.
Qed.

Lemma execWordFrom_Some k w i :
  execWordFrom k w = Some i ->
  exists j, i = (k + j)%nat /\ lastSpace w j.
Proof.
  revert k. induction w as [|c r IH]; intros k; [done|].
  cbn [execWordFrom]. destruct (is_space c && _) eqn:Hcond.
  - intros [= <-]. exists 0%nat. split; [lia|].
    apply andb_true_iff in Hcond as [Hc Hr]. split; [by exists c|].
    intros [|k'] Hlt (c' & Hl & Hs); [lia|].
    rewrite no_space_forallb in Hr. apply (Hr k'). by exists c'.
  - intros (j & -> & [Hs Hlast])%IH. exists (S j). split; [lia|].
    split; [exact Hs|]. intros [|k'] Hlt; [lia|].
    intros Hk. apply (Hlast k'); [lia|exact Hk].
Qed.

Lemma execWordFrom_None k w :
  execWordFrom k w = None -> forall j, ~ spaceAt w j.
Proof.
  revert k. induction w as [|c r IH]; intros k.
  - intros _ j (c & Hc & _). done.
  - cbn [execWordFrom]. destruct (is_space c && _) eqn:Hcond; [done|].
    intros Hn. specialize (IH _ Hn).
    apply andb_false_iff in Hcond as [Hc|Hr].
    + intros [|j] (c' & Hl & Hs); cbn in Hl.
      * injection Hl as <-. congruence.
      * apply (IH j). by exists c'.
    + apply no_space_forallb in IH. congruence.
Qed.

Lemma takeWhile_length_le {A} (p : A -> bool) (l : list A) :
  (length (takeWhile p l) <= length l)%nat.
Proof. induction l as [|x l IH]; cbn; [lia|]. destruct (p x); cbn; lia. Qed.

Lemma spaceRun_bounds (w : str) (j : nat) :
  spaceAt w j ->
  (1 <= spaceRun w j)%nat /\ (j + spaceRun w j <= length w)%nat.
Proof.
  intros (c & Hl & Hs). unfold spaceRun.
  pose proof (takeWhile_length_le is_space (drop j w)) as Hle.
  rewrite length_drop in Hle.
  apply lookup_lt_Some in Hl as Hlt. split; [|lia].
  rewrite (drop_S _ _ _ Hl). cbn. rewrite Hs. cbn. lia.
Qed.

Lemma firstBoundary_unique (w : str) (i j : nat) :
  firstBoundary w i -> firstBoundary w j -> i = j.
Proof.
  intros [Hi Hmi] [Hj Hmj].
  destruct (Nat.lt_trichotomy i j) as [Hlt|[->|Hlt]]; [|done|].
  - by apply Hmj in Hlt.
  - by apply Hmi in Hlt.
Qed.

Lemma lastSpace_unique (w : str) (i j : nat) :
  lastSpace w i -> lastSpace w j -> i = j.
Proof.
  intros [Hi Hmi] [Hj Hmj].
  destruct (Nat.lt_trichotomy i j) as [Hlt|[->|Hlt]]; [|done|].
  - by apply Hmi in Hlt.
  - by apply Hmj in Hlt.
Qed.

(** What [SENTENCE_BOUNDARY.exec] returns: the first boundary of the
    window and the length of its run of white space. *)
Lemma SENTENCE_BOUNDARY_exec_Some (w : str) (i n : nat) :
  SENTENCE_BOUNDARY_exec w = Some (i, n) ->
  firstBoundary w i /\ n = spaceRun w i.
Proof.
  intros (j & -> & Hb & Hmin & ->)%execSentenceFrom_Some. cbn.
  split; [|done]. split; [by apply boundaryWith_None|].
  intros j' Hlt. rewrite <- boundaryWith_None. by apply Hmin.
Qed.

Lemma SENTENCE_BOUNDARY_exec_None (w : str) :
  SENTENCE_BOUNDARY_exec w = None -> forall i, ~ boundaryAt w i.
Proof.
  intros H i. rewrite <- boundaryWith_None.
  by eapply execSentenceFrom_None.
Qed.

(** What the word pattern returns: the last white space of the window. *)
Lemma wordBoundary_exec_Some (w : str) (i : nat) :
  wordBoundary_exec w = Some i -> lastSpace w i.
Proof. by intros (j & -> & H)%execWordFrom_Some. Qed.

Lemma wordBoundary_exec_None (w : str) :
  wordBoundary_exec w = None -> forall j, ~ spaceAt w j.
Proof. apply execWordFrom_None. Qed.

(** ** C7: where a chunk is cut *)

(** C7, as amended.  When the tentative end [position + chunkSize] is
    before the end of the text: if the window has a sentence-terminal
    boundary, the chunk is cut after the run of white space of the first
    one; if it has none but has a white space, the chunk is cut after the
    last white space; otherwise it is cut at the tentative end. *)
Theorem chunkEnd_breaking_point (text : str) (size ov position : Z) :
  position + size < len text ->
  let stop := position + size in
  let ws := windowStart position stop ov in
  let window := windowOf text position stop ov in
  ((exists i, boundaryAt window i) ->
     exists i, firstBoundary window i
       /\ chunkEnd text size ov position
          = ws + Z.of_nat i + Z.of_nat (spaceRun window i))
  /\ ((forall i, ~ boundaryAt window i) -> (exists j, spaceAt window j) ->
        exists j, lastSpace window j
          /\ chunkEnd text size ov position = ws + Z.of_nat j + 1)
  /\ ((forall i, ~ boundaryAt window i) -> (forall j, ~ spaceAt window j) ->
        chunkEnd text size ov position = stop).
Proof.
  intros Hlt stop ws window. unfold chunkEnd.
  rewrite Z.min_l by lia. rewrite (proj2 (Z.ltb_lt _ _)) by done.
  fold stop. fold window. fold ws.
  destruct (SENTENCE_BOUNDARY_exec window) as [[i n]|] eqn:Hs.
  - apply SENTENCE_BOUNDARY_exec_Some in Hs as [Hfirst ->].
    split; [intros _; by exists i|].
    destruct Hfirst as [Hb _].
    split; intros Hno; by apply Hno in Hb.
  - pose proof (SENTENCE_BOUNDARY_exec_None _ Hs) as Hno.
    split; [intros [i Hi]; by apply Hno in Hi|].
    destruct (wordBoundary_exec window) as [j|] eqn:Hw.
    + apply wordBoundary_exec_Some in Hw.
      split; [intros _ _; by exists j|].
      intros _ Hnone. destruct Hw as [Hj _]. by apply Hnone in Hj.
    + pose proof (wordBoundary_exec_None _ Hw) as Hnone.
      split; [intros _ [j Hj]; by apply Hnone in Hj|done].
Qed.

Lemma chunkEnd_breaking_point_witness :
  0 + 4 < len twoSentences
  /\ let stop := 0 + 4 in
     let ws := windowStart 0 stop 4 in
     let window := windowOf twoSentences 0 stop 4 in
     ((exists i, boundaryAt window i) ->
        exists i, firstBoundary window i
          /\ chunkEnd twoSentences 4 4 0
             = ws + Z.of_nat i + Z.of_nat (spaceRun window i))
     /\ ((forall i, ~ boundaryAt window i) -> (exists j, spaceAt window j) ->
           exists j, lastSpace window j
             /\ chunkEnd twoSentences 4 4 0 = ws + Z.of_nat j + 1)
     /\ ((forall i, ~ boundaryAt window i) -> (forall j, ~ spaceAt window j) ->
           chunkEnd twoSentences 4 4 0 = stop).
Proof.
  split; [by vm_compute|].
  apply (chunkEnd_breaking_point twoSentences 4 4 0). by vm_compute.
Defined.

(** C7, as stated, fails.  In "a. b. cdefgh" with chunks of 4 and a
    window of 4 on each side, the first window is "a. b. cd": its last
    sentence-terminal boundary is the space at 5, after "b.", and the
    chunk is cut at 3, after the first one. *)
Lemma chunkEnd_cuts_at_first_boundary :
  windowOf twoSentences 0 (0 + 4) 4 = "a. b. cd"
  /\ lastBoundary (windowOf twoSentences 0 (0 + 4) 4) 5
  /\ chunkEnd twoSentences 4 4 0 = 3
  /\ ~ cutsAtLastBoundary twoSentences 4 4 0.
Proof.
  assert (Hlast : lastBoundary (windowOf twoSentences 0 (0 + 4) 4) 5).
  { change (windowOf twoSentences 0 (0 + 4) 4)
      with (list_ascii_of_string "a. b. cd").
    split.
    - split; [by exists " "%char|]. by exists 4%nat, "."%char.
    - intros j Hj [(c & Hl & Hs) _].
      do 6 (destruct j as [|j]; [lia|]).
      do 2 (destruct j as [|j]; [by injection Hl as <-|]).
      done. }
  split; [reflexivity|]. split; [exact Hlast|]. split; [reflexivity|].
  intros Hcut. specialize (Hcut ltac:(by vm_compute) 5%nat Hlast).
  vm_compute in Hcut. discriminate.
Qed.

(** ** C3: what the chunks cover *)

(** With a positive [chunkSize] every pass of the loop moves forward and
    stays inside the text. *)
Lemma chunkEnd_bounds (text : str) (size ov position : Z) :
  1 <= size -> 0 <= position < len text ->
  position < chunkEnd text size ov position <= len text.
Proof.
  intros Hsize Hpos. unfold chunkEnd.
  set (stop := Z.min (position + size) (len text)).
  assert (Hstop : position < stop <= len text) by (unfold stop; lia).
  destruct (stop <? len text); [|done].
  set (ws := windowStart position stop ov).
  set (window := windowOf text position stop ov).
  assert (Hws : 0 <= position <= ws) by (unfold ws, windowStart; lia).
  assert (Hlen : ws + len window <= Z.max ws (len text))
    by (apply slice_length_bound; lia).
  destruct (SENTENCE_BOUNDARY_exec window) as [[i n]|] eqn:Hs.
  - apply SENTENCE_BOUNDARY_exec_Some in Hs as [[[Hsp _] _] ->].
    apply spaceRun_bounds in Hsp. unfold len in *. lia.
  - destruct (wordBoundary_exec window) as [j|] eqn:Hw; [|done].
    apply wordBoundary_exec_Some in Hw as [(c & Hl & _) _].
    apply lookup_lt_Some in Hl. unfold len in *. lia.
Qed.



(** The loop cuts the rest of the text into consecutive non-empty
    segments and keeps the trimmed segments that reach [minChunk]. *)
Lemma chunkLoop_segments (fuel : nat) (text : str) (size ov minc : Z)
  (chunks : list str) (position : Z) :
  1 <= size -> 0 <= position <= len text ->
  len text - position <= Z.of_nat fuel ->
  exists segments,
    chunkLoop fuel text size ov minc chunks position
    = Some (chunks ++ keepChunks minc segments, len text)
    /\ concat segments = drop (Z.to_nat position) text
    /\ Forall (fun s => s <> []) segments.
Proof.
  intros Hsize. revert chunks position.
  induction fuel as [|fuel IH]; intros chunks position Hpos Hfuel.
  - assert (position = len text) as -> by lia.
    exists []. cbn. rewrite Z.ltb_irrefl, app_nil_r.
    split; [done|]. split; [|constructor].
    unfold len. by rewrite Nat2Z.id, drop_all.
  - cbn [chunkLoop]. destruct (Z.ltb_spec position (len text)) as [Hlt|Hge].
    + pose proof (chunkEnd_bounds text size ov position Hsize
                    ltac:(lia)) as Hend.
      set (stop := chunkEnd text size ov position) in *.
      set (chunks' := if minc <=? len (trim (slice text position stop))
                      then chunks ++ [trim (slice text position stop)]
                      else chunks).
      destruct (IH chunks' stop ltac:(lia) ltac:(lia))
        as (segments & Hloop & Hcat & Hne).
      exists (slice text position stop :: segments).
      rewrite Hloop. split; [|split].
      * f_equal. f_equal. unfold chunks', keepChunks. cbn.
        destruct (minc <=? len (trim (slice text position stop)));
          [by rewrite <- app_assoc|done].
      * cbn. rewrite Hcat, slice_inrange by lia.
        replace (Z.to_nat stop)
          with (Z.to_nat position + Z.to_nat (stop - position))%nat by lia.
        rewrite <- drop_drop. apply take_drop.
      * constructor; [|done]. intros Hnil.
        apply (f_equal length) in Hnil.
        rewrite slice_inrange, length_take, length_drop in Hnil by lia.
        unfold len in *. cbn in Hnil. lia.
    + assert (position = len text) as -> by lia.
      exists []. rewrite app_nil_r. split; [done|]. split; [|constructor].
      unfold len. by rewrite Nat2Z.id, drop_all.
Qed.

(** The value of [chunkText] when [chunkSize] is positive: the branch
    that appends a remainder to the last chunk is never taken, since the
    loop ends with the position at the end of the text. *)
Lemma chunkText_fuel_segments (fuel : nat) (text : str) (options : ChunkOptions) :
  1 <= chunkSizeOf options -> (length text <= fuel)%nat ->
  exists segments,
    chunkText_fuel fuel text options
    = Some (keepChunks (minChunkOf options) segments)
    /\ concat segments = text
    /\ Forall (fun s => s <> []) segments.
Proof.
  intros Hsize Hfuel. unfold chunkText_fuel.
  destruct (chunkLoop_segments fuel text (chunkSizeOf options)
              (overlapOf options) (minChunkOf options) [] 0 Hsize)
    as (segments & -> & Hcat & Hne); [unfold len; lia..|].
  exists segments. cbn. rewrite Z.ltb_irrefl. cbn. done.
Qed.

(** Fuel only matters when it runs out. *)
Lemma chunkLoop_more_fuel (fuel fuel' : nat) (text : str) (size ov minc : Z)
  (chunks : list str) (position : Z) (r : list str * Z) :
  (fuel <= fuel')%nat ->
  chunkLoop fuel text size ov minc chunks position = Some r ->
  chunkLoop fuel' text size ov minc chunks position = Some r.
Proof.
  revert fuel' chunks position.
  induction fuel as [|fuel IH]; intros fuel' chunks position Hle.
  - cbn. destruct (position <? len text) eqn:Hp; [done|].
    intros <-. destruct fuel'; cbn; by rewrite Hp.
  - destruct fuel' as [|fuel']; [lia|]. cbn.
    destruct (position <? len text); [|done]. apply IH. lia.
Qed.

(** The fuel of [chunkText] is enough when [chunkSize] is positive: it
    returns, and more fuel gives the same chunks. *)
Lemma chunkText_fuel_enough (fuel : nat) (text : str) (options : ChunkOptions) :
  1 <= chunkSizeOf options -> (length text <= fuel)%nat ->
  chunkText_fuel fuel text options = chunkText text options
  /\ is_Some (chunkText text options).
Proof.
  intros Hsize Hfuel. unfold chunkText, chunkText_fuel.
  destruct (chunkLoop_segments (length text) text (chunkSizeOf options)
              (overlapOf options) (minChunkOf options) [] 0 Hsize)
    as (segments & Hloop & _); [unfold len; lia..|].
  rewrite (chunkLoop_more_fuel _ fuel _ _ _ _ _ _ _ Hfuel Hloop), Hloop.
  cbn. rewrite Z.ltb_irrefl. cbn. split; [done|by eexists].
Qed.




(** The cuts of the loop on the sample text: the segments "hello ",
    "world " and "foo", of which the last is too short. *)
Example chunkText_cuts_threeWords :
  chunkEnd threeWords 6 2 0 = 6 /\ chunkEnd threeWords 6 2 6 = 12
  /\ chunkEnd threeWords 6 2 12 = 15 /\ len threeWords = 15
  /\ zip_with (slice threeWords) [0; 6; 12] [6; 12; 15]
     = [list_ascii_of_string "hello "; list_ascii_of_string "world ";
        list_ascii_of_string "foo"].
Proof. repeat split; by vm_compute. Qed.


(** Runs of the loop on small texts: a text shorter than [minChunk] gives
    no chunk, and a short last segment is neither returned nor appended
    to the chunk before it. *)
Example chunkText_samples :
  chunkText "hello" (mkChunkOptions None None None) = Some []
  /\ chunkText threeWords (small 5)
     = Some [list_ascii_of_string "hello"; list_ascii_of_string "world"]
  /\ chunkText twoSentences (tiny 0)
     = Some [list_ascii_of_string "a."; list_ascii_of_string "b.";
             list_ascii_of_string "cdef"; list_ascii_of_string "gh"].
Proof. repeat split; by vm_compute. Qed.

(** A text that the chunks do cover: no segment is short, and only white
    space is trimmed away. *)
Example chunkText_covers_twoSentences :
  exists chunks,
    chunkText twoSentences (tiny 0) = Some chunks
    /\ coversWithMinimum twoSentences (tiny 0) chunks.
Proof.
  eexists. split; [by vm_compute|]. split.
  - unfold coversText.
    replace (nonBlank (concat _)) with (nonBlank twoSentences)
      by (by vm_compute).
    done.
  - repeat constructor; by vm_compute.
Qed.

(** With a [chunkSize] of zero the loop never moves: no amount of fuel
    lets [chunkText] return on a text without a breaking point. *)
Lemma chunkText_zero_size_diverges (fuel : nat) :
  chunkText_fuel fuel "a" (mkChunkOptions (Some 0) None None) = None.
Proof.
  unfold chunkText_fuel.
  assert (H : chunkLoop fuel "a" 0 200 100 [] 0 = None).
  { induction fuel as [|fuel IH]; [done|]. exact IH. }
  change (chunkLoop fuel "a" _ _ _ [] 0) with (chunkLoop fuel "a" 0 200 100 [] 0).
  by rewrite H.
Qed.

(** ** The size and the number of the chunks *)

(** A JavaScript number that may be infinite or not a number. *)
Inductive JSNumber := Finite (z : Z) | PlusInfinity | NotANumber.

(** [estimateChunkCount(text, options)] =
    [Math.max(1, Math.ceil(text.length / effectiveSize))].  The quotient of
    two integers below 2^53 is rounded up exactly; a division by zero gives
    [Infinity], or [NaN] for an empty text, and [Math.max] keeps both. *)
Definition estimateChunkCount (text : str) (options : ChunkOptions) : JSNumber :=
  let effectiveSize := chunkSizeOf options - overlapOf options in
  if effectiveSize =? 0 then
    if len text =? 0 then NotANumber else PlusInfinity
  else Finite (Z.max 1 (- (- len text / effectiveSize))).

(** The end of a chunk lies at most [chunkSize + overlap] after its start,
    and, unless it is the end of the text, at least [chunkSize - overlap]
    after it. *)
Lemma chunkEnd_range (text : str) (size ov position : Z) :
  1 <= size -> 0 <= ov -> 0 <= position < len text ->
  position < chunkEnd text size ov position <= len text
  /\ chunkEnd text size ov position <= position + size + ov
  /\ (chunkEnd text size ov position < len text ->
      position + size - ov <= chunkEnd text size ov position).
Proof.
  intros Hsize Hov Hpos.
  split; [by apply chunkEnd_bounds|]. unfold chunkEnd.
  set (stop := Z.min (position + size) (len text)).
  assert (Hstop : position < stop <= len text) by (unfold stop; lia).
  destruct (Z.ltb_spec stop (len text)) as [Hlt|Hge]; [|lia].
  assert (Hstop' : stop = position + size) by (unfold stop in *; lia).
  set (ws := windowStart position stop ov).
  set (window := windowOf text position stop ov).
  assert (Hws : position <= ws <= stop /\ stop - ov <= ws)
    by (unfold ws, windowStart; lia).
  assert (Hwe : stop <= windowEnd text stop ov <= len text
                /\ windowEnd text stop ov <= stop + ov)
    by (unfold windowEnd; lia).
  assert (Hlen : ws + len window <= windowEnd text stop ov).
  { unfold window, windowOf. fold ws. rewrite slice_inrange by lia.
    unfold len. rewrite length_take, length_drop. lia. }
  destruct (SENTENCE_BOUNDARY_exec window) as [[i n]|] eqn:Hs.
  - apply SENTENCE_BOUNDARY_exec_Some in Hs as [[[Hsp _] _] ->].
    apply spaceRun_bounds in Hsp. unfold len in *. lia.
  - destruct (wordBoundary_exec window) as [j|] eqn:Hw; [|lia].
    apply wordBoundary_exec_Some in Hw as [(c & Hl & _) _].
    apply lookup_lt_Some in Hl. unfold len in *. lia.
Qed.

(** The segments the loop cuts, with their sizes and their number. *)
Lemma chunkLoop_sized_segments (fuel : nat) (text : str) (size ov minc : Z)
  (chunks : list str) (position : Z) :
  1 <= size -> 0 <= ov -> 0 <= position <= len text ->
  len text - position <= Z.of_nat fuel ->
  exists segments,
    chunkLoop fuel text size ov minc chunks position
    = Some (chunks ++ keepChunks minc segments, len text)
    /\ concat segments = drop (Z.to_nat position) text
    /\ Forall (fun s => 1 <= len s <= size + ov) segments
    /\ (position = len text -> segments = [])
    /\ (position < len text ->
        (len segments - 1) * (size - ov) + 1 <= len text - position).
Proof.
  intros Hsize Hov. revert chunks position.
  induction fuel as [|fuel IH]; intros chunks position Hpos Hfuel.
  - assert (position = len text) as -> by lia.
    exists []. cbn. rewrite Z.ltb_irrefl, app_nil_r.
    split; [done|]. split; [|split; [constructor|split; [done|lia]]].
    unfold len. by rewrite Nat2Z.id, drop_all.
  - cbn [chunkLoop]. destruct (Z.ltb_spec position (len text)) as [Hlt|Hge].
    + pose proof (chunkEnd_range text size ov position Hsize Hov
                    ltac:(lia)) as (Hend & Hupper & Hlower).
      set (stop := chunkEnd text size ov position) in *.
      set (chunks' := if minc <=? len (trim (slice text position stop))
                      then chunks ++ [trim (slice text position stop)]
                      else chunks).
      destruct (IH chunks' stop ltac:(lia) ltac:(lia))
        as (segments & Hloop & Hcat & Hsizes & Hlast & Hcount).
      assert (Hseg : len (slice text position stop) = stop - position).
      { rewrite slice_inrange by lia. unfold len.
        rewrite length_take, length_drop. unfold len in *. lia. }
      exists (slice text position stop :: segments).
      rewrite Hloop. split; [|split; [|split; [|split]]].
      * f_equal. f_equal. unfold chunks', keepChunks. cbn.
        destruct (minc <=? len (trim (slice text position stop)));
          [by rewrite <- app_assoc|done].
      * cbn. rewrite Hcat, slice_inrange by lia.
        replace (Z.to_nat stop)
          with (Z.to_nat position + Z.to_nat (stop - position))%nat by lia.
        rewrite <- drop_drop. apply take_drop.
      * constructor; [lia|done].
      * lia.
      * intros _. destruct (decide (stop = len text)) as [Heq|Hne].
        -- rewrite (Hlast Heq). unfold len in *. cbn [length]. lia.
        -- specialize (Hcount ltac:(lia)). specialize (Hlower ltac:(lia)).
           unfold len in *. cbn [length]. nia.
    + assert (position = len text) as -> by lia.
      exists []. rewrite app_nil_r. split; [done|].
      split; [|split; [constructor|split; [done|lia]]].
      unfold len. by rewrite Nat2Z.id, drop_all.
Qed.

Lemma chunkText_sized_segments (text : str) (options : ChunkOptions) :
  1 <= chunkSizeOf options -> 0 <= overlapOf options ->
  exists segments,
    chunkText text options = Some (keepChunks (minChunkOf options) segments)
    /\ concat segments = text
    /\ Forall (fun s => 1 <= len s <= chunkSizeOf options + overlapOf options)
              segments
    /\ (text = [] -> segments = [])
    /\ (text <> [] ->
        (len segments - 1) * (chunkSizeOf options - overlapOf options) + 1
        <= len text).
Proof.
  intros Hsize Hov. unfold chunkText, chunkText_fuel.
  destruct (chunkLoop_sized_segments (length text) text (chunkSizeOf options)
              (overlapOf options) (minChunkOf options) [] 0 Hsize Hov)
    as (segments & -> & Hcat & Hsizes & Hlast & Hcount); [unfold len; lia..|].
  exists segments. cbn. rewrite Z.ltb_irrefl. cbn.
  split; [done|]. split; [done|]. split; [done|]. split.
  - intros ->. by apply Hlast.
  - intros Hne. rewrite Z.sub_0_r in Hcount. apply Hcount.
    destruct text; [done|]. unfold len. cbn. lia.
Qed.

Lemma keepChunks_elem_of (minc : Z) (segments : list str) (c : str) :
  c ∈ keepChunks minc segments ->
  exists s, s ∈ segments /\ c = trim s /\ minc <= len c.
Proof.
  unfold keepChunks. intros [Hin Hlen]%list_elem_of_In%List.filter_In.
  apply list_elem_of_In, list_elem_of_fmap in Hin as (s & -> & Hs).
  exists s. split; [done|]. split; [done|lia].
Qed.

Lemma keepChunks_length (minc : Z) (segments : list str) :
  len (keepChunks minc segments) <= len segments.
Proof.
  unfold keepChunks, len.
  pose proof (List.filter_length_le (fun c => minc <=? Z.of_nat (length c))
                (map trim segments)) as Hle.
  rewrite length_map in Hle. unfold len in *. lia.
Qed.

(** X19.  A text that is not empty and no longer than [chunkSize] is not
    cut: [chunkText] returns its trimmed text as the only chunk when that
    has at least [minChunk] characters, and no chunk otherwise; an empty
    text gives no chunk. *)
Theorem chunkText_short_text (text : str) (options : ChunkOptions) :
  0 < len text <= chunkSizeOf options ->
  chunkText text options
  = Some (if minChunkOf options <=? len (trim text) then [trim text] else [])
  /\ chunkText [] options = Some [].
Proof.
  intros Hlen. split; [|done].
  unfold chunkText, chunkText_fuel.
  destruct text as [|c text]; [unfold len in Hlen; cbn in Hlen; lia|].
  set (t := c :: text) in *. change (length t) with (S (length text)).
  cbn [chunkLoop]. rewrite (proj2 (Z.ltb_lt 0 (len t))) by lia.
  assert (Hend : chunkEnd t (chunkSizeOf options) (overlapOf options) 0
                 = len t).
  { unfold chunkEnd. rewrite Z.min_r by lia. by rewrite Z.ltb_irrefl. }
  rewrite Hend.
  assert (Hall : slice t 0 (len t) = t).
  { rewrite slice_inrange by lia. change (Z.to_nat 0) with 0%nat.
    rewrite drop_0, Z.sub_0_r. unfold len. rewrite Nat2Z.id. apply firstn_all. }
  rewrite Hall.
  assert (Hstop : forall chunks,
            chunkLoop (length text) t (chunkSizeOf options) (overlapOf options)
                      (minChunkOf options) chunks (len t)
            = Some (chunks, len t)).
  { intros chunks. destruct (length text); cbn; by rewrite Z.ltb_irrefl. }
  rewrite Hstop. cbn. rewrite Z.ltb_irrefl. cbn.
  by destruct (minChunkOf options <=? len (trim t)).
Qed.

Lemma chunkText_short_text_witness :
  0 < len threeWords <= chunkSizeOf (mkChunkOptions None None (Some 5))
  /\ chunkText threeWords (mkChunkOptions None None (Some 5))
     = Some (if minChunkOf (mkChunkOptions None None (Some 5))
                <=? len (trim threeWords)
             then [trim threeWords] else [])
  /\ chunkText [] (mkChunkOptions None None (Some 5)) = Some [].
Proof.
  split; [by vm_compute|].
  apply (chunkText_short_text threeWords (mkChunkOptions None None (Some 5))).
  by vm_compute.
Defined.

(** X20.  With a positive [chunkSize] and an [overlap] that is not
    negative, [chunkText] returns, and every chunk it returns is a piece
    of the text (the characters of the chunk occur in the text in a row),
    has at least [minChunk] and at most [chunkSize + overlap] characters,
    and neither starts nor ends with white space. *)
Theorem chunkText_chunks_are_pieces (text : str) (options : ChunkOptions) :
  1 <= chunkSizeOf options -> 0 <= overlapOf options ->
  exists chunks,
    chunkText text options = Some chunks
    /\ forall c, c ∈ chunks ->
         (exists pre post, text = pre ++ c ++ post)
         /\ minChunkOf options <= len c
            <= chunkSizeOf options + overlapOf options
         /\ trim c = c.
Proof.
  intros Hsize Hov.
  destruct (chunkText_sized_segments text options Hsize Hov)
    as (segments & Hrun & Hcat & Hsizes & _).
  eexists. split; [exact Hrun|]. intros c Hc.
  apply keepChunks_elem_of in Hc as (s & Hs & -> & Hmin).
  split; [|split].
  - apply list_elem_of_split in Hs as (l1 & l2 & ->).
    destruct (trim_infix s) as (pre & post & Htrim & _).
    exists (concat l1 ++ pre), (post ++ concat l2).
    rewrite <- Hcat, concat_app. cbn. rewrite Htrim at 1.
    by rewrite <- !app_assoc.
  - split; [done|].
    pose proof (proj1 (Forall_forall _ _) Hsizes s Hs) as Hle.
    pose proof (trim_length s). cbn in Hle. lia.
  - apply trim_trim.
Qed.

Lemma chunkText_chunks_are_pieces_witness :
  1 <= chunkSizeOf (small 5) /\ 0 <= overlapOf (small 5)
  /\ exists chunks,
       chunkText threeWords (small 5) = Some chunks
       /\ forall c, c ∈ chunks ->
            (exists pre post, threeWords = pre ++ c ++ post)
            /\ minChunkOf (small 5) <= len c
               <= chunkSizeOf (small 5) + overlapOf (small 5)
            /\ trim c = c.
Proof.
  split; [by vm_compute|]. split; [by vm_compute|].
  apply (chunkText_chunks_are_pieces threeWords (small 5)); by vm_compute.
Defined.

(** X21.  When [overlap] is not negative and below [chunkSize],
    [estimateChunkCount] is a number, and [chunkText] never returns more
    chunks than it says. *)
Theorem estimateChunkCount_upper_bound (text : str) (options : ChunkOptions) :
  0 <= overlapOf options < chunkSizeOf options ->
  exists chunks estimate,
    chunkText text options = Some chunks
    /\ estimateChunkCount text options = Finite estimate
    /\ len chunks <= estimate.
Proof.
  intros Hov.
  destruct (chunkText_sized_segments text options ltac:(lia) ltac:(lia))
    as (segments & Hrun & _ & _ & Hnil & Hcount).
  eexists _, _. split; [exact Hrun|]. unfold estimateChunkCount.
  set (m := chunkSizeOf options - overlapOf options) in *.
  rewrite (proj2 (Z.eqb_neq m 0)) by lia. split; [done|].
  pose proof (keepChunks_length (minChunkOf options) segments) as Hkeep.
  destruct text as [|c text].
  - rewrite (Hnil eq_refl).
    change (len (keepChunks (minChunkOf options) [])) with 0. lia.
  - specialize (Hcount ltac:(done)).
    set (L := len (c :: text)) in *. set (n := len segments) in *.
    assert (Hq : - L / m < 1 - n)
      by (apply Z.div_lt_upper_bound; [lia|nia]).
    change (chunkSizeOf options - overlapOf options) with m. lia.
Qed.

Lemma estimateChunkCount_upper_bound_witness :
  0 <= overlapOf (small 5) < chunkSizeOf (small 5)
  /\ exists chunks estimate,
       chunkText threeWords (small 5) = Some chunks
       /\ estimateChunkCount threeWords (small 5) = Finite estimate
       /\ len chunks <= estimate.
Proof.
  split; [by vm_compute|].
  apply (estimateChunkCount_upper_bound threeWords (small 5)). by vm_compute.
Defined.

End Chunking.

(* ================================================================== *)
(** * URL normalisation and content hashing (src/kb/dedupe.ts) *)
(* ================================================================== *)

Module Dedupe.

Import JS.
Local Open Scope Z_scope.

(** ** The platform's [URL] class *)

(** What [normalizeUrl] uses of the platform's [URL]: the constructor
    ([None] when it throws), [url.searchParams.delete(name)] and
    [url.href]. *)
Class URLPlatform := {
  URL : Type;
  URL_new : str -> option URL;
  searchParams_delete : str -> URL -> URL;
  href : URL -> str
}.

(** ** The source *)

Definition TRACKING_PARAMS : list str :=
  [ list_ascii_of_string "utm_source";
    list_ascii_of_string "utm_medium";
    list_ascii_of_string "utm_campaign";
    list_ascii_of_string "utm_content";
    list_ascii_of_string "utm_term";
    list_ascii_of_string "fbclid";
    list_ascii_of_string "igshid";
    list_ascii_of_string "ref";
    list_ascii_of_string "s";
    list_ascii_of_string "t";
    list_ascii_of_string "_ga";
    list_ascii_of_string "_gl";
    list_ascii_of_string "gclid";
    list_ascii_of_string "msclkid" ].

(** [s] starts with [p], letter case ignored ([p] is in lower case): the
    anchored patterns with the flag [i]. *)
Definition startsWithCI (p s : str) : bool :=
  startsWith p (toLowerCase (take (length p) s)).

(** [/^https?:\/\//i.test(s)], and the length of what it matches. *)
Definition schemeLength (s : str) : option nat :=
  if startsWithCI "http://" s then Some 7%nat
  else if startsWithCI "https://" s then Some 8%nat
  else None.

(** [s.replace(/^(https?:\/\/)www\./i, '$1')] *)
Definition stripWww (s : str) : str :=
  match schemeLength s with
  | Some n =>
      if startsWithCI "www." (drop n s) then take n s ++ drop (n + 4) s else s
  | None => s
  end.

(** The first position at which [s] holds [p], letter case ignored. *)
Fixpoint indexOfCI (p s : str) : option nat :=
  if startsWithCI p s then Some 0%nat
  else match s with
       | [] => None
       | _ :: s' => option_map S (indexOfCI p s')
       end.

(** [s.replace(/:\/\/x\.com\//i, '://twitter.com/')]: the first match. *)
Definition xToTwitter (s : str) : str :=
  match indexOfCI "://x.com/" s with
  | Some i => take i s ++ "://twitter.com/" ++ drop (i + 9) s
  | None => s
  end.

(** [s.replace(/\/$/, '')] *)
Definition stripTrailingSlash (s : str) : str :=
  match rev s with
  | "/"%char :: r => rev r
  | _ => s
  end.

(** The statements of [normalizeUrl] after [normalized = u.href]. *)
Definition cleanHref (h : str) : str :=
  let normalized := stripWww h in
  let normalized := xToTwitter normalized in
  let normalized := stripTrailingSlash normalized in
  match indexOf "#" normalized with
  | Some hashIdx => slice normalized 0 (Z.of_nat hashIdx)
  | None => normalized
  end.

(** The string given to [new URL]. *)
Definition withScheme (url : str) : str :=
  let normalized := trim url in
  match schemeLength normalized with
  | Some _ => normalized
  | None => "https://" ++ normalized
  end.

(** [normalizeUrl(url)]: the [catch] returns the argument as it is. *)
Definition normalizeUrl `{URLPlatform} (url : str) : str :=
  match URL_new (withScheme url) with
  | None => url
  | Some u =>
      let u := fold_left (fun u param => searchParams_delete param u)
                         TRACKING_PARAMS u in
      cleanHref (href u)
  end.

(** [areUrlsEquivalent(url1, url2)] *)
Definition areUrlsEquivalent `{URLPlatform} (url1 url2 : str) : bool :=
  bool_decide (normalizeUrl url1 = normalizeUrl url2).

Definition CR : ascii := ascii_of_nat 13.
Definition LF : ascii := ascii_of_nat 10.

(** [s.replace(/\r\n/g, '\n')] *)
Fixpoint replaceCRLF (s : str) : str :=
  match s with
  | c :: ((d :: r) as t) =>
      if Ascii.eqb c CR && Ascii.eqb d LF then LF :: replaceCRLF r
      else c :: replaceCRLF t
  | _ => s
  end.

(** [s.replace(/\r/g, '\n')] *)
Definition replaceCR (s : str) : str :=
  map (fun c => if Ascii.eqb c CR then LF else c) s.

(** [s.replace(/\n{3,}/g, '\n\n')]: [run] counts the line feeds seen
    just before. *)
Fixpoint collapseLF (run : nat) (s : str) : str :=
  match s with
  | [] => []
  | c :: r =>
      if Ascii.eqb c LF
      then if Nat.leb 2 run then collapseLF (S run) r
           else c :: collapseLF (S run) r
      else c :: collapseLF 0 r
  end.

(** [cleanContent(content)] *)
Definition cleanContent (content : str) : str :=
  trim (collapseLF 0 (replaceCR (replaceCRLF content))).

(** [generateContentHash(content)], over the digest [sha256hex] of the
    platform. *)
Definition generateContentHash (sha256hex : str -> str) (content : str) : str :=
  sha256hex (trim content).

(** ** A model of the platform's [URL] on plain addresses *)

(** The addresses covered: the scheme [http] or [https] in any letter
    case, a host of letters, digits, dots and hyphens, then a path, a
    query and a fragment made of letters, digits and the characters
    [- . _ / = &].  On these the platform keeps the text as it is, apart
    from the letter case of scheme and host, the path [/] of an address
    without one, and the query, which [searchParams.delete] writes back
    as [name=value] pairs.  Every other string is refused here; the
    platform accepts more (a port, user information, other characters).
    In two cases the platform rewrites what this model keeps: a host
    whose last label is a number is read as an IPv4 address, and a query
    is written back form-encoded, so that a slash or a second equals sign
    in a value comes back escaped.  The property proved on this model
    stays clear of both: it is stated for a [simpleHost] and an address
    without query. *)

Record PlainURL := mkPlainURL {
  u_scheme : str;
  u_host : str;
  u_pathname : str;
  u_query : option str;
  u_hash : option str
}.

Definition is_alnum (c : ascii) : bool :=
  let n := nat_of_ascii c in
  ((Nat.leb 48 n && Nat.leb n 57) || (Nat.leb 65 n && Nat.leb n 90)
   || (Nat.leb 97 n && Nat.leb n 122))%bool.

Definition is_hostChar (c : ascii) : bool :=
  is_alnum c || Ascii.eqb c "."%char || Ascii.eqb c "-"%char.

Definition is_plainChar (c : ascii) : bool :=
  is_alnum c || Ascii.eqb c "."%char || Ascii.eqb c "-"%char
  || Ascii.eqb c "_"%char || Ascii.eqb c "/"%char || Ascii.eqb c "="%char
  || Ascii.eqb c "&"%char.

(** [s] cut at the first [sep]: what is before, and what is after when
    [sep] occurs. *)
Fixpoint cutAt (sep : ascii) (s : str) : str * option str :=
  match s with
  | [] => ([], None)
  | c :: r =>
      if Ascii.eqb c sep then ([], Some r)
      else let '(a, b) := cutAt sep r in (c :: a, b)
  end.

Definition plainParse (s : str) : option PlainURL :=
  n ← schemeLength s;
  let scheme := toLowerCase (take (n - 3) s) in
  let '(beforeHash, hash) := cutAt "#"%char (drop n s) in
  let '(beforeQuery, query) := cutAt "?"%char beforeHash in
  let '(host, path) := cutAt "/"%char beforeQuery in
  let pathname := "/"%char :: default [] path in
  if negb (bool_decide (host = []))
     && forallb is_hostChar host
     && forallb is_plainChar pathname
     && negb (bool_decide ((list_ascii_of_string ".") ∈ split "/"%char pathname))
     && negb (bool_decide ((list_ascii_of_string "..") ∈ split "/"%char pathname))
     && forallb is_plainChar (default [] query)
     && forallb is_plainChar (default [] hash)
  then Some (mkPlainURL scheme (toLowerCase host) pathname query hash)
  else None.

(** The name-value pairs of a query. *)
Definition queryPairs (q : str) : list (str * str) :=
  map (fun kv => let '(k, v) := cutAt "="%char kv in (k, default [] v))
      (List.filter (fun kv => negb (bool_decide (kv = []))) (split "&"%char q)).

Definition serializePairs (l : list (str * str)) : option str :=
  match l with
  | [] => None
  | _ => Some (join "&" (map (fun kv => fst kv ++ "=" ++ snd kv) l))
  end.

Definition plainDelete (name : str) (u : PlainURL) : PlainURL :=
  let pairs := List.filter (fun kv => negb (bool_decide (fst kv = name)))
                           (queryPairs (default [] (u_query u))) in
  mkPlainURL (u_scheme u) (u_host u) (u_pathname u) (serializePairs pairs)
             (u_hash u).

Definition plainHref (u : PlainURL) : str :=
  u_scheme u ++ "://" ++ u_host u ++ u_pathname u
  ++ match u_query u with Some q => "?"%char :: q | None => [] end
  ++ match u_hash u with Some h => "#"%char :: h | None => [] end.

#[global] Instance plainURL : URLPlatform := {|
  URL := PlainURL;
  URL_new := plainParse;
  searchParams_delete := plainDelete;
  href := plainHref
|}.




(** ** C4: a second application *)

(** *** Characters *)








(** *** Prefixes *)








(** *** The scheme *)




(** *** What the model accepts *)









(** *** The steps of [cleanHref] on a serialised address *)

















(** *** What is left of an acceptedURL address *)














(** *** Reading the result again *)








(** *** The addresses covered *)













(** Addresses of the three kinds on which a second application changes
    the result: two slashes at the end, a slash before the fragment, the
    prefix [www.] twice; and an address that one application brings to
    its normal form. *)
Example normalizeUrl_second_samples :
  (normalizeUrl "https://example.com/#top" = "https://example.com/"
   /\ normalizeUrl "https://example.com/" = "https://example.com")
  /\ (normalizeUrl "www.www.example.com" = "https://www.example.com"
      /\ normalizeUrl "https://www.example.com" = "https://example.com")
  /\ (normalizeUrl "HTTP://WWW.X.com/Rocq/#news" = "http://twitter.com/Rocq/"
      /\ normalizeUrl "http://twitter.com/Rocq/" = "http://twitter.com/Rocq"
      /\ normalizeUrl "http://twitter.com/Rocq" = "http://twitter.com/Rocq").
Proof. repeat split; by vm_compute. Qed.

(** Runs on sample addresses: tracking parameters, the [www.] prefix, the
    host alias and the fragment. *)
Example normalizeUrl_samples :
  normalizeUrl "  WWW.Example.com/a/b/?utm_source=x&id=5&ref=y#frag "
  = "https://example.com/a/b/?id=5"
  /\ normalizeUrl "https://www.x.com/user/status/123?s=20"
     = "https://twitter.com/user/status/123"
  /\ normalizeUrl "https://exa mple.com" = "https://exa mple.com".
Proof. repeat split; by vm_compute. Qed.

(** ** What [cleanContent] returns *)

(** No run of line feeds in [s] reaches three, when [run] line feeds come
    just before [s]. *)
Fixpoint shortRuns (run : nat) (s : str) : bool :=
  match s with
  | [] => true
  | c :: r =>
      if Ascii.eqb c LF then Nat.ltb run 2 && shortRuns (S run) r
      else shortRuns 0 r
  end.

Lemma replaceCR_no_CR (s : str) : CR ∉ replaceCR s.
Proof.
  unfold replaceCR. intros (c & Hc & _)%list_elem_of_fmap.
  destruct (Ascii.eqb_spec c CR); [discriminate|congruence].
Qed.

Lemma collapseLF_subseteq (run : nat) (s : str) : collapseLF run s ⊆ s.
Proof.
  revert run. induction s as [|c r IH]; intros run; cbn [collapseLF]; [done|].
  destruct (Ascii.eqb c LF); [destruct (Nat.leb 2 run)|].
  - intros x Hx. right. exact (IH (S run) x Hx).
  - intros x [->|Hx]%elem_of_cons; [left|right; exact (IH (S run) x Hx)].
  - intros x [->|Hx]%elem_of_cons; [left|right; exact (IH 0%nat x Hx)].
Qed.

Lemma collapseLF_shortRuns (run : nat) (s : str) :
  shortRuns (Nat.min run 2) (collapseLF run s) = true.
Proof.
  revert run. induction s as [|c r IH]; intros run; cbn [collapseLF];
    [done|].
  destruct (Ascii.eqb c LF) eqn:Hc.
  - destruct (Nat.leb_spec 2 run) as [Hrun|Hrun].
    + specialize (IH (S run)).
      by replace (Nat.min (S run) 2) with (Nat.min run 2) in IH by lia.
    + cbn [shortRuns]. rewrite Hc. specialize (IH (S run)).
      replace (Nat.min (S run) 2) with (S run) in IH by lia.
      replace (Nat.min run 2) with run by lia.
      rewrite IH, andb_true_r. apply Nat.ltb_lt. lia.
  - cbn [shortRuns]. rewrite Hc. apply (IH 0%nat).
Qed.

Lemma shortRuns_mono (run run' : nat) (s : str) :
  (run' <= run)%nat -> shortRuns run s = true -> shortRuns run' s = true.
Proof.
  revert run run'. induction s as [|c r IH]; intros run run' Hle;
    cbn [shortRuns]; [done|].
  destruct (Ascii.eqb c LF); [|done].
  intros [Hrun Hr]%andb_prop. apply Nat.ltb_lt in Hrun.
  rewrite (proj2 (Nat.ltb_lt run' 2)) by lia. cbn [andb].
  apply (IH (S run) (S run')); [lia|done].
Qed.

Lemma shortRuns_app (run : nat) (a b : str) :
  shortRuns run (a ++ b) = true ->
  shortRuns run a = true /\ shortRuns 0 b = true.
Proof.
  revert run. induction a as [|c a IH]; intros run; cbn [app shortRuns].
  - intros H. split; [done|]. apply (shortRuns_mono run); [lia|done].
  - destruct (Ascii.eqb c LF).
    + intros [-> H]%andb_prop. by apply IH in H.
    + apply IH.
Qed.

(** With short runs only, no three line feeds are in a row. *)
Lemma shortRuns_no_triple (run : nat) (s pre post : str) :
  shortRuns run s = true -> s <> pre ++ [LF; LF; LF] ++ post.
Proof.
  intros Hs ->. apply shortRuns_app in Hs as [_ Hs]. cbn in Hs. done.
Qed.

Lemma shortRuns_collapseLF (run : nat) (s : str) :
  shortRuns run s = true -> collapseLF run s = s.
Proof.
  revert run. induction s as [|c r IH]; intros run;
    cbn [collapseLF shortRuns]; [done|].
  destruct (Ascii.eqb c LF).
  - intros [Hrun Hr]%andb_prop. apply Nat.ltb_lt in Hrun.
    rewrite (proj2 (Nat.leb_gt 2 run)) by lia. by rewrite IH.
  - intros Hr. by rewrite IH.
Qed.

Lemma replaceCRLF_no_CR (s : str) : CR ∉ s -> replaceCRLF s = s.
Proof.
  induction s as [|c [|d r] IH]; [done..|].
  intros Hno. change (replaceCRLF (c :: d :: r))
    with (if Ascii.eqb c CR && Ascii.eqb d LF then LF :: replaceCRLF r
          else c :: replaceCRLF (d :: r)).
  apply not_elem_of_cons in Hno as [Hc Hno].
  destruct (Ascii.eqb_spec c CR); [congruence|]. cbn [andb].
  by rewrite IH.
Qed.

Lemma replaceCR_no_CR_id (s : str) : CR ∉ s -> replaceCR s = s.
Proof.
  unfold replaceCR. induction s as [|c r IH]; [done|].
  intros [Hc Hno]%not_elem_of_cons. cbn.
  destruct (Ascii.eqb_spec c CR); [congruence|]. by rewrite IH.
Qed.

(** The text [cleanContent] returns holds no carriage return and no
    run of three line feeds, and is trimmed. *)
Lemma cleanContent_facts (content : str) :
  (CR ∉ cleanContent content)
  /\ shortRuns 0 (cleanContent content) = true
  /\ trim (cleanContent content) = cleanContent content.
Proof.
  unfold cleanContent.
  set (s := collapseLF 0 (replaceCR (replaceCRLF content))).
  destruct (trim_infix s) as (pre & post & Hs & _).
  split; [|split].
  - intros Hin. apply (replaceCR_no_CR (replaceCRLF content)).
    apply (collapseLF_subseteq 0). fold s. rewrite Hs.
    rewrite !elem_of_app. auto.
  - pose proof (collapseLF_shortRuns 0 (replaceCR (replaceCRLF content))) as H.
    fold s in H. change (Nat.min 0 2) with 0%nat in H. rewrite Hs in H.
    apply shortRuns_app in H as [_ H]. by apply shortRuns_app in H as [H _].
  - apply trim_trim.
Qed.

(** X11.  The text [cleanContent] returns holds no carriage return and
    no three line feeds in a row, and neither starts nor ends with white
    space. *)
Theorem cleanContent_normal_form (content : str) :
  (CR ∉ cleanContent content)
  /\ (forall pre post, cleanContent content <> pre ++ [LF; LF; LF] ++ post)
  /\ (forall x r, cleanContent content = x :: r -> is_space x = false)
  /\ (forall r x, cleanContent content = r ++ [x] -> is_space x = false).
Proof.
  destruct (cleanContent_facts content) as (Hcr & Hruns & Htrim).
  split; [done|]. split; [intros pre post; by apply (shortRuns_no_triple 0)|].
  rewrite <- Htrim. apply trim_ends.
Qed.

(** X12.  [cleanContent] is idempotent: cleaning a cleaned text changes
    nothing. *)
Theorem cleanContent_idempotent (content : str) :
  cleanContent (cleanContent content) = cleanContent content.
Proof.
  destruct (cleanContent_facts content) as (Hcr & Hruns & Htrim).
  unfold cleanContent at 1.
  rewrite replaceCRLF_no_CR, replaceCR_no_CR_id by done.
  by rewrite shortRuns_collapseLF.
Qed.

(** ** The digest of padded content *)

(** X13.  [generateContentHash] does not see white space around the
    content: a content and the same content with white space before and
    after it have the same hash. *)
Theorem generateContentHash_padding (sha256hex : str -> str)
  (pre content post : str) :
  forallb is_space pre = true -> forallb is_space post = true ->
  generateContentHash sha256hex (pre ++ content ++ post)
  = generateContentHash sha256hex content.
Proof.
  intros Hpre Hpost. unfold generateContentHash.
  by rewrite trim_padding.
Qed.

Lemma generateContentHash_padding_witness :
  forallb is_space "  " = true /\ forallb is_space [LF] = true
  /\ generateContentHash (fun s => "sha-" ++ s) ("  " ++ "a note" ++ [LF])
     = generateContentHash (fun s => "sha-" ++ s) "a note".
Proof.
  split; [reflexivity|]. split; [reflexivity|].
  apply (generateContentHash_padding (fun s => "sha-" ++ s) "  " "a note" [LF]);
    reflexivity.
Defined.

(** ** The fragment *)

Lemma indexOf_char_None (c : ascii) (s : str) :
  indexOf [c] s = None -> c ∉ s.
Proof.
  induction s as [|x s IH]; cbn; [intros _; apply not_elem_of_nil|].
  destruct (Ascii.eqb_spec c x) as [->|Hne]; [done|].
  destruct (indexOf [c] s); [done|]. intros _.
  apply not_elem_of_cons. split; [done|]. by apply IH.
Qed.

Lemma indexOf_char_Some (c : ascii) (s : str) (i : nat) :
  indexOf [c] s = Some i -> c ∉ take i s.
Proof.
  revert i. induction s as [|x s IH]; intros i; cbn; [done|].
  destruct (Ascii.eqb_spec c x) as [->|Hne].
  - intros [= <-]. apply not_elem_of_nil.
  - destruct (indexOf [c] s) as [j|]; [|done]. cbn. intros [= <-]. cbn.
    apply not_elem_of_cons. split; [done|]. by apply IH.
Qed.

Lemma cleanHref_no_fragment (h : str) : "#"%char ∉ cleanHref h.
Proof.
  unfold cleanHref.
  set (n := stripTrailingSlash (xToTwitter (stripWww h))).
  destruct (indexOf "#" n) as [i|] eqn:Hi.
  - apply (indexOf_char_Some "#"%char) in Hi.
    intros Hin. apply Hi.
    unfold slice, clampIndex in Hin.
    replace (0 <? 0) with false in Hin by reflexivity.
    rewrite (proj2 (Z.ltb_ge (Z.of_nat i) 0)) in Hin by lia.
    rewrite (Z.min_l 0) in Hin by (unfold len; lia).
    change (Z.to_nat 0) with 0%nat in Hin. rewrite drop_0 in Hin.
    apply subseteq_take in Hin as Hn.
    assert (Hle : (length (take (Z.to_nat (Z.min (Z.of_nat i) (len n) - 0)) n)
                   <= i)%nat) by (rewrite length_take; unfold len; lia).
    apply list_elem_of_lookup in Hin as [k Hk].
    apply list_elem_of_lookup. exists k.
    pose proof (lookup_lt_Some _ _ _ Hk) as Hlt.
    rewrite lookup_take_lt in Hk by (rewrite length_take in Hlt; lia).
    rewrite lookup_take_lt by lia. done.
  - by apply (indexOf_char_None "#"%char).
Qed.

(** X14.  When the platform accepts the address, the result of
    [normalizeUrl] holds no fragment: the character [#] does not occur
    in it. *)
Theorem normalizeUrl_no_fragment `{URLPlatform} (url : str) :
  is_Some (URL_new (withScheme url)) ->
  "#"%char ∉ normalizeUrl url.
Proof.
  intros [u Hu]. unfold normalizeUrl. rewrite Hu.
  apply cleanHref_no_fragment.
Qed.

Lemma normalizeUrl_no_fragment_witness :
  is_Some (URL_new (withScheme "example.com/a/#top"))
  /\ "#"%char ∉ normalizeUrl "example.com/a/#top".
Proof.
  assert (Hok : is_Some (URL_new (withScheme "example.com/a/#top")))
    by (by eexists).
  split; [exact Hok|].
  exact (@normalizeUrl_no_fragment plainURL "example.com/a/#top" Hok).
Defined.

End Dedupe.

(* ================================================================== *)
(** * Storage and ingestion (src/kb/storage.ts, src/kb/ingest.ts) *)
(* ================================================================== *)

Module Ingest.

Import JS Effects Dedupe.
Local Open Scope Z_scope.

Abbreviation SourceType := Quality.SourceType.

(** ** Records of src/kb/types.ts *)

Module Source.
(** [KBSource] *)
Record t := mk {
  id : str;
  url : option str;
  title : option str;
  source_type : SourceType;
  summary : option str;
  raw_content : str;
  content_hash : str;
  tags : option (list str);
  created_at : str;
  updated_at : str
}.
End Source.

Module Chunk.
(** [KBChunk] *)
Record t := mk {
  id : Z;
  source_id : str;
  chunk_index : Z;
  content : str;
  embedding : option Embeddings.Buffer;
  embedding_dim : option Z;
  embedding_provider : option str;
  embedding_model : option str;
  created_at : str
}.
End Chunk.

Module Options.
(** [IngestOptions] *)
Record t := mk {
  url : option str;
  content : option str;
  title : option str;
  sourceType : option SourceType;
  tags : option (list str)
}.
End Options.

(** [IngestFailureReason] *)
Inductive IngestFailureReason :=
| duplicate_url
| duplicate_hash
| extraction_failed
| validation_failed
| unknown.

Module Result.
(** [IngestResult] *)
Record t := mk {
  success : bool;
  source_id : option str;
  chunks_count : option Z;
  error : option str;
  reason : option IngestFailureReason;
  existingSourceId : option str;
  updated : option bool
}.
End Result.

(** [ExtractedContent] of the extractors. *)
Record ExtractedContent := mkExtracted {
  extractedTitle : str;
  extractedContent : str
}.

(** The fields [updateSource] may write. *)
Record SourceUpdates := mkSourceUpdates {
  new_url : option str;
  new_title : option str;
  new_summary : option str;
  new_raw_content : option str;
  new_content_hash : option str;
  new_tags : option (list str)
}.

(** ** The state of the process *)

(** The tables [kb_sources] and [kb_chunks], rows in insertion order, and
    the last row identifier given by [AUTOINCREMENT]. *)
Record Store := mkStore {
  kb_sources : list Source.t;
  kb_chunks : list Chunk.t;
  chunk_seq : Z
}.

(** The module variable [db] of the storage ([None] before
    [initKBTables]), the lock directory with the clock and the process
    table, and the flag [ollamaAvailable] of the embedding client. *)
Record KBState := mkKBState {
  db : option Store;
  world : Locks.World;
  ollamaAvailable : bool
}.

Abbreviation KB := (Effects.M KBState).

Definition setDb (d : option Store) (st : KBState) : KBState :=
  mkKBState d (world st) (ollamaAvailable st).
Definition setWorld (w : Locks.World) (st : KBState) : KBState :=
  mkKBState (db st) w (ollamaAvailable st).

(** A call of the lock module, run in the process. *)
Definition onWorld {A} (m : Locks.M A) : KB A := lift world setWorld m.

(** A statement on the open database; it throws before initialisation. *)
Definition onStore {A} (f : Store -> outcome A * Store) : KB A :=
  fun st => match db st with
            | None => (Throw "Database not initialized", st)
            | Some s => let '(r, s') := f s in (r, setDb (Some s') st)
            end.

(** [setAvailable(available)] *)
Definition setAvailable (available : bool) : KB unit :=
  fun st => (Return tt, mkKBState (db st) (world st) available).

(** ** Storage operations (src/kb/storage.ts) *)

Section Storage.
(** What the platform supplies: [Math.random().toString(36).slice(2, 8)]
    and [new Date(ms).toISOString()]. *)
Variable randomSuffix : Store -> str.
Variable toISOString : Z -> str.

Definition isoNow : KB str := fun st => (Return (toISOString (Locks.now (world st))), st).

(** [getSourceByUrl(url)]: the first row with this [url]. *)
Definition getSourceByUrl (url : str) : KB (option Source.t) :=
  onStore (fun s =>
    (Return (List.find (fun r => bool_decide (Source.url r = Some url))
                       (kb_sources s)), s)).

(** [getSourceByHash(contentHash)] *)
Definition getSourceByHash (contentHash : str) : KB (option Source.t) :=
  onStore (fun s =>
    (Return (List.find (fun r => bool_decide (Source.content_hash r = contentHash))
                       (kb_sources s)), s)).

(** [getSourceById(id)] *)
Definition getSourceById (id : str) : KB (option Source.t) :=
  onStore (fun s =>
    (Return (List.find (fun r => bool_decide (Source.id r = id))
                       (kb_sources s)), s)).

(** [createSource(source)]: the [INSERT] fails on a primary key or a
    content hash that a row already has. *)
Definition createSource (url title : option str) (source_type : SourceType)
  (raw_content content_hash : str) (tags : option (list str))
  : KB Source.t :=
  now ← (fun st => (Return (Locks.now (world st)), st)) : KB Z;
  stamp ← isoNow;
  onStore (fun s =>
    let id := "kb-" ++ toString now ++ "-" ++ randomSuffix s in
    let row := Source.mk id url title source_type None raw_content
                         content_hash tags stamp stamp in
    if existsb (fun r => bool_decide (Source.id r = id)) (kb_sources s)
    then (Throw "UNIQUE constraint failed: kb_sources.id", s)
    else if existsb (fun r => bool_decide (Source.content_hash r = content_hash))
                    (kb_sources s)
    then (Throw "UNIQUE constraint failed: kb_sources.content_hash", s)
    else (Return row,
          mkStore (kb_sources s ++ [row]) (kb_chunks s) (chunk_seq s))).

Definition applyUpdates (u : SourceUpdates) (stamp : str) (r : Source.t)
  : Source.t :=
  Source.mk (Source.id r)
    (match new_url u with Some x => Some x | None => Source.url r end)
    (match new_title u with Some x => Some x | None => Source.title r end)
    (Source.source_type r)
    (match new_summary u with Some x => Some x | None => Source.summary r end)
    (default (Source.raw_content r) (new_raw_content u))
    (default (Source.content_hash r) (new_content_hash u))
    (match new_tags u with Some x => Some x | None => Source.tags r end)
    (Source.created_at r)
    stamp.

Definition noUpdates (u : SourceUpdates) : bool :=
  match new_url u, new_title u, new_summary u, new_raw_content u,
        new_content_hash u, new_tags u with
  | None, None, None, None, None, None => true
  | _, _, _, _, _, _ => false
  end.

(** [updateSource(id, updates)]: the [UPDATE] fails when it gives the
    row a content hash that another row has. *)
Definition updateSource (id : str) (updates : SourceUpdates) : KB unit :=
  stamp ← isoNow;
  onStore (fun s =>
    if noUpdates updates then (Return tt, s)
    else
      let clash :=
        match new_content_hash updates with
        | Some h =>
            existsb (fun r => bool_decide (Source.id r = id)) (kb_sources s)
            && existsb (fun r => bool_decide (Source.content_hash r = h)
                                 && negb (bool_decide (Source.id r = id)))
                       (kb_sources s)
        | None => false
        end in
      if clash
      then (Throw "UNIQUE constraint failed: kb_sources.content_hash", s)
      else (Return tt,
            mkStore (map (fun r => if bool_decide (Source.id r = id)
                                   then applyUpdates updates stamp r else r)
                         (kb_sources s))
                    (kb_chunks s) (chunk_seq s))).

(** [deleteSource(id)]: the chunks go with the source (cascade). *)
Definition deleteSource (id : str) : KB unit :=
  onStore (fun s =>
    (Return tt,
     mkStore (List.filter (fun r => negb (bool_decide (Source.id r = id)))
                          (kb_sources s))
             (List.filter (fun c => negb (bool_decide (Chunk.source_id c = id)))
                          (kb_chunks s))
             (chunk_seq s))).

(** [deleteChunksBySourceId(sourceId)] *)
Definition deleteChunksBySourceId (sourceId : str) : KB unit :=
  onStore (fun s =>
    (Return tt,
     mkStore (kb_sources s)
             (List.filter (fun c => negb (bool_decide (Chunk.source_id c = sourceId)))
                          (kb_chunks s))
             (chunk_seq s))).

(** [createChunk(chunk)]: the [INSERT] fails when no source has the
    identifier [source_id] (foreign key). *)
Definition createChunk (source_id : str) (chunk_index : Z) (content : str)
  (embedding : option Embeddings.Buffer) (embedding_dim : option Z)
  (embedding_provider embedding_model : option str) : KB Chunk.t :=
  stamp ← isoNow;
  onStore (fun s =>
    if existsb (fun r => bool_decide (Source.id r = source_id)) (kb_sources s)
    then
      let row := Chunk.mk (chunk_seq s + 1) source_id chunk_index content
                          embedding embedding_dim embedding_provider
                          embedding_model stamp in
      (Return row, mkStore (kb_sources s) (kb_chunks s ++ [row]) (chunk_seq s + 1))
    else (Throw "FOREIGN KEY constraint failed", s)).

(** [countSources()], [countChunks()] *)
Definition countSources : KB Z :=
  onStore (fun s => (Return (len (kb_sources s)), s)).
Definition countChunks : KB Z :=
  onStore (fun s => (Return (len (kb_chunks s)), s)).
End Storage.

(** ** Source-type detection *)

(** Matching from the left: [eatCI p s] consumes the literal [p], letter
    case ignored, and [eatMany1 cls s] one or more characters of a class;
    each gives what is left of [s]. *)
Definition eatCI (p s : str) : option str :=
  if startsWithCI p s then Some (drop (length p) s) else None.

Definition eatMany1 (cls : ascii -> bool) (s : str) : option str :=
  match takeWhile cls s with
  | [] => None
  | t => Some (drop (length t) s)
  end.

(** The classes [\w], [\d] and [[\w-]]. *)
Definition is_word (c : ascii) : bool := is_alnum c || Ascii.eqb c "_"%char.
Definition is_wordOrHyphen (c : ascii) : bool := is_word c || Ascii.eqb c "-"%char.

(** The optional groups [(?:https?:\/\/)?] and [(?:www\.)?]: the matcher
    may take or skip each. *)
Definition schemes : list str :=
  [list_ascii_of_string "https://"; list_ascii_of_string "http://"; []].
Definition wwws : list str := [list_ascii_of_string "www."; []].

(** The pieces of a pattern, matched one after the other. *)
Definition matchSeq (steps : list (str -> option str)) (s : str) : bool :=
  match fold_left (fun acc step => match acc with
                                   | Some r => step r
                                   | None => None
                                   end) steps (Some s) with
  | Some _ => true
  | None => false
  end.

Definition matchesAfterPrefixes (rest : list (list (str -> option str)))
  (url : str) : bool :=
  existsb (fun a =>
    existsb (fun b =>
      existsb (fun steps => matchSeq (eatCI a :: eatCI b :: steps) url) rest)
      wwws) schemes.

(** [/^(?:https?:\/\/)?(?:www\.)?(?:twitter|x)\.com\/[\w]+\/status\/[\d]+/i] *)
Definition isTweetUrl (url : str) : bool :=
  matchesAfterPrefixes
    (map (fun host : str =>
            [eatCI host; eatCI ".com/"; eatMany1 is_word; eatCI "/status/";
             eatMany1 is_digit])
         [list_ascii_of_string "twitter"; list_ascii_of_string "x"]) url.

(** [/^(?:https?:\/\/)?(?:www\.)?(?:youtube\.com\/watch\?v=|youtu\.be\/)[\w-]+/i] *)
Definition isVideoUrl (url : str) : bool :=
  matchesAfterPrefixes
    (map (fun host : str => [eatCI host; eatMany1 is_wordOrHyphen])
         [list_ascii_of_string "youtube.com/watch?v=";
          list_ascii_of_string "youtu.be/"]) url.

(** [/\.pdf$/i] *)
Definition isPdfUrl (url : str) : bool :=
  startsWithCI "fdp." (rev url).

(** [detectSourceType(url)] *)
Definition detectSourceType (url : str) : SourceType :=
  if isTweetUrl url then Quality.tweet
  else if isVideoUrl url then Quality.video
  else if isPdfUrl url then Quality.pdf
  else Quality.article.

(** ** The pipeline (src/kb/ingest.ts) *)

(** The values of src/config.ts that the pipeline reads. *)
Definition configChunkOptions : Chunking.ChunkOptions :=
  Chunking.mkChunkOptions (Some 800) (Some 200) (Some 50).

(** A failure outcome. *)
Definition failure (why : IngestFailureReason) (error : option str)
  (existing : option str) : Result.t :=
  Result.mk false None None error (Some why) existing None.

(** The argument of [finishIngestion]. *)
Record FinishParams := mkFinishParams {
  p_url : option str;
  p_title : option str;
  p_content : str;
  p_sourceType : SourceType;
  p_tags : option (list str);
  p_existingSource : option Source.t
}.

(** [x || fallback] on an optional string: the empty string is falsy. *)
Definition orElse (x : option str) (fallback : str) : str :=
  match x with
  | Some ((_ :: _) as s) => s
  | _ => fallback
  end.

Section Pipeline.
Context `{URLPlatform}.

(** What the surroundings supply: the identifier of the process, the
    extractors (they resolve to [None] on any failure), the digest, the
    platform values of the storage, and the embedding client, whose
    answers depend on the provider: one optional vector for each text. *)
Variable pid : Z.
Variable extractContent : str -> SourceType -> option ExtractedContent.
Variable sha256hex : str -> str.
Variable randomSuffix : Store -> str.
Variable toISOString : Z -> str.
Variable generateEmbeddingsBatch :
  list str -> list (option Embeddings.Float32Array).

(** The loop that stores the chunks whose embedding succeeded; [i] is
    the index of the chunk and [embeddings] what is left from [i] on. *)
Fixpoint storeChunks (source_id : str) (chunks : list str)
  (embeddings : list (option Embeddings.Float32Array)) (i chunksStored : Z)
  : KB Z :=
  match chunks with
  | [] => mret chunksStored
  | chunk :: rest =>
      match embeddings with
      | Some emb :: _ =>
          createChunk toISOString source_id i chunk
            (Some (Embeddings.serializeFloat32 emb))
            (Some (Embeddings.f_length emb))
            (Some (list_ascii_of_string "ollama"))
            (Some (list_ascii_of_string "nomic-embed-text")) ;;
          storeChunks source_id rest (tail embeddings) (i + 1)
                      (chunksStored + 1)
      | _ =>
          storeChunks source_id rest (tail embeddings) (i + 1) chunksStored
      end
  end.

(** [finishIngestion(params)] *)
Definition finishIngestion (params : FinishParams) : KB Result.t :=
  let cleanedContent := cleanContent (p_content params) in
  let validation := Quality.validateContent cleanedContent (p_sourceType params) in
  if negb (Quality.valid validation) then
    mret (failure validation_failed (Quality.reason validation) None)
  else
    let finalContent :=
      match Quality.truncated validation with
      | Some true => slice cleanedContent 0 Quality.MAX_CONTENT_LENGTH
      | _ => cleanedContent
      end in
    let contentHash := generateContentHash sha256hex finalContent in
    existingByHash ←
      match p_existingSource params with
      | None => getSourceByHash contentHash
      | Some _ => mret None
      end;
    match existingByHash with
    | Some dup =>
        mret (failure duplicate_hash
                (Some (list_ascii_of_string "Duplicate content (same hash)"))
                (Some (Source.id dup)))
    | None =>
        source ←
          match p_existingSource params with
          | Some existingSource =>
              updateSource toISOString (Source.id existingSource)
                (mkSourceUpdates (p_url params) (p_title params) None
                                 (Some finalContent) (Some contentHash)
                                 (p_tags params)) ;;
              mret (Source.mk (Source.id existingSource) (p_url params)
                      (p_title params) (Source.source_type existingSource)
                      (Source.summary existingSource) finalContent
                      contentHash (p_tags params)
                      (Source.created_at existingSource)
                      (Source.updated_at existingSource))
          | None =>
              createSource randomSuffix toISOString (p_url params)
                (Some (orElse (p_title params) "Untitled"))
                (p_sourceType params) finalContent contentHash
                (p_tags params)
          end;
        let chunks :=
          default [] (Chunking.chunkText finalContent configChunkOptions) in
        setAvailable true ;;
        let embeddings := generateEmbeddingsBatch chunks in
        chunksStored ← storeChunks (Source.id source) chunks embeddings 0 0;
        mret (Result.mk true (Some (Source.id source)) (Some chunksStored)
                        None None None
                        (Some (bool_decide (is_Some (p_existingSource params)))))
    end.

(** [String(err)] of an [Error] whose name is [Error], as the one
    [getDatabase] throws.  The model keeps the message of a thrown error
    and not its name: an error of the database driver reads
    [SqliteError: ...] on the platform. *)
Definition errorString (msg : str) : str := "Error: " ++ msg.

(** The [catch] clause of both entry points. *)
Definition onUnknown (msg : str) : KB Result.t :=
  mret (failure unknown (Some (errorString msg)) None).

(** [ingestUrlInternal(url, options, forceUpdate)] *)
Definition ingestUrlInternal (url : str) (options : Options.t)
  (forceUpdate : bool) : KB Result.t :=
  release ← onWorld (Locks.acquire "ingest" pid);
  try_finally
    (try_catch
       (let normalizedUrl := normalizeUrl url in
        existingByUrl ← getSourceByUrl normalizedUrl;
        match existingByUrl, forceUpdate with
        | Some existing, false =>
            mret (failure duplicate_url
                    (Some (list_ascii_of_string "URL already ingested"))
                    (Some (Source.id existing)))
        | _, _ =>
            match existingByUrl with
            | Some existing => deleteChunksBySourceId (Source.id existing)
            | None => mret tt
            end ;;
            let sourceType :=
              default (detectSourceType url) (Options.sourceType options) in
            match extractContent url sourceType with
            | None =>
                mret (failure extraction_failed
                        (Some (list_ascii_of_string "Content extraction failed"))
                        None)
            | Some extracted =>
                finishIngestion
                  (mkFinishParams (Some normalizedUrl)
                     (Some (extractedTitle extracted))
                     (extractedContent extracted) sourceType
                     (Options.tags options) existingByUrl)
            end
        end)
       onUnknown)
    (onWorld release).

(** [ingestContentInternal(content, options, forceUpdate)] *)
Definition ingestContentInternal (content : str) (options : Options.t)
  (forceUpdate : bool) : KB Result.t :=
  let sourceType := default Quality.text (Options.sourceType options) in
  let finish (url : option str) (existingSource : option Source.t) :=
    finishIngestion
      (mkFinishParams url (Options.title options) content sourceType
                      (Options.tags options) existingSource) in
  release ← onWorld (Locks.acquire "ingest" pid);
  try_finally
    (try_catch
       (match Options.url options with
        | Some ((_ :: _) as url) =>
            let normalizedUrl := normalizeUrl url in
            existingSource ← getSourceByUrl normalizedUrl;
            match existingSource, forceUpdate with
            | Some existing, false =>
                mret (failure duplicate_url
                        (Some (list_ascii_of_string "URL already ingested"))
                        (Some (Source.id existing)))
            | Some existing, true =>
                deleteChunksBySourceId (Source.id existing) ;;
                finish (Some (normalizeUrl url)) existingSource
            | None, _ => finish (Some (normalizeUrl url)) None
            end
        | _ => finish None None
        end)
       onUnknown)
    (onWorld release).

(** The public entry points. *)
Definition ingestUrl (url : str) (options : Options.t) : KB Result.t :=
  ingestUrlInternal url options false.
Definition updateUrl (url : str) (options : Options.t) : KB Result.t :=
  ingestUrlInternal url options true.
Definition ingestContent (content : str) (options : Options.t) : KB Result.t :=
  ingestContentInternal content options false.
Definition updateContent (content : str) (options : Options.t) : KB Result.t :=
  ingestContentInternal content options true.

(** [deleteKBSource(sourceId)] *)
Definition deleteKBSource (sourceId : str) : KB (bool * option str) :=
  try_catch (deleteSource sourceId ;; mret (true, None))
            (fun msg => mret (false, Some (errorString msg))).
End Pipeline.

(** ** Vocabulary of the properties *)

(** The lock file of the ingestion. *)
Definition ingestLock : str := Locks.lockFileOf "ingest".

(** A call returns an outcome value and leaves no ingest lock behind. *)
Definition releasesLock (call : KB Result.t) : Prop :=
  forall st, exists result st',
    call st = (Return result, st')
    /\ Locks.files (world st') !! ingestLock = None.

(** The store holds [existing] as the source of the address [url]. *)
Definition alreadyIngested `{URLPlatform} (store : Store) (url : str)
  (existing : Source.t) : Prop :=
  List.find (fun r => bool_decide (Source.url r = Some (normalizeUrl url)))
            (kb_sources store) = Some existing.

(** The sources a state holds. *)
Definition sourcesOf (st : KBState) : option (list Source.t) :=
  kb_sources <$> db st.

(** The outcome [duplicate_url] that reports [existing]. *)
Definition duplicateOf (existing : Source.t) : Result.t :=
  failure duplicate_url (Some (list_ascii_of_string "URL already ingested"))
          (Some (Source.id existing)).

(** ** Sample state and surroundings *)

(** A store with one source, ingested from [https://example.com/a]. *)
Definition sampleSource : Source.t :=
  Source.mk "kb-5000-rnd" (Some (list_ascii_of_string "https://example.com/a"))
            (Some (list_ascii_of_string "T")) Quality.article None
            (repeat "A"%char 600) "hash-of-A" None "t5000" "t5000".

Definition sampleStore : Store := mkStore [sampleSource] [] 0.

Definition sampleState : KBState :=
  mkKBState (Some sampleStore) (Locks.mkWorld ∅ 6000 {[ 7 ]}) false.

Definition noOptions : Options.t := Options.mk None None None None None.

Definition optionsWithUrl (url : str) : Options.t :=
  Options.mk (Some url) None None None None.

(** An extractor that finds nothing, a digest, and an embedding client
    that answers every text. *)
Definition noExtractor (url : str) (type : SourceType)
  : option ExtractedContent := None.
Definition sampleDigest (content : str) : str := "hash-of-" ++ take 1 content.
Definition sampleSuffix (s : Store) : str := "rnd".
Definition sampleISO (ms : Z) : str := "t"%char :: toString ms.
Definition sampleEmbeddings (texts : list str)
  : list (option Embeddings.Float32Array) :=
  map (fun _ => Some Embeddings.threeFloats) texts.

(** ** The chunker under the configured options *)

(** With the configured [chunkSize] the chunker returns for every text,
    so the pipeline never meets the fuel bound. *)
Lemma configChunks_total (content : str) :
  is_Some (Chunking.chunkText content configChunkOptions).
Proof.
  apply (Chunking.chunkText_fuel_enough (length content)); [by vm_compute|lia].
Qed.

(** ** C9: the lock is released on every path *)

Lemma release_removes (lockFile : str) (w : Locks.World) :
  exists w', Locks.release lockFile w = (Return tt, w')
    /\ Locks.files w' !! lockFile = None.
Proof.
  unfold Locks.release, mbind, M_bind, bind, Locks.existsSync.
  destruct (Locks.files w !! lockFile) as [f|] eqn:Hf.
  - rewrite bool_decide_eq_true_2 by eauto.
    unfold Locks.unlinkSync. rewrite Hf. eexists. split; [done|].
    cbn. apply lookup_delete_eq.
  - rewrite bool_decide_eq_false_2 by (intros [? ?]; congruence).
    exists w. done.
Qed.

(** A body wrapped in [try ... catch] with the catch-all clause of the
    entry points returns an outcome value. *)
Lemma try_catch_onUnknown_returns (body : KB Result.t) (st : KBState) :
  exists result st', try_catch body onUnknown st = (Return result, st').
Proof.
  unfold try_catch. destruct (body st) as [[r|msg] st']; [by eauto|].
  unfold onUnknown. cbn. by eauto.
Qed.

(** The frame of both entry points: acquire, run the body under
    [try ... catch ... finally], release. *)
Lemma locked_call_releases (pid : Z) (body : KB Result.t) :
  releasesLock
    (release ← onWorld (Locks.acquire "ingest" pid);
     try_finally (try_catch body onUnknown) (onWorld release)).
Proof.
  intros st. unfold mbind, M_bind, bind, onWorld, lift.
  destruct (Locks.acquire_returns "ingest" pid (world st))
    as (w1 & -> & _).
  destruct (try_catch_onUnknown_returns body (setWorld w1 st))
    as (result & st2 & Hbody).
  unfold try_finally. rewrite Hbody.
  destruct (release_removes (Locks.lockFileOf "ingest") (world st2))
    as (w3 & -> & Hgone).
  exists result, (setWorld w3 st2). done.
Qed.

Section PipelineFacts.
Context `{URLPlatform}.
Variable pid : Z.
Variable extractContent : str -> SourceType -> option ExtractedContent.
Variable sha256hex : str -> str.
Variable randomSuffix : Store -> str.
Variable toISOString : Z -> str.
Variable generateEmbeddingsBatch :
  list str -> list (option Embeddings.Float32Array).

Lemma ingestUrlInternal_releases url options forceUpdate :
  releasesLock
    (ingestUrlInternal pid extractContent sha256hex randomSuffix
       toISOString generateEmbeddingsBatch url options forceUpdate).
Proof. apply locked_call_releases. Qed.

Lemma ingestContentInternal_releases content options forceUpdate :
  releasesLock
    (ingestContentInternal pid sha256hex randomSuffix toISOString
       generateEmbeddingsBatch content options forceUpdate).
Proof. apply locked_call_releases. Qed.

(** C9.  Each of [ingestUrl], [updateUrl], [ingestContent] and
    [updateContent], from any state and whatever the extractor, the
    digest and the embedding client answer, takes the ingest lock,
    returns an outcome value (success, a structured failure, or
    [unknown] for an error thrown inside) and leaves no ingest lock
    file behind. *)
Theorem ingestion_releases_lock (url content : str) (options : Options.t) :
  releasesLock (ingestUrl pid extractContent sha256hex randomSuffix
                  toISOString generateEmbeddingsBatch url options)
  /\ releasesLock (updateUrl pid extractContent sha256hex randomSuffix
                     toISOString generateEmbeddingsBatch url options)
  /\ releasesLock (ingestContent pid sha256hex randomSuffix toISOString
                     generateEmbeddingsBatch content options)
  /\ releasesLock (updateContent pid sha256hex randomSuffix toISOString
                     generateEmbeddingsBatch content options).
Proof.
  repeat split;
    first [apply ingestUrlInternal_releases
          |apply ingestContentInternal_releases].
Qed.
End PipelineFacts.

(** ** C6: a second ingestion of an address *)

Lemma setDb_same (st : KBState) (store : Store) :
  db st = Some store -> setDb (Some store) st = st.
Proof. destruct st. cbn. by intros ->. Qed.

Lemma getSourceByUrl_run (st : KBState) (store : Store) (url : str) :
  db st = Some store ->
  getSourceByUrl url st
  = (Return (List.find (fun r => bool_decide (Source.url r = Some url))
                       (kb_sources store)), st).
Proof.
  intros Hdb. unfold getSourceByUrl, onStore. rewrite Hdb.
  by rewrite setDb_same.
Qed.

(** The frame of the entry points, when the body returns without
    touching the store. *)
Lemma locked_call_pure (pid : Z) (body : KB Result.t) (result : Result.t) :
  (forall st, body st = (Return result, st)) ->
  forall st, exists st',
    (release ← onWorld (Locks.acquire "ingest" pid);
     try_finally (try_catch body onUnknown) (onWorld release)) st
    = (Return result, st')
    /\ db st' = db st.
Proof.
  intros Hbody st. unfold mbind, M_bind, bind, onWorld, lift.
  destruct (Locks.acquire_returns "ingest" pid (world st))
    as (w1 & -> & _).
  unfold try_finally, try_catch. rewrite Hbody.
  destruct (release_removes (Locks.lockFileOf "ingest")
              (world (setWorld w1 st))) as (w3 & -> & _).
  by eexists.
Qed.

Section DuplicateUrl.
Context `{URLPlatform}.
Variable pid : Z.
Variable extractContent : str -> SourceType -> option ExtractedContent.
Variable sha256hex : str -> str.
Variable randomSuffix : Store -> str.
Variable toISOString : Z -> str.
Variable generateEmbeddingsBatch :
  list str -> list (option Embeddings.Float32Array).

Lemma ingestUrl_duplicate st store existing url options :
  db st = Some store -> alreadyIngested store url existing ->
  exists st',
    ingestUrl pid extractContent sha256hex randomSuffix toISOString
              generateEmbeddingsBatch url options st
    = (Return (duplicateOf existing), st')
    /\ db st' = db st.
Proof.
  intros Hdb Hfound. unfold ingestUrl, ingestUrlInternal.
  unfold mbind at 1. unfold M_bind, bind at 1. unfold onWorld, lift.
  destruct (Locks.acquire_returns "ingest" pid (world st)) as (w1 & -> & _).
  unfold try_finally, try_catch.
  unfold mbind at 1. unfold M_bind, bind at 1.
  rewrite (getSourceByUrl_run _ store) by done. rewrite Hfound. cbn [mret M_ret ret].
  destruct (release_removes (Locks.lockFileOf "ingest")
              (world (setWorld w1 st))) as (w3 & -> & _).
  by eexists.
Qed.

Lemma ingestContent_duplicate st store existing url content options :
  db st = Some store -> alreadyIngested store url existing ->
  Options.url options = Some url -> url <> [] ->
  exists st',
    ingestContent pid sha256hex randomSuffix toISOString
                  generateEmbeddingsBatch content options st
    = (Return (duplicateOf existing), st')
    /\ db st' = db st.
Proof.
  intros Hdb Hfound Hurl Hne. unfold ingestContent, ingestContentInternal.
  rewrite Hurl. destruct url as [|c url]; [done|]. cbv zeta.
  unfold mbind at 1. unfold M_bind, bind at 1. unfold onWorld, lift.
  destruct (Locks.acquire_returns "ingest" pid (world st)) as (w1 & -> & _).
  unfold try_finally, try_catch.
  unfold mbind at 1. unfold M_bind, bind at 1.
  rewrite (getSourceByUrl_run _ store) by done. rewrite Hfound. cbn [mret M_ret ret].
  destruct (release_removes (Locks.lockFileOf "ingest")
              (world (setWorld w1 st))) as (w3 & -> & _).
  by eexists.
Qed.

(** C6.  When the store holds a source for an address, an ingestion
    without [forceUpdate] of any address with the same normal form, by
    [ingestUrl] or by [ingestContent] with that address in its options,
    returns the failure [duplicate_url] with the identifier of that
    source and leaves the store as it was: no row is added and none is
    changed. *)
Theorem duplicate_url_leaves_store
  (st : KBState) (store : Store) (existing : Source.t) (url url' : str) :
  db st = Some store ->
  alreadyIngested store url existing ->
  normalizeUrl url' = normalizeUrl url ->
  (forall options, exists st',
     ingestUrl pid extractContent sha256hex randomSuffix toISOString
               generateEmbeddingsBatch url' options st
     = (Return (duplicateOf existing), st')
     /\ db st' = Some store)
  /\ (forall content options,
        Options.url options = Some url' -> url' <> [] ->
        exists st',
          ingestContent pid sha256hex randomSuffix toISOString
                        generateEmbeddingsBatch content options st
          = (Return (duplicateOf existing), st')
          /\ db st' = Some store).
Proof.
  intros Hdb Hfound Hsame.
  assert (Hfound' : alreadyIngested store url' existing)
    by (unfold alreadyIngested in *; by rewrite Hsame).
  split.
  - intros options.
    destruct (ingestUrl_duplicate st store existing url' options Hdb Hfound')
      as (st' & Hrun & Hst).
    exists st'. by rewrite Hst.
  - intros content options Hurl Hne.
    destruct (ingestContent_duplicate st store existing url' content options
                Hdb Hfound' Hurl Hne) as (st' & Hrun & Hst).
    exists st'. by rewrite Hst.
Qed.
End DuplicateUrl.

Lemma duplicate_url_leaves_store_witness :
  db sampleState = Some sampleStore
  /\ alreadyIngested sampleStore "https://example.com/a" sampleSource
  /\ normalizeUrl "www.example.com/a/?utm_source=feed"
     = normalizeUrl "https://example.com/a"
  /\ (forall options, exists st',
        ingestUrl 7 noExtractor sampleDigest sampleSuffix sampleISO
                  sampleEmbeddings "www.example.com/a/?utm_source=feed"
                  options sampleState
        = (Return (duplicateOf sampleSource), st')
        /\ db st' = Some sampleStore)
  /\ (forall content options,
        Options.url options
        = Some (list_ascii_of_string "www.example.com/a/?utm_source=feed") ->
        list_ascii_of_string "www.example.com/a/?utm_source=feed" <> [] ->
        exists st',
          ingestContent 7 sampleDigest sampleSuffix sampleISO
                        sampleEmbeddings content options sampleState
          = (Return (duplicateOf sampleSource), st')
          /\ db st' = Some sampleStore).
Proof.
  split; [reflexivity|]. split; [by vm_compute|]. split; [by vm_compute|].
  apply (duplicate_url_leaves_store 7 noExtractor sampleDigest sampleSuffix
           sampleISO sampleEmbeddings sampleState sampleStore sampleSource
           "https://example.com/a" "www.example.com/a/?utm_source=feed");
    by vm_compute.
Defined.

(** ** From a first ingestion to the second *)

Lemma createChunk_sources toISOString sid i chunk e d p m st o st' :
  createChunk toISOString sid i chunk e d p m st = (o, st') ->
  sourcesOf st' = sourcesOf st.
Proof.
  unfold createChunk, mbind, M_bind, bind, isoNow, onStore, sourcesOf.
  destruct (db st) as [s|] eqn:Hdb; [|by intros [= <- <-]; rewrite Hdb].
  destruct (existsb _ _); intros [= <- <-]; done.
Qed.

Section FirstIngestion.
Context `{URLPlatform}.
Variable pid : Z.
Variable extractContent : str -> SourceType -> option ExtractedContent.
Variable sha256hex : str -> str.
Variable randomSuffix : Store -> str.
Variable toISOString : Z -> str.
Variable generateEmbeddingsBatch :
  list str -> list (option Embeddings.Float32Array).

Lemma storeChunks_sources sid chunks embeddings i n st o st' :
  storeChunks toISOString sid chunks embeddings i n st = (o, st') ->
  sourcesOf st' = sourcesOf st.
Proof.
  revert embeddings i n st.
  induction chunks as [|chunk rest IH]; intros embeddings i n st; cbn.
  - by intros [= <- <-].
  - destruct embeddings as [|[emb|] embeddings]; cbn; try apply IH.
    unfold mbind, M_bind, bind.
    destruct (createChunk _ _ _ _ _ _ _ _ st) as [[c|msg] st1] eqn:Hc.
    + intros Hrest%IH. rewrite Hrest. by eapply createChunk_sources.
    + intros [= <- <-]. by eapply createChunk_sources.
Qed.

(** A successful [finishIngestion] of a new source adds one row, at the
    end of the table, with the address it was given. *)
Lemma finishIngestion_created params st result st' :
  p_existingSource params = None ->
  finishIngestion sha256hex randomSuffix toISOString generateEmbeddingsBatch
                  params st = (Return result, st') ->
  Result.success result = true ->
  exists old row,
    sourcesOf st = Some old /\ sourcesOf st' = Some (old ++ [row])
    /\ Source.url row = p_url params
    /\ Result.source_id result = Some (Source.id row).
Proof.
  intros Hnew. unfold finishIngestion. rewrite Hnew.
  destruct (negb _); [by intros [= <- <-]|].
  unfold mbind, M_bind, bind.
  unfold getSourceByHash at 1. unfold onStore at 1.
  destruct (db st) as [s|] eqn:Hdb; [|done].
  destruct (List.find _ (kb_sources s)) as [dup|]; [by intros [= <- <-]|].
  unfold createSource, mbind, M_bind, bind, isoNow, onStore. cbn [db setDb].
  destruct (existsb _ (kb_sources s)); [done|].
  destruct (existsb _ (kb_sources s)); [done|].
  unfold setAvailable. cbn [db world setDb].
  match goal with
  | |- context [storeChunks ?t ?sid ?cs ?es ?i ?n ?st0] =>
      destruct (storeChunks t sid cs es i n st0) as [[k|msg] st2] eqn:Hstore
  end; [|done].
  apply storeChunks_sources in Hstore.
  intros [= <- <-] _. eexists _, _.
  split; [unfold sourcesOf; by rewrite Hdb|].
  split; [exact Hstore|]. done.
Qed.

Lemma find_app_new {A} (f : A -> bool) (l : list A) (x : A) :
  List.find f l = None -> f x = true -> List.find f (l ++ [x]) = Some x.
Proof.
  induction l as [|y l IH]; cbn; [by intros _ ->|].
  destruct (f y); [done|]. exact IH.
Qed.

(** After a successful [ingestUrl] the store holds a source for the
    address, with the identifier the call returned. *)
Lemma ingestUrl_success_alreadyIngested url options st result st1 :
  ingestUrl pid extractContent sha256hex randomSuffix toISOString
            generateEmbeddingsBatch url options st = (Return result, st1) ->
  Result.success result = true ->
  exists store1 source,
    db st1 = Some store1 /\ alreadyIngested store1 url source
    /\ Result.source_id result = Some (Source.id source)
    /\ exists old, sourcesOf st = Some old /\ kb_sources store1 = old ++ [source].
Proof.
  unfold ingestUrl, ingestUrlInternal.
  unfold mbind at 1. unfold M_bind, bind at 1. unfold onWorld, lift.
  destruct (Locks.acquire_returns "ingest" pid (world st)) as (w1 & -> & _).
  unfold try_finally.
  match goal with
  | |- context [try_catch ?b onUnknown ?s] =>
      destruct (try_catch b onUnknown s) as [o st2] eqn:Htry
  end.
  destruct (release_removes (Locks.lockFileOf "ingest") (world st2))
    as (w3 & -> & _).
  intros [= -> <-] Hsuccess. cbn [db setWorld].
  unfold try_catch in Htry.
  match type of Htry with
  | (let (_, _) := ?b ?s in _) = _ =>
      destruct (b s) as [[a|msg] st3] eqn:Hbody
  end; [|unfold onUnknown in Htry; cbn in Htry;
         injection Htry as <- <-; done].
  injection Htry as -> ->.
  unfold mbind at 1 in Hbody. unfold M_bind, bind at 1 in Hbody.
  unfold getSourceByUrl at 1, onStore at 1 in Hbody. cbn [db setWorld] in Hbody.
  destruct (db st) as [store|] eqn:Hdb; [|done].
  destruct (List.find _ (kb_sources store)) as [existing|] eqn:Hfind.
  { cbn in Hbody. injection Hbody as <- <-. done. }
  unfold mbind at 1 in Hbody. unfold M_bind, bind at 1 in Hbody.
  cbn [mret M_ret ret] in Hbody.
  destruct (extractContent url _) as [extracted|];
    [|cbn in Hbody; injection Hbody as <- <-; done].
  apply finishIngestion_created in Hbody as (old & row & Hold & Hnew & Hurl & Hid);
    [|done|done].
  unfold sourcesOf in Hold, Hnew. cbn [db setDb setWorld] in Hold.
  injection Hold as <-.
  destruct (db st2) as [store1|]; [|done]. cbn in Hnew. injection Hnew as Hnew.
  exists store1, row. split; [done|]. split; [|split; [done|]].
  - unfold alreadyIngested. rewrite Hnew. apply find_app_new; [exact Hfind|].
    cbn in Hurl. by rewrite Hurl, bool_decide_eq_true_2.
  - exists (kb_sources store). unfold sourcesOf. by rewrite Hdb.
Qed.

(** Ingesting an address twice: when the first [ingestUrl] succeeds, a
    second one, of any address with the same normal form, fails with
    [duplicate_url], reports the source the first created and leaves the
    store as the first left it. *)
Lemma ingestUrl_twice url url' options options' st result st1 :
  ingestUrl pid extractContent sha256hex randomSuffix toISOString
            generateEmbeddingsBatch url options st = (Return result, st1) ->
  Result.success result = true ->
  normalizeUrl url' = normalizeUrl url ->
  exists result' st2,
    ingestUrl pid extractContent sha256hex randomSuffix toISOString
              generateEmbeddingsBatch url' options' st1 = (Return result', st2)
    /\ Result.reason result' = Some duplicate_url
    /\ Result.existingSourceId result' = Result.source_id result
    /\ db st2 = db st1.
Proof.
  intros Hfirst Hsuccess Hsame.
  destruct (ingestUrl_success_alreadyIngested _ _ _ _ _ Hfirst Hsuccess)
    as (store1 & source & Hdb & Hin & Hid & _).
  assert (Hin' : alreadyIngested store1 url' source)
    by (unfold alreadyIngested in *; by rewrite Hsame).
  destruct (ingestUrl_duplicate pid extractContent sha256hex randomSuffix
              toISOString generateEmbeddingsBatch st1 store1 source url'
              options' Hdb Hin') as (st2 & Hrun & Hst).
  exists (duplicateOf source), st2. by rewrite Hid.
Qed.
End FirstIngestion.

(** ** The integrity of the store *)

(** What the schema asks of the two tables: source identifiers and
    content hashes are unique, chunk identifiers are unique and were
    given by the counter, and every chunk belongs to a source. *)
Record wellFormed (s : Store) : Prop := mkWellFormed {
  wf_ids : NoDup (map Source.id (kb_sources s));
  wf_hashes : NoDup (map Source.content_hash (kb_sources s));
  wf_chunk_ids : NoDup (map Chunk.id (kb_chunks s));
  wf_seq : Forall (fun c => Chunk.id c <= chunk_seq s) (kb_chunks s);
  wf_owner : Forall (fun c => Chunk.source_id c ∈ map Source.id (kb_sources s))
                    (kb_chunks s)
}.

(** The store of a state is well formed; a state without database
    counts as such. *)
Definition intact (st : KBState) : Prop :=
  match db st with
  | Some s => wellFormed s
  | None => True
  end.

(** A call keeps a property of the state, whether it returns or throws. *)
Definition keeps {A} (P : KBState -> Prop) (m : KB A) : Prop :=
  forall st o st', P st -> m st = (o, st') -> P st'.

Lemma keeps_ret {A} (P : KBState -> Prop) (a : A) : keeps P (mret a).
Proof. by intros st o st' HP [= <- <-]. Qed.

Lemma keeps_bind {A B} (P : KBState -> Prop) (m : KB A) (k : A -> KB B) :
  keeps P m -> (forall a, keeps P (k a)) -> keeps P (m ≫= k).
Proof.
  intros Hm Hk st o st' HP. unfold mbind, M_bind, bind.
  destruct (m st) as [[a|msg] st1] eqn:Hrun.
  - apply (Hk a). by apply (Hm st _ _ HP Hrun).
  - intros [= <- <-]. by apply (Hm st _ _ HP Hrun).
Qed.

Lemma keeps_try_catch {A} (P : KBState -> Prop) (body : KB A)
  (handler : str -> KB A) :
  keeps P body -> (forall msg, keeps P (handler msg)) ->
  keeps P (try_catch body handler).
Proof.
  intros Hbody Hh st o st' HP. unfold try_catch.
  destruct (body st) as [[a|msg] st1] eqn:Hrun.
  - intros [= <- <-]. by apply (Hbody st _ _ HP Hrun).
  - apply (Hh msg). by apply (Hbody st _ _ HP Hrun).
Qed.

Lemma keeps_try_finally {A} (P : KBState -> Prop) (body : KB A)
  (finalizer : KB unit) :
  keeps P body -> keeps P finalizer -> keeps P (try_finally body finalizer).
Proof.
  intros Hbody Hf st o st' HP. unfold try_finally.
  destruct (body st) as [r st1] eqn:Hrun.
  destruct (finalizer st1) as [[[]|msg] st2] eqn:Hfin;
    intros [= <- <-]; apply (Hf st1 _ _ (Hbody st _ _ HP Hrun) Hfin).
Qed.

(** Calls of the lock module and the availability flag leave the
    database alone. *)
Lemma keeps_onWorld {A} (m : Locks.M A) : keeps intact (onWorld m).
Proof.
  intros st o st' HP. unfold onWorld, lift.
  destruct (m (world st)) as [r w]. by intros [= <- <-].
Qed.

Lemma keeps_setAvailable (b : bool) : keeps intact (setAvailable b).
Proof. by intros st o st' HP [= <- <-]. Qed.

(** A statement on the open database keeps the store well formed when it
    does so on every well-formed store. *)
Lemma keeps_onStore {A} (f : Store -> outcome A * Store) :
  (forall s, wellFormed s -> wellFormed (snd (f s))) ->
  keeps intact (onStore f).
Proof.
  intros Hf st o st' HP. unfold onStore, intact in *.
  destruct (db st) as [s|] eqn:Hdb.
  - specialize (Hf s HP). destruct (f s) as [r s']. by intros [= <- <-].
  - intros [= <- <-]. by rewrite Hdb.
Qed.

Lemma NoDup_snoc {A} (l : list A) (x : A) :
  NoDup l -> x ∉ l -> NoDup (l ++ [x]).
Proof.
  intros Hl Hx. apply NoDup_app. split; [done|]. split.
  - intros y Hy Hyx. apply list_elem_of_singleton in Hyx. by subst.
  - apply NoDup_singleton.
Qed.

Lemma existsb_false_not_elem_of {A B} `{EqDecision B} (f : A -> B) (b : B)
  (l : list A) :
  existsb (fun r => bool_decide (f r = b)) l = false -> b ∉ map f l.
Proof.
  intros Hno (r & -> & Hr)%list_elem_of_fmap.
  assert (existsb (fun r' => bool_decide (f r' = f r)) l = true); [|congruence].
  apply existsb_exists. exists r. split; [by apply list_elem_of_In|].
  by apply bool_decide_eq_true_2.
Qed.

Lemma existsb_true_elem_of {A B} `{EqDecision B} (f : A -> B) (b : B)
  (l : list A) :
  existsb (fun r => bool_decide (f r = b)) l = true -> b ∈ map f l.
Proof.
  intros (r & Hr & Heq)%existsb_exists. apply bool_decide_eq_true_1 in Heq.
  apply list_elem_of_fmap. exists r. split; [done|by apply list_elem_of_In].
Qed.

Lemma NoDup_map_filter {A B} (f : A -> B) (p : A -> bool) (l : list A) :
  NoDup (map f l) -> NoDup (map f (List.filter p l)).
Proof.
  induction l as [|x l IH]; cbn; [done|].
  intros [Hx Hl]%NoDup_cons. destruct (p x); cbn; [|by apply IH].
  apply NoDup_cons. split; [|by apply IH].
  intros (y & Hy & Hin)%list_elem_of_fmap. apply Hx.
  apply list_elem_of_fmap. exists y. split; [done|].
  apply list_elem_of_In in Hin. apply List.filter_In in Hin as [Hin _].
  by apply list_elem_of_In.
Qed.

Section StorageIntegrity.
Variable randomSuffix : Store -> str.
Variable toISOString : Z -> str.

Lemma keeps_isoNow : keeps intact (isoNow toISOString).
Proof. by intros st o st' HP [= <- <-]. Qed.

Lemma keeps_lookups (url hash id : str) :
  keeps intact (getSourceByUrl url) /\ keeps intact (getSourceByHash hash)
  /\ keeps intact (getSourceById id) /\ keeps intact countSources
  /\ keeps intact countChunks.
Proof. repeat split; by apply keeps_onStore. Qed.

Lemma keeps_createSource url title type raw hash tags :
  keeps intact (createSource randomSuffix toISOString url title type raw hash tags).
Proof.
  unfold createSource. apply keeps_bind; [by intros st o st' HP [= <- <-]|].
  intros now. apply keeps_bind; [apply keeps_isoNow|]. intros stamp.
  apply keeps_onStore. intros s [Hids Hhashes Hcids Hseq Hown]. cbv zeta.
  destruct (existsb _ (kb_sources s)) eqn:Hid; [done|].
  destruct (existsb (fun r => bool_decide (Source.content_hash r = hash))
                    (kb_sources s)) eqn:Hhash; [done|].
  apply existsb_false_not_elem_of in Hid, Hhash.
  cbn [snd]. split; cbn [kb_sources kb_chunks chunk_seq]; try done.
  - rewrite map_app. by apply NoDup_snoc.
  - rewrite map_app. by apply NoDup_snoc.
  - eapply Forall_impl; [exact Hown|]. cbn. intros c Hc.
    rewrite map_app. apply elem_of_app. by left.
Qed.

Lemma applyUpdates_id u stamp r : Source.id (applyUpdates u stamp r) = Source.id r.
Proof. done. Qed.

Lemma keeps_updateSource id updates :
  keeps intact (updateSource toISOString id updates).
Proof.
  unfold updateSource. apply keeps_bind; [apply keeps_isoNow|]. intros stamp.
  apply keeps_onStore. intros s [Hids Hhashes Hcids Hseq Hown]. cbv zeta.
  destruct (noUpdates updates); [done|].
  set (f := fun r => if bool_decide (Source.id r = id)
                     then applyUpdates updates stamp r else r).
  match goal with |- context [if ?c then _ else _] =>
    destruct c eqn:Hclash end; [done|].
  cbn [snd].
  assert (Hsame : map Source.id (map f (kb_sources s))
                  = map Source.id (kb_sources s)).
  { rewrite map_map. apply map_ext. intros r. unfold f.
    by case_bool_decide. }
  split; cbn [kb_sources kb_chunks chunk_seq]; try done;
    [by rewrite Hsame| |by rewrite Hsame].
  destruct (new_content_hash updates) as [h|] eqn:Hh.
  - destruct (existsb (fun r => bool_decide (Source.id r = id)) (kb_sources s))
      eqn:Hexists.
    + cbn [andb] in Hclash.
      assert (Hother : forall r, r ∈ kb_sources s ->
                Source.content_hash r = h -> Source.id r = id).
      { intros r Hr Hrh. destruct (decide (Source.id r = id)); [done|].
        assert (existsb (fun r => bool_decide (Source.content_hash r = h)
                                  && negb (bool_decide (Source.id r = id)))
                        (kb_sources s) = true); [|congruence].
        apply existsb_exists. exists r. split; [by apply list_elem_of_In|].
        by rewrite bool_decide_eq_true_2, bool_decide_eq_false_2. }
      clear Hclash Hexists Hsame Hown Hseq Hcids.
      induction (kb_sources s) as [|x l IH]; [constructor|].
      cbn in Hids, Hhashes. apply NoDup_cons in Hids as [Hx Hids].
      apply NoDup_cons in Hhashes as [Hxh Hhashes].
      cbn. apply NoDup_cons. split.
      * intros (y & Hy & Hin)%list_elem_of_fmap.
        apply list_elem_of_fmap in Hin as (z & -> & Hz).
        unfold f in Hy at 1. unfold f in Hy.
        destruct (decide (Source.id x = id)) as [Hxid|Hxid];
          destruct (decide (Source.id z = id)) as [Hzid|Hzid];
          rewrite ?(bool_decide_eq_true_2 _ Hxid),
                  ?(bool_decide_eq_false_2 _ Hxid),
                  ?(bool_decide_eq_true_2 _ Hzid),
                  ?(bool_decide_eq_false_2 _ Hzid) in Hy.
        -- apply Hx. apply list_elem_of_fmap. exists z. split; [congruence|done].
        -- cbn in Hy. rewrite Hh in Hy. cbn in Hy.
           apply Hzid, Hother; [by right|done].
        -- cbn in Hy. rewrite Hh in Hy. cbn in Hy.
           apply Hxid, Hother; [by left|done].
        -- apply Hxh. apply list_elem_of_fmap. by exists z.
      * apply IH; try done. intros r Hr. apply Hother. by right.
    + assert (Hid : map f (kb_sources s) = kb_sources s).
      { rewrite <- (map_id (kb_sources s)) at 2. apply map_ext_in.
        intros r Hr. unfold f. case_bool_decide as Hrid; [|done].
        exfalso. apply existsb_false_not_elem_of in Hexists. apply Hexists.
        apply list_elem_of_fmap. exists r.
        split; [done|by apply list_elem_of_In]. }
      by rewrite Hid.
  - assert (Hkeep : map Source.content_hash (map f (kb_sources s))
                    = map Source.content_hash (kb_sources s)).
    { rewrite map_map. apply map_ext. intros r. unfold f.
      case_bool_decide; [|done]. cbn. by rewrite Hh. }
    by rewrite Hkeep.
Qed.

Lemma keeps_deleteSource id : keeps intact (deleteSource id).
Proof.
  apply keeps_onStore. intros s [Hids Hhashes Hcids Hseq Hown].
  cbn [snd]. split; cbn [kb_sources kb_chunks chunk_seq].
  - by apply NoDup_map_filter.
  - by apply NoDup_map_filter.
  - by apply NoDup_map_filter.
  - apply Forall_forall. intros c Hc.
    apply list_elem_of_In, List.filter_In in Hc as [Hc _].
    by apply (proj1 (Forall_forall _ _) Hseq), list_elem_of_In.
  - apply Forall_forall. intros c Hc.
    apply list_elem_of_In, List.filter_In in Hc as [Hc Hne].
    apply negb_true_iff, bool_decide_eq_false_1 in Hne.
    apply list_elem_of_In in Hc.
    pose proof (proj1 (Forall_forall _ _) Hown c Hc) as Hin.
    apply list_elem_of_fmap in Hin as (r & Hr & Hin).
    apply list_elem_of_fmap. exists r. split; [done|].
    apply list_elem_of_In, List.filter_In. split; [by apply list_elem_of_In|].
    apply negb_true_iff, bool_decide_eq_false_2. congruence.
Qed.

Lemma keeps_deleteChunksBySourceId id :
  keeps intact (deleteChunksBySourceId id).
Proof.
  apply keeps_onStore. intros s [Hids Hhashes Hcids Hseq Hown].
  cbn [snd]. split; cbn [kb_sources kb_chunks chunk_seq]; try done.
  - by apply NoDup_map_filter.
  - apply Forall_forall. intros c Hc.
    apply list_elem_of_In, List.filter_In in Hc as [Hc _].
    by apply (proj1 (Forall_forall _ _) Hseq), list_elem_of_In.
  - apply Forall_forall. intros c Hc.
    apply list_elem_of_In, List.filter_In in Hc as [Hc _].
    by apply (proj1 (Forall_forall _ _) Hown), list_elem_of_In.
Qed.

Lemma keeps_createChunk sid i content e d p m :
  keeps intact (createChunk toISOString sid i content e d p m).
Proof.
  unfold createChunk. apply keeps_bind; [apply keeps_isoNow|]. intros stamp.
  apply keeps_onStore. intros s [Hids Hhashes Hcids Hseq Hown]. cbv zeta.
  destruct (existsb _ (kb_sources s)) eqn:Hsrc; [|done].
  apply existsb_true_elem_of in Hsrc.
  cbn [snd]. split; cbn [kb_sources kb_chunks chunk_seq]; try done.
  - rewrite map_app. apply NoDup_snoc; [done|]. cbn.
    intros (c & Hc & Hin)%list_elem_of_fmap.
    pose proof (proj1 (Forall_forall _ _) Hseq c Hin) as Hle. cbn in Hle. lia.
  - apply Forall_app. split.
    + eapply Forall_impl; [exact Hseq|]. cbn. intros; lia.
    + constructor; [cbn; lia|constructor].
  - apply Forall_app. split; [done|]. by constructor.
Qed.

End StorageIntegrity.

(** ** Runs of the storage operations *)

Lemma setDb_setDb (d1 d2 : option Store) (st : KBState) :
  setDb d2 (setDb d1 st) = setDb d2 st.
Proof. done. Qed.

Lemma getSourceByHash_run (st : KBState) (store : Store) (hash : str) :
  db st = Some store ->
  getSourceByHash hash st
  = (Return (List.find (fun r => bool_decide (Source.content_hash r = hash))
                       (kb_sources store)), st).
Proof.
  intros Hdb. unfold getSourceByHash, onStore. rewrite Hdb.
  by rewrite setDb_same.
Qed.

Lemma getSourceById_run (st : KBState) (store : Store) (id : str) :
  db st = Some store ->
  getSourceById id st
  = (Return (List.find (fun r => bool_decide (Source.id r = id))
                       (kb_sources store)), st).
Proof.
  intros Hdb. unfold getSourceById, onStore. rewrite Hdb.
  by rewrite setDb_same.
Qed.

Lemma find_none_not_elem_of {A B} `{EqDecision B} (f : A -> B) (b : B)
  (l : list A) :
  List.find (fun r => bool_decide (f r = b)) l = None -> b ∉ map f l.
Proof.
  intros Hno (r & -> & Hr)%list_elem_of_fmap.
  apply list_elem_of_In in Hr.
  pose proof (List.find_none _ _ Hno r Hr) as Hf. cbn in Hf.
  by rewrite bool_decide_eq_true_2 in Hf.
Qed.

Lemma not_elem_of_existsb_false {A B} `{EqDecision B} (f : A -> B) (b : B)
  (l : list A) :
  b ∉ map f l -> existsb (fun r => bool_decide (f r = b)) l = false.
Proof.
  intros Hno. destruct (existsb _ l) eqn:He; [|done].
  by apply existsb_true_elem_of in He.
Qed.

Lemma elem_of_existsb_true {A B} `{EqDecision B} (f : A -> B) (b : B)
  (l : list A) :
  b ∈ map f l -> existsb (fun r => bool_decide (f r = b)) l = true.
Proof.
  intros Hin. destruct (existsb _ l) eqn:He; [done|].
  by apply existsb_false_not_elem_of in He.
Qed.

Section StorageRuns.
Variable randomSuffix : Store -> str.
Variable toISOString : Z -> str.

(** The row [createSource] writes in the state [st] with the store [s]. *)
Definition newSourceRow (st : KBState) (s : Store) (url title : option str)
  (type : SourceType) (raw hash : str) (tags : option (list str)) : Source.t :=
  Source.mk ("kb-" ++ toString (Locks.now (world st)) ++ "-" ++ randomSuffix s)
            url title type None raw hash tags
            (toISOString (Locks.now (world st)))
            (toISOString (Locks.now (world st))).

Lemma createSource_run st s url title type raw hash tags :
  db st = Some s ->
  createSource randomSuffix toISOString url title type raw hash tags st
  = let row := newSourceRow st s url title type raw hash tags in
    if existsb (fun r => bool_decide (Source.id r = Source.id row)) (kb_sources s)
    then (Throw "UNIQUE constraint failed: kb_sources.id", st)
    else if existsb (fun r => bool_decide (Source.content_hash r = hash))
                    (kb_sources s)
    then (Throw "UNIQUE constraint failed: kb_sources.content_hash", st)
    else (Return row,
          setDb (Some (mkStore (kb_sources s ++ [row]) (kb_chunks s)
                               (chunk_seq s))) st).
Proof.
  intros Hdb. unfold createSource, mbind, M_bind, bind, isoNow, onStore.
  rewrite Hdb. cbv zeta. unfold newSourceRow. cbn [Source.id].
  destruct (existsb _ (kb_sources s)); [by rewrite setDb_same|].
  destruct (existsb _ (kb_sources s)); [by rewrite setDb_same|done].
Qed.

(** The row [createChunk] writes for a chunk with its embedding. *)
Definition newChunkRow (st : KBState) (s : Store) (source_id : str)
  (chunk_index : Z) (content : str) (emb : Embeddings.Float32Array) : Chunk.t :=
  Chunk.mk (chunk_seq s + 1) source_id chunk_index content
           (Some (Embeddings.serializeFloat32 emb))
           (Some (Embeddings.f_length emb))
           (Some (list_ascii_of_string "ollama"))
           (Some (list_ascii_of_string "nomic-embed-text"))
           (toISOString (Locks.now (world st))).

Lemma createChunk_run st s sid i content emb :
  db st = Some s -> sid ∈ map Source.id (kb_sources s) ->
  createChunk toISOString sid i content
    (Some (Embeddings.serializeFloat32 emb)) (Some (Embeddings.f_length emb))
    (Some (list_ascii_of_string "ollama"))
    (Some (list_ascii_of_string "nomic-embed-text")) st
  = (Return (newChunkRow st s sid i content emb),
     setDb (Some (mkStore (kb_sources s)
                          (kb_chunks s ++ [newChunkRow st s sid i content emb])
                          (chunk_seq s + 1))) st).
Proof.
  intros Hdb Hsid. unfold createChunk, mbind, M_bind, bind, isoNow, onStore.
  rewrite Hdb. by rewrite elem_of_existsb_true.
Qed.

End StorageRuns.

(** ** Runs of the pipeline *)

(** The row [c] holds a chunk of [chunks] with the embedding of that
    chunk: its index, counted from [base], is the position of both. *)
Definition holdsChunk (sid : str) (chunks : list str)
  (embeddings : list (option Embeddings.Float32Array)) (base : Z)
  (c : Chunk.t) : Prop :=
  Chunk.source_id c = sid
  /\ exists j emb,
       Chunk.chunk_index c = base + Z.of_nat j
       /\ chunks !! j = Some (Chunk.content c)
       /\ embeddings !! j = Some (Some emb)
       /\ Chunk.embedding c = Some (Embeddings.serializeFloat32 emb)
       /\ Chunk.embedding_dim c = Some (Embeddings.f_length emb).

Lemma holdsChunk_shift sid chunk rest embeddings base c :
  holdsChunk sid rest (tail embeddings) (base + 1) c ->
  holdsChunk sid (chunk :: rest) embeddings base c.
Proof.
  intros (Hsid & j & emb & Hidx & Hchunk & Hemb & Hser & Hdim).
  split; [done|]. exists (S j), emb.
  split; [lia|]. split; [done|]. split; [|done].
  destruct embeddings; [done|]. done.
Qed.

(** The frame of the entry points: the outcome of the call is the
    outcome of its body, with [unknown] for an error thrown, and what the
    body leaves of the database. *)
Lemma locked_call_cases (pid : Z) (body : KB Result.t) (st st' : KBState)
  (result : Result.t) :
  (release ← onWorld (Locks.acquire "ingest" pid);
   try_finally (try_catch body onUnknown) (onWorld release)) st
  = (Return result, st') ->
  exists w1 o st2,
    body (setWorld w1 st) = (o, st2)
    /\ db st' = db st2 /\ ollamaAvailable st' = ollamaAvailable st2
    /\ match o with
       | Return r => result = r
       | Throw msg => result = failure unknown (Some (errorString msg)) None
       end.
Proof.
  unfold mbind, M_bind, bind, onWorld, lift.
  destruct (Locks.acquire_returns "ingest" pid (world st)) as (w1 & -> & _).
  unfold try_finally, try_catch.
  destruct (body (setWorld w1 st)) as [[r|msg] st2] eqn:Hbody.
  - destruct (release_removes (Locks.lockFileOf "ingest") (world st2))
      as (w3 & -> & _).
    intros [= <- <-]. by exists w1, (Return r), st2.
  - unfold onUnknown. cbn [mret M_ret ret].
    destruct (release_removes (Locks.lockFileOf "ingest") (world st2))
      as (w3 & -> & _).
    intros [= <- <-]. by exists w1, (Throw msg), st2.
Qed.

Section PipelineRuns.
Context `{URLPlatform}.
Variable pid : Z.
Variable extractContent : str -> SourceType -> option ExtractedContent.
Variable sha256hex : str -> str.
Variable randomSuffix : Store -> str.
Variable toISOString : Z -> str.
Variable generateEmbeddingsBatch :
  list str -> list (option Embeddings.Float32Array).

(** The loop stores, in order, the chunks that have an embedding, each
    with its own embedding, and counts them. *)
Lemma storeChunks_run sid chunks embeddings i n st s :
  db st = Some s -> sid ∈ map Source.id (kb_sources s) ->
  exists added st',
    storeChunks toISOString sid chunks embeddings i n st
    = (Return (n + len added), st')
    /\ db st' = Some (mkStore (kb_sources s) (kb_chunks s ++ added)
                              (chunk_seq s + len added))
    /\ world st' = world st /\ ollamaAvailable st' = ollamaAvailable st
    /\ Forall (holdsChunk sid chunks embeddings i) added
    /\ (forall j emb, (j < length chunks)%nat ->
          embeddings !! j = Some (Some emb) ->
          exists c, c ∈ added /\ Chunk.chunk_index c = i + Z.of_nat j).
Proof.
  revert embeddings i n st s.
  induction chunks as [|chunk rest IH]; intros embeddings i n st s Hdb Hsid.
  - exists [], st. cbn [storeChunks]. unfold len. cbn [length].
    rewrite !Z.add_0_r, app_nil_r.
    split; [done|]. split; [by destruct s|]. split; [done|]. split; [done|].
    split; [constructor|]. intros j emb Hj. cbn in Hj. lia.
  - destruct embeddings as [|[emb|] erest].
    + destruct (IH [] (i + 1) n st s Hdb Hsid)
        as (added & st' & Hrun & Hdb' & Hw & Hav & Hrows & Hall).
      exists added, st'. cbn [storeChunks]. split; [exact Hrun|].
      split; [done|]. split; [done|]. split; [done|]. split.
      * eapply Forall_impl; [exact Hrows|]. intros c.
        apply (holdsChunk_shift sid chunk rest []).
      * intros j emb _ Hemb. done.
    + cbn [storeChunks]. unfold mbind, M_bind, bind.
      rewrite (createChunk_run toISOString st s) by done.
      set (row := newChunkRow toISOString st s sid i chunk emb).
      set (s1 := mkStore (kb_sources s) (kb_chunks s ++ [row]) (chunk_seq s + 1)).
      destruct (IH erest (i + 1) (n + 1) (setDb (Some s1) st) s1 eq_refl Hsid)
        as (added & st' & Hrun & Hdb' & Hw & Hav & Hrows & Hall).
      exists (row :: added), st'. cbn [tail]. rewrite Hrun.
      split; [f_equal; f_equal; unfold len; cbn [length]; lia|].
      split.
      { rewrite Hdb'. unfold s1. cbn [kb_sources kb_chunks chunk_seq].
        rewrite <- app_assoc. cbn [app]. do 2 f_equal.
        unfold len. cbn [length]. lia. }
      split; [done|]. split; [done|]. split.
      * constructor.
        -- split; [done|]. exists 0%nat, emb.
           split; [cbn; lia|]. done.
        -- eapply Forall_impl; [exact Hrows|]. intros c.
           apply (holdsChunk_shift sid chunk rest (Some emb :: erest)).
      * intros [|j] emb' Hj Hemb.
        -- exists row. split; [by left|]. cbn. lia.
        -- destruct (Hall j emb') as (c & Hc & Hidx); [cbn in Hj; lia|done|].
           exists c. split; [by right|]. lia.
    + destruct (IH erest (i + 1) n st s Hdb Hsid)
        as (added & st' & Hrun & Hdb' & Hw & Hav & Hrows & Hall).
      exists added, st'. cbn [storeChunks tail]. split; [exact Hrun|].
      split; [done|]. split; [done|]. split; [done|]. split.
      * eapply Forall_impl; [exact Hrows|]. intros c.
        apply (holdsChunk_shift sid chunk rest (None :: erest)).
      * intros [|j] emb Hj Hemb; [done|].
        destruct (Hall j emb) as (c & Hc & Hidx); [cbn in Hj; lia|done|].
        exists c. split; [done|]. lia.
Qed.

(** The state [st'] is the state [st] after the ingestion of a new
    source from [content]: one source row more, made from the content as
    cleaned and truncated, and the chunk rows [added], one for each chunk
    of that content whose embedding came back, with that embedding. *)
Definition ingestedNew (st st' : KBState) (url : option str) (content : str)
  (type : SourceType) (result : Result.t) : Prop :=
  exists s row added,
    db st = Some s
    /\ db st' = Some (mkStore (kb_sources s ++ [row]) (kb_chunks s ++ added)
                              (chunk_seq s + len added))
    /\ result = Result.mk true (Some (Source.id row)) (Some (len added))
                          None None None (Some false)
    /\ Source.url row = url
    /\ Source.source_type row = type
    /\ Source.raw_content row = Quality.truncateContent (cleanContent content)
    /\ Source.content_hash row
       = generateContentHash sha256hex (Source.raw_content row)
    /\ Quality.valid (Quality.validateContent (cleanContent content) type) = true
    /\ (Source.id row ∉ map Source.id (kb_sources s))
    /\ (Source.content_hash row ∉ map Source.content_hash (kb_sources s))
    /\ let chunks :=
         default [] (Chunking.chunkText (Source.raw_content row)
                                        configChunkOptions) in
       let embeddings := generateEmbeddingsBatch chunks in
       Forall (holdsChunk (Source.id row) chunks embeddings 0) added
       /\ forall j emb, (j < length chunks)%nat ->
            embeddings !! j = Some (Some emb) ->
            exists c, c ∈ added /\ Chunk.chunk_index c = Z.of_nat j.

(** The content [finishIngestion] stores is the cleaned content as
    [truncateContent] leaves it. *)
Lemma finalContent_truncateContent (cleaned : str) (type : SourceType) :
  Quality.valid (Quality.validateContent cleaned type) = true ->
  match Quality.truncated (Quality.validateContent cleaned type) with
  | Some true => slice cleaned 0 Quality.MAX_CONTENT_LENGTH
  | _ => cleaned
  end = Quality.truncateContent cleaned.
Proof.
  intros Hvalid.
  rewrite (Quality.validateContent_truncated cleaned type Hvalid).
  unfold Quality.truncateContent.
  destruct (Z.ltb_spec Quality.MAX_CONTENT_LENGTH (len cleaned)) as [Hgt|Hle].
  - by rewrite (proj2 (Z.leb_gt _ _)).
  - by rewrite (proj2 (Z.leb_le _ _)).
Qed.

(** What [finishIngestion] comes to for a new source: it leaves the
    database as it is and fails or throws, or it succeeds and has stored
    the source and its chunks. *)
Lemma finishIngestion_new_cases url title content type tags st o st' :
  finishIngestion sha256hex randomSuffix toISOString generateEmbeddingsBatch
    (mkFinishParams url title content type tags None) st = (o, st') ->
  (db st' = db st
   /\ match o with
      | Return r => Result.success r = false
      | Throw _ => True
      end)
  \/ (exists result, o = Return result
        /\ ingestedNew st st' url content type result).
Proof.
  unfold finishIngestion. cbn [p_content p_sourceType p_existingSource p_url
                               p_title p_tags].
  destruct (Quality.valid (Quality.validateContent (cleanContent content) type))
    eqn:Hvalid; cbn [negb]; [|intros [= <- <-]; by left].
  rewrite (finalContent_truncateContent _ _ Hvalid).
  set (final := Quality.truncateContent (cleanContent content)).
  unfold mbind at 1. unfold M_bind, bind at 1.
  destruct (db st) as [s|] eqn:Hdb;
    [|unfold getSourceByHash, onStore; rewrite Hdb; intros [= <- <-]; by left].
  rewrite (getSourceByHash_run st s) by done.
  destruct (List.find _ (kb_sources s)) as [dup|] eqn:Hfind;
    [intros [= <- <-]; by left|].
  apply find_none_not_elem_of in Hfind as Hfresh.
  unfold mbind at 1. unfold M_bind, bind at 1.
  rewrite (createSource_run randomSuffix toISOString st s) by done. cbv zeta.
  set (row := newSourceRow randomSuffix toISOString st s url
                (Some (orElse title "Untitled")) type final
                (generateContentHash sha256hex final) tags).
  destruct (existsb _ (kb_sources s)) eqn:Hid; [intros [= <- <-]; by left|].
  rewrite (not_elem_of_existsb_false Source.content_hash) by done.
  apply existsb_false_not_elem_of in Hid.
  unfold mbind at 1. unfold M_bind, bind at 1. unfold setAvailable at 1.
  cbn [db world setDb ollamaAvailable].
  set (s1 := mkStore (kb_sources s ++ [row]) (kb_chunks s) (chunk_seq s)).
  set (st1 := mkKBState (Some s1) (world st) true).
  set (chunks := default [] (Chunking.chunkText final configChunkOptions)).
  destruct (storeChunks_run (Source.id row) chunks
              (generateEmbeddingsBatch chunks) 0 0 st1 s1 eq_refl)
    as (added & st2 & Hrun & Hdb2 & _ & _ & Hrows & Hall).
  { unfold s1. cbn [kb_sources]. rewrite map_app. apply elem_of_app.
    right. by left. }
  unfold mbind at 1. unfold M_bind, bind at 1. rewrite Hrun.
  intros [= <- <-]. right. eexists. split; [reflexivity|].
  exists s, row, added. split; [done|]. split; [by rewrite Hdb2|].
  rewrite Z.add_0_l. split; [done|].
  do 7 (split; [done|]). cbv zeta. split; [done|].
  intros j emb Hj Hemb. destruct (Hall j emb Hj Hemb) as (c & Hc & Hidx).
  exists c. split; [done|lia].
Qed.

Lemma ingestedNew_frame st st2 st' w1 url content type result :
  db st' = db st2 ->
  ingestedNew (setWorld w1 st) st2 url content type result ->
  ingestedNew st st' url content type result.
Proof.
  intros Hdb (s & row & added & Hs & Hs2 & Hrest).
  exists s, row, added. split; [done|]. split; [by rewrite Hdb|done].
Qed.

(** What [ingestUrl] comes to: a failure that leaves the database as it
    was, or the ingestion of a new source under the normalised address. *)
Lemma ingestUrl_cases url options st result st' :
  ingestUrl pid extractContent sha256hex randomSuffix toISOString
            generateEmbeddingsBatch url options st = (Return result, st') ->
  (Result.success result = false /\ db st' = db st)
  \/ (exists extracted,
        extractContent url (default (detectSourceType url)
                                    (Options.sourceType options))
        = Some extracted
        /\ ingestedNew st st' (Some (normalizeUrl url))
             (extractedContent extracted)
             (default (detectSourceType url) (Options.sourceType options))
             result
        /\ forall s, db st = Some s ->
             Some (normalizeUrl url) ∉ map Source.url (kb_sources s)).
Proof.
  unfold ingestUrl, ingestUrlInternal.
  intros (w1 & o & st2 & Hbody & Hdb & _ & Hres)%locked_call_cases.
  unfold mbind at 1 in Hbody. unfold M_bind, bind at 1 in Hbody.
  destruct (db st) as [s|] eqn:Hst.
  - rewrite (getSourceByUrl_run _ s) in Hbody by done.
    destruct (List.find _ (kb_sources s)) as [existing|] eqn:Hfind.
    { injection Hbody as <- <-. subst result. left. by rewrite Hdb. }
    unfold mbind at 1 in Hbody. unfold M_bind, bind at 1 in Hbody.
    cbn [mret M_ret ret] in Hbody.
    destruct (extractContent url _) as [extracted|] eqn:Hex.
    + apply finishIngestion_new_cases in Hbody
        as [[Hsame Hfail]|(r & -> & Hnew)].
      * left. split; [|by rewrite Hdb, Hsame].
        destruct o as [r|msg]; by subst result.
      * right. subst result. exists extracted. split; [done|].
        split; [|intros s' [= <-]; by apply find_none_not_elem_of].
        by apply (ingestedNew_frame _ st2 _ w1).
    + injection Hbody as <- <-. subst result. left. by rewrite Hdb.
  - unfold getSourceByUrl, onStore in Hbody. cbn [db setWorld] in Hbody.
    rewrite Hst in Hbody. injection Hbody as <- <-. subst result.
    left. split; [done|]. by rewrite Hdb.
Qed.

(** What [ingestContent] comes to. *)
Lemma ingestContent_cases content options st result st' :
  ingestContent pid sha256hex randomSuffix toISOString
                generateEmbeddingsBatch content options st
  = (Return result, st') ->
  (Result.success result = false /\ db st' = db st)
  \/ ingestedNew st st'
       (match Options.url options with
        | Some ((_ :: _) as url) => Some (normalizeUrl url)
        | _ => None
        end)
       content (default Quality.text (Options.sourceType options)) result.
Proof.
  unfold ingestContent, ingestContentInternal. cbv zeta.
  intros (w1 & o & st2 & Hbody & Hdb & _ & Hres)%locked_call_cases.
  assert (Hfinish : forall u,
    finishIngestion sha256hex randomSuffix toISOString generateEmbeddingsBatch
      (mkFinishParams u (Options.title options) content
         (default Quality.text (Options.sourceType options))
         (Options.tags options) None) (setWorld w1 st) = (o, st2) ->
    (Result.success result = false /\ db st' = db st)
    \/ ingestedNew st st' u content
         (default Quality.text (Options.sourceType options)) result).
  { intros u [[Hsame Hfail]|(r & -> & Hnew)]%finishIngestion_new_cases.
    - left. split; [|by rewrite Hdb, Hsame].
      destruct o as [r|msg]; by subst result.
    - right. subst result. by apply (ingestedNew_frame _ st2 _ w1). }
  destruct (Options.url options) as [[|c url]|];
    [by apply Hfinish| |by apply Hfinish].
  unfold mbind at 1 in Hbody. unfold M_bind, bind at 1 in Hbody.
  destruct (db st) as [s|] eqn:Hst.
  - rewrite (getSourceByUrl_run _ s) in Hbody by done.
    destruct (List.find _ (kb_sources s)) as [existing|] eqn:Hfind.
    + injection Hbody as <- <-. subst result. left. by rewrite Hdb.
    + by apply Hfinish.
  - unfold getSourceByUrl, onStore in Hbody. cbn [db setWorld] in Hbody.
    rewrite Hst in Hbody. injection Hbody as <- <-. subst result.
    left. split; [done|]. by rewrite Hdb.
Qed.

End PipelineRuns.

(** ** Properties of the storage and of the pipeline *)

Lemma keeps_run {A} (P : KBState -> Prop) (m : KB A) (st : KBState) :
  keeps P m -> P st -> P (snd (m st)).
Proof.
  intros Hm HP. destruct (m st) as [o st'] eqn:Hrun. by apply (Hm st o st').
Qed.

Lemma not_elem_of_find_none {A B} `{EqDecision B} (f : A -> B) (b : B)
  (l : list A) :
  b ∉ map f l -> List.find (fun r => bool_decide (f r = b)) l = None.
Proof.
  intros Hno. destruct (List.find _ l) as [r|] eqn:Hfind; [|done].
  apply List.find_some in Hfind as [Hr Heq].
  apply bool_decide_eq_true_1 in Heq. exfalso. apply Hno.
  apply list_elem_of_fmap. exists r. split; [done|by apply list_elem_of_In].
Qed.

(** A store with one source and two of its chunks. *)
Definition chunkedStore : Store :=
  mkStore [sampleSource]
          [ Chunk.mk 1 "kb-5000-rnd" 0 (repeat "A"%char 300) None None None None
                     "t5000";
            Chunk.mk 2 "kb-5000-rnd" 1 (repeat "A"%char 300) None None None None
                     "t5000" ]
          2.

Definition chunkedState : KBState :=
  mkKBState (Some chunkedStore) (Locks.mkWorld ∅ 6000 {[ 7 ]}) false.

(** A state without database. *)
Definition closedState : KBState :=
  mkKBState None (Locks.mkWorld ∅ 6000 {[ 7 ]}) false.

Lemma chunkedStore_wellFormed : wellFormed chunkedStore.
Proof.
  split; cbn.
  - apply NoDup_singleton.
  - apply NoDup_singleton.
  - apply NoDup_cons. split; [|apply NoDup_singleton].
    intros Hin. apply list_elem_of_singleton in Hin. done.
  - repeat constructor; cbn; lia.
  - repeat constructor; cbn; by left.
Qed.

(** A note, and an extractor that finds it at every address. *)
Definition gitNote : str :=
  "git stash -u saves all changes including untracked files, for later use".

Definition noteExtractor (url : str) (type : SourceType)
  : option ExtractedContent :=
  Some (mkExtracted "Git" gitNote).

Definition asText : Options.t :=
  Options.mk None None None (Some Quality.text) None.

(** X22.  Every operation of the storage keeps the store well formed,
    whether it returns or throws: source identifiers and content hashes
    stay unique, chunk identifiers stay unique and below the counter, and
    every chunk still belongs to a source of the store. *)
Theorem storage_keeps_store_intact
  (randomSuffix : Store -> str) (toISOString : Z -> str) (st : KBState)
  (url title : option str) (type : SourceType) (raw hash : str)
  (tags : option (list str)) (id : str) (updates : SourceUpdates)
  (chunk_index : Z) (content : str) (embedding : option Embeddings.Buffer)
  (dim : option Z) (provider model : option str) :
  intact st ->
  intact (snd (createSource randomSuffix toISOString url title type raw hash
                            tags st))
  /\ intact (snd (updateSource toISOString id updates st))
  /\ intact (snd (deleteSource id st))
  /\ intact (snd (createChunk toISOString id chunk_index content embedding
                              dim provider model st))
  /\ intact (snd (deleteChunksBySourceId id st)).
Proof.
  intros Hst. repeat split; (apply keeps_run; [|done]).
  - apply keeps_createSource.
  - apply keeps_updateSource.
  - apply keeps_deleteSource.
  - apply keeps_createChunk.
  - apply keeps_deleteChunksBySourceId.
Qed.

Lemma storage_keeps_store_intact_witness :
  intact chunkedState
  /\ intact (snd (createSource sampleSuffix sampleISO None None Quality.text
                    "a" "hash-of-a" None chunkedState))
  /\ intact (snd (updateSource sampleISO "kb-5000-rnd"
                    (mkSourceUpdates None (Some (list_ascii_of_string "New"))
                                     None None None None) chunkedState))
  /\ intact (snd (deleteSource "kb-5000-rnd" chunkedState))
  /\ intact (snd (createChunk sampleISO "kb-5000-rnd" 2 "a" None None None None
                    chunkedState))
  /\ intact (snd (deleteChunksBySourceId "kb-5000-rnd" chunkedState)).
Proof.
  split; [exact chunkedStore_wellFormed|].
  exact (storage_keeps_store_intact sampleSuffix sampleISO chunkedState
           None None Quality.text "a" "hash-of-a" None "kb-5000-rnd"
           (mkSourceUpdates None (Some (list_ascii_of_string "New"))
                            None None None None)
           2 "a" None None None None chunkedStore_wellFormed).
Defined.

Section PipelineProperties.
Context `{URLPlatform}.
Variable pid : Z.
Variable extractContent : str -> SourceType -> option ExtractedContent.
Variable sha256hex : str -> str.
Variable randomSuffix : Store -> str.
Variable toISOString : Z -> str.
Variable generateEmbeddingsBatch :
  list str -> list (option Embeddings.Float32Array).

Lemma keeps_storeChunks sid chunks embeddings i n :
  keeps intact (storeChunks toISOString sid chunks embeddings i n).
Proof.
  revert embeddings i n.
  induction chunks as [|chunk rest IH]; intros embeddings i n;
    cbn [storeChunks]; [apply keeps_ret|].
  destruct embeddings as [|[emb|] erest]; [apply IH| |apply IH].
  apply keeps_bind; [apply keeps_createChunk|]. intros _. apply IH.
Qed.

Lemma keeps_finishIngestion params :
  keeps intact (finishIngestion sha256hex randomSuffix toISOString
                  generateEmbeddingsBatch params).
Proof.
  unfold finishIngestion. destruct (negb _); [apply keeps_ret|].
  apply keeps_bind.
  { destruct (p_existingSource params); [apply keeps_ret|].
    apply keeps_lookups; exact []. }
  intros [dup|]; [apply keeps_ret|].
  apply keeps_bind.
  { destruct (p_existingSource params).
    - apply keeps_bind; [apply keeps_updateSource|]. intros _. apply keeps_ret.
    - apply keeps_createSource. }
  intros source. apply keeps_bind; [apply keeps_setAvailable|]. intros _.
  apply keeps_bind; [apply keeps_storeChunks|]. intros k. apply keeps_ret.
Qed.

Lemma keeps_locked_call (body : KB Result.t) :
  keeps intact body ->
  keeps intact
    (release ← onWorld (Locks.acquire "ingest" pid);
     try_finally (try_catch body onUnknown) (onWorld release)).
Proof.
  intros Hbody. apply keeps_bind; [apply keeps_onWorld|]. intros release.
  apply keeps_try_finally; [|apply keeps_onWorld].
  apply keeps_try_catch; [done|]. intros msg. apply keeps_ret.
Qed.

Lemma keeps_ingestUrlInternal url options forceUpdate :
  keeps intact (ingestUrlInternal pid extractContent sha256hex randomSuffix
                  toISOString generateEmbeddingsBatch url options forceUpdate).
Proof.
  apply keeps_locked_call. apply keeps_bind.
  { apply keeps_lookups; exact []. }
  intros existingByUrl.
  assert (Hrest : keeps intact
    (match existingByUrl with
     | Some existing => deleteChunksBySourceId (Source.id existing)
     | None => mret ()
     end ≫= fun _ =>
     match extractContent url (default (detectSourceType url)
                                       (Options.sourceType options)) with
     | Some extracted =>
         finishIngestion sha256hex randomSuffix toISOString
           generateEmbeddingsBatch
           (mkFinishParams (Some (normalizeUrl url))
              (Some (extractedTitle extracted)) (extractedContent extracted)
              (default (detectSourceType url) (Options.sourceType options))
              (Options.tags options) existingByUrl)
     | None =>
         mret (failure extraction_failed
                 (Some (list_ascii_of_string "Content extraction failed")) None)
     end)).
  { apply keeps_bind.
    - destruct existingByUrl; [apply keeps_deleteChunksBySourceId|apply keeps_ret].
    - intros _. destruct (extractContent url _);
        [apply keeps_finishIngestion|apply keeps_ret]. }
  destruct existingByUrl as [existing|]; [|exact Hrest].
  destruct forceUpdate; [exact Hrest|apply keeps_ret].
Qed.

Lemma keeps_ingestContentInternal content options forceUpdate :
  keeps intact (ingestContentInternal pid sha256hex randomSuffix toISOString
                  generateEmbeddingsBatch content options forceUpdate).
Proof.
  apply keeps_locked_call.
  destruct (Options.url options) as [[|c url]|];
    [apply keeps_finishIngestion| |apply keeps_finishIngestion].
  apply keeps_bind; [apply keeps_lookups; exact []|].
  intros [existing|]; [|apply keeps_finishIngestion].
  destruct forceUpdate; [|apply keeps_ret].
  apply keeps_bind; [apply keeps_deleteChunksBySourceId|].
  intros _. apply keeps_finishIngestion.
Qed.

Lemma keeps_deleteKBSource sourceId : keeps intact (deleteKBSource sourceId).
Proof.
  apply keeps_try_catch; [|intros msg; apply keeps_ret].
  apply keeps_bind; [apply keeps_deleteSource|]. intros _. apply keeps_ret.
Qed.

(** X23.  From a well-formed store, every entry point of the pipeline
    leaves a well-formed store, whatever the extractor, the digest and
    the embedding client answer and whether the call succeeds or fails:
    no ingestion, update or deletion leaves a chunk without its source,
    or two sources with one content hash. *)
Theorem ingestion_keeps_store_intact (st : KBState) (url content sourceId : str)
  (options : Options.t) :
  intact st ->
  intact (snd (ingestUrl pid extractContent sha256hex randomSuffix toISOString
                 generateEmbeddingsBatch url options st))
  /\ intact (snd (updateUrl pid extractContent sha256hex randomSuffix
                    toISOString generateEmbeddingsBatch url options st))
  /\ intact (snd (ingestContent pid sha256hex randomSuffix toISOString
                    generateEmbeddingsBatch content options st))
  /\ intact (snd (updateContent pid sha256hex randomSuffix toISOString
                    generateEmbeddingsBatch content options st))
  /\ intact (snd (deleteKBSource sourceId st)).
Proof.
  intros Hst. repeat split; (apply keeps_run; [|done]).
  - apply keeps_ingestUrlInternal.
  - apply keeps_ingestUrlInternal.
  - apply keeps_ingestContentInternal.
  - apply keeps_ingestContentInternal.
  - apply keeps_deleteKBSource.
Qed.

End PipelineProperties.

Lemma ingestion_keeps_store_intact_witness :
  intact chunkedState
  /\ intact (snd (ingestUrl 7 noteExtractor sampleDigest sampleSuffix sampleISO
                    sampleEmbeddings "https://example.com/b" asText
                    chunkedState))
  /\ intact (snd (updateUrl 7 noteExtractor sampleDigest sampleSuffix sampleISO
                    sampleEmbeddings "https://example.com/b" asText
                    chunkedState))
  /\ intact (snd (ingestContent 7 sampleDigest sampleSuffix sampleISO
                    sampleEmbeddings gitNote asText chunkedState))
  /\ intact (snd (updateContent 7 sampleDigest sampleSuffix sampleISO
                    sampleEmbeddings gitNote asText chunkedState))
  /\ intact (snd (deleteKBSource "kb-5000-rnd" chunkedState)).
Proof.
  split; [exact chunkedStore_wellFormed|].
  exact (ingestion_keeps_store_intact 7 noteExtractor sampleDigest sampleSuffix
           sampleISO sampleEmbeddings chunkedState "https://example.com/b"
           gitNote "kb-5000-rnd" asText chunkedStore_wellFormed).
Defined.

(** ** The extractors by source type (src/kb/extractors/index.ts) *)

(** [EXTRACTORS], over the three extractors that fetch: [pdf] and [text]
    have the extractor [async () => null]. *)
Definition EXTRACTORS
  (extractArticle extractVideoTranscript extractTweet
     : str -> option ExtractedContent)
  (type : SourceType) : str -> option ExtractedContent :=
  match type with
  | Quality.article => extractArticle
  | Quality.video => extractVideoTranscript
  | Quality.pdf => fun _ => None
  | Quality.text => fun _ => None
  | Quality.tweet => extractTweet
  | Quality.other => extractArticle
  end.

(** [extractContent(url, type)]: every source type has its extractor, so
    the default [|| EXTRACTORS.article] is never taken. *)
Definition extractContent
  (extractArticle extractVideoTranscript extractTweet
     : str -> option ExtractedContent)
  (url : str) (type : SourceType) : option ExtractedContent :=
  EXTRACTORS extractArticle extractVideoTranscript extractTweet type url.

Section Outcomes.
Context `{URLPlatform}.
Variable pid : Z.
Variable sha256hex : str -> str.
Variable randomSuffix : Store -> str.
Variable toISOString : Z -> str.
Variable generateEmbeddingsBatch :
  list str -> list (option Embeddings.Float32Array).

(** X24.  An ingestion that fails leaves the database as it was:
    [ingestUrl] and [ingestContent] always return an outcome, and when
    the outcome is a failure, whatever its reason (duplicate, extraction,
    validation, or an error thrown inside), no row was added, changed or
    removed. *)
Theorem failed_ingestion_leaves_store
  (extract : str -> SourceType -> option ExtractedContent)
  (url content : str) (options : Options.t) (st : KBState) :
  (exists result st',
     ingestUrl pid extract sha256hex randomSuffix toISOString
               generateEmbeddingsBatch url options st = (Return result, st')
     /\ (Result.success result = false -> db st' = db st))
  /\ (exists result st',
        ingestContent pid sha256hex randomSuffix toISOString
                      generateEmbeddingsBatch content options st
        = (Return result, st')
        /\ (Result.success result = false -> db st' = db st)).
Proof.
  split.
  - destruct (ingestUrlInternal_releases pid extract sha256hex randomSuffix
                toISOString generateEmbeddingsBatch url options false st)
      as (result & st' & Hrun & _).
    exists result, st'. split; [exact Hrun|]. intros Hfail.
    apply ingestUrl_cases in Hrun
      as [[_ Hsame]|(_ & _ & (s & row & added & _ & _ & -> & _) & _)];
      [done|discriminate].
  - destruct (ingestContentInternal_releases pid sha256hex randomSuffix
                toISOString generateEmbeddingsBatch content options false st)
      as (result & st' & Hrun & _).
    exists result, st'. split; [exact Hrun|]. intros Hfail.
    apply ingestContent_cases in Hrun
      as [[_ Hsame]|(s & row & added & _ & _ & -> & _)];
      [done|discriminate].
Qed.

(** X25.  A successful [ingestUrl] has added one source and the rows of
    its chunks, and nothing else.  The source holds the normalised
    address and the extracted content as cleaned and truncated, with the
    hash of that content; [chunks_count] is the number of chunk rows
    added; every row added belongs to the new source and holds a chunk of
    its content with the embedding of that very chunk, under the index of
    the chunk; and every chunk whose embedding came back has its row. *)
Theorem ingestUrl_success_rows
  (extract : str -> SourceType -> option ExtractedContent)
  (url : str) (options : Options.t) (st st' : KBState) (result : Result.t) :
  ingestUrl pid extract sha256hex randomSuffix toISOString
            generateEmbeddingsBatch url options st = (Return result, st') ->
  Result.success result = true ->
  exists extracted,
    extract url (default (detectSourceType url) (Options.sourceType options))
    = Some extracted
    /\ ingestedNew sha256hex generateEmbeddingsBatch st st'
         (Some (normalizeUrl url)) (extractedContent extracted)
         (default (detectSourceType url) (Options.sourceType options)) result.
Proof.
  intros Hrun Hsuccess.
  apply ingestUrl_cases in Hrun as [[Hfail _]|(extracted & Hex & Hnew & _)];
    [congruence|].
  by exists extracted.
Qed.

(** X26.  After a successful [ingestUrl] the new source is found by each
    of its keys: [getSourceById] with the identifier the call returned,
    [getSourceByUrl] with the normalised address and [getSourceByHash]
    with the hash of its content all return it. *)
Theorem ingestUrl_then_lookup
  (extract : str -> SourceType -> option ExtractedContent)
  (url : str) (options : Options.t) (st st' : KBState) (result : Result.t) :
  ingestUrl pid extract sha256hex randomSuffix toISOString
            generateEmbeddingsBatch url options st = (Return result, st') ->
  Result.success result = true ->
  exists source,
    Result.source_id result = Some (Source.id source)
    /\ Source.url source = Some (normalizeUrl url)
    /\ getSourceById (Source.id source) st' = (Return (Some source), st')
    /\ getSourceByUrl (normalizeUrl url) st' = (Return (Some source), st')
    /\ getSourceByHash (Source.content_hash source) st'
       = (Return (Some source), st').
Proof.
  intros Hrun Hsuccess.
  apply ingestUrl_cases in Hrun as [[Hfail _]|(extracted & _ & Hnew & Hurl)];
    [congruence|].
  destruct Hnew as (s & row & added & Hs & Hs' & -> & Hrow & _ & _ & _ & _
                    & Hid & Hhash & _).
  specialize (Hurl s Hs).
  exists row. split; [done|]. split; [done|].
  rewrite (getSourceById_run st' _ _ Hs'), (getSourceByUrl_run st' _ _ Hs'),
    (getSourceByHash_run st' _ _ Hs').
  cbn [kb_sources].
  rewrite !find_app_new;
    [done|by apply not_elem_of_find_none|by apply bool_decide_eq_true_2
    |by apply (not_elem_of_find_none Source.url)
    |by apply bool_decide_eq_true_2
    |by apply not_elem_of_find_none|by apply bool_decide_eq_true_2].
Qed.

(** X27.  [updateUrl] removes the chunks of the stored source before it
    extracts: when the address is already stored and the extraction
    fails, the call reports [extraction_failed], the source row stays as
    it was, and all the chunks of that source are gone. *)
Theorem updateUrl_failed_extraction_drops_chunks
  (extract : str -> SourceType -> option ExtractedContent)
  (url : str) (options : Options.t) (st : KBState) (store : Store)
  (existing : Source.t) :
  db st = Some store ->
  alreadyIngested store url existing ->
  extract url (default (detectSourceType url) (Options.sourceType options))
  = None ->
  exists st',
    updateUrl pid extract sha256hex randomSuffix toISOString
              generateEmbeddingsBatch url options st
    = (Return (failure extraction_failed
                 (Some (list_ascii_of_string "Content extraction failed"))
                 None), st')
    /\ db st'
       = Some (mkStore (kb_sources store)
                 (List.filter
                    (fun c => negb (bool_decide
                                      (Chunk.source_id c = Source.id existing)))
                    (kb_chunks store))
                 (chunk_seq store)).
Proof.
  intros Hdb Hfound Hex. unfold updateUrl, ingestUrlInternal.
  unfold mbind at 1. unfold M_bind, bind at 1. unfold onWorld, lift.
  destruct (Locks.acquire_returns "ingest" pid (world st)) as (w1 & -> & _).
  unfold try_finally, try_catch.
  unfold mbind at 1. unfold M_bind, bind at 1.
  rewrite (getSourceByUrl_run _ store) by done. rewrite Hfound.
  unfold mbind at 1. unfold M_bind, bind at 1.
  unfold deleteChunksBySourceId, onStore. cbn [db setWorld]. rewrite Hdb.
  rewrite Hex. cbn [mret M_ret ret].
  match goal with
  | |- context [Locks.release ?f ?w] =>
      destruct (release_removes f w) as (w3 & -> & _)
  end.
  by eexists.
Qed.

(** X28.  On an open database [deleteKBSource] reports success for every
    identifier, also one that no source has: afterwards no source has the
    identifier and no chunk belongs to it, and the other sources and
    chunks are as before. *)
Theorem deleteKBSource_removes (sourceId : str) (st : KBState) (s : Store) :
  db st = Some s ->
  exists st' s',
    deleteKBSource sourceId st = (Return (true, None), st')
    /\ db st' = Some s' /\ world st' = world st
    /\ (forall r, r ∈ kb_sources s' <->
                  r ∈ kb_sources s /\ Source.id r <> sourceId)
    /\ (forall c, c ∈ kb_chunks s' <->
                  c ∈ kb_chunks s /\ Chunk.source_id c <> sourceId)
    /\ getSourceById sourceId st' = (Return None, st').
Proof.
  intros Hdb. unfold deleteKBSource, try_catch, mbind, M_bind, bind,
    deleteSource, onStore.
  rewrite Hdb. cbn [mret M_ret ret]. eexists _, _.
  split; [reflexivity|]. split; [reflexivity|]. split; [done|].
  cbn [kb_sources kb_chunks].
  assert (Hsources : forall r,
    r ∈ List.filter (fun r => negb (bool_decide (Source.id r = sourceId)))
                    (kb_sources s)
    <-> r ∈ kb_sources s /\ Source.id r <> sourceId).
  { intros r. rewrite list_elem_of_In, List.filter_In, <- list_elem_of_In.
    rewrite negb_true_iff, bool_decide_eq_false. done. }
  split; [exact Hsources|]. split.
  - intros c. rewrite list_elem_of_In, List.filter_In, <- list_elem_of_In.
    rewrite negb_true_iff, bool_decide_eq_false. done.
  - erewrite getSourceById_run by reflexivity. cbn [kb_sources].
    rewrite not_elem_of_find_none; [done|].
    intros (r & Hr & Hin)%list_elem_of_fmap.
    apply Hsources in Hin as [_ Hne]. congruence.
Qed.

(** X29.  Before the database is initialised every storage operation
    throws, and the entry points turn the error into an outcome:
    [ingestUrl] and [updateUrl] return the failure [unknown] with the
    text of the error, [deleteKBSource] reports the error, and none of
    them creates a database. *)
Theorem pipeline_before_initialisation
  (extract : str -> SourceType -> option ExtractedContent)
  (url sourceId : str) (options : Options.t) (st : KBState) :
  db st = None ->
  (exists st',
     ingestUrl pid extract sha256hex randomSuffix toISOString
               generateEmbeddingsBatch url options st
     = (Return (failure unknown
                  (Some (list_ascii_of_string "Error: Database not initialized"))
                  None), st')
     /\ db st' = None)
  /\ (exists st',
        updateUrl pid extract sha256hex randomSuffix toISOString
                  generateEmbeddingsBatch url options st
        = (Return (failure unknown
                     (Some (list_ascii_of_string "Error: Database not initialized"))
                     None), st')
        /\ db st' = None)
  /\ deleteKBSource sourceId st
     = (Return (false,
                Some (list_ascii_of_string "Error: Database not initialized")),
        st).
Proof.
  intros Hdb.
  assert (Hrun : forall forceUpdate, exists st',
    ingestUrlInternal pid extract sha256hex randomSuffix toISOString
      generateEmbeddingsBatch url options forceUpdate st
    = (Return (failure unknown
                 (Some (list_ascii_of_string "Error: Database not initialized"))
                 None), st')
    /\ db st' = None).
  { intros forceUpdate. unfold ingestUrlInternal.
    unfold mbind at 1. unfold M_bind, bind at 1. unfold onWorld, lift.
    destruct (Locks.acquire_returns "ingest" pid (world st)) as (w1 & -> & _).
    unfold try_finally, try_catch.
    unfold mbind at 1. unfold M_bind, bind at 1.
    unfold getSourceByUrl, onStore. cbn [db setWorld]. rewrite Hdb.
    unfold onUnknown. cbn [mret M_ret ret].
    match goal with
    | |- context [Locks.release ?f ?w] =>
        destruct (release_removes f w) as (w3 & -> & _)
    end.
    by eexists. }
  split; [apply Hrun|]. split; [apply Hrun|].
  unfold deleteKBSource, try_catch, mbind, M_bind, bind, deleteSource, onStore.
  by rewrite Hdb.
Qed.

(** X30.  An address of source type [pdf] or [text], given or detected,
    is never ingested by [ingestUrl]: these types have no extractor, so
    the call returns a failure and leaves the database as it was,
    whatever the three extractors that fetch would answer. *)
Theorem ingestUrl_without_extractor
  (extractArticle extractVideoTranscript extractTweet
     : str -> option ExtractedContent)
  (url : str) (options : Options.t) (st : KBState) :
  default (detectSourceType url) (Options.sourceType options) = Quality.pdf
  \/ default (detectSourceType url) (Options.sourceType options) = Quality.text ->
  exists result st',
    ingestUrl pid (extractContent extractArticle extractVideoTranscript
                                  extractTweet)
              sha256hex randomSuffix toISOString generateEmbeddingsBatch
              url options st = (Return result, st')
    /\ Result.success result = false
    /\ db st' = db st.
Proof.
  intros Htype.
  destruct (ingestUrlInternal_releases pid
              (extractContent extractArticle extractVideoTranscript extractTweet)
              sha256hex randomSuffix toISOString generateEmbeddingsBatch
              url options false st) as (result & st' & Hrun & _).
  exists result, st'. split; [exact Hrun|].
  apply ingestUrl_cases in Hrun as [Hfail|(extracted & Hex & _)]; [done|].
  unfold extractContent, EXTRACTORS in Hex.
  by destruct Htype as [Ht|Ht]; rewrite Ht in Hex.
Qed.

End Outcomes.

(** ** Sample runs *)

(** The ingestion of the note from [https://example.com/b] into the store
    with one source, and the outcome it returns. *)
Definition noteRun : outcome Result.t * KBState :=
  ingestUrl 7 noteExtractor sampleDigest sampleSuffix sampleISO sampleEmbeddings
            "https://example.com/b" asText chunkedState.

Definition noteResult : Result.t :=
  Result.mk true (Some (list_ascii_of_string "kb-6000-rnd")) (Some 1)
            None None None (Some false).

Lemma noteRun_result : noteRun = (Return noteResult, snd noteRun).
Proof. by vm_compute. Qed.

Lemma ingestUrl_success_rows_witness :
  ingestUrl 7 noteExtractor sampleDigest sampleSuffix sampleISO sampleEmbeddings
            "https://example.com/b" asText chunkedState
  = (Return noteResult, snd noteRun)
  /\ Result.success noteResult = true
  /\ exists extracted,
       noteExtractor "https://example.com/b"
         (default (detectSourceType "https://example.com/b")
                  (Options.sourceType asText))
       = Some extracted
       /\ ingestedNew sampleDigest sampleEmbeddings chunkedState (snd noteRun)
            (Some (normalizeUrl "https://example.com/b"))
            (extractedContent extracted)
            (default (detectSourceType "https://example.com/b")
                     (Options.sourceType asText))
            noteResult.
Proof.
  split; [exact noteRun_result|]. split; [reflexivity|].
  exact (ingestUrl_success_rows 7 sampleDigest sampleSuffix sampleISO
           sampleEmbeddings noteExtractor "https://example.com/b" asText
           chunkedState (snd noteRun) noteResult noteRun_result eq_refl).
Defined.

Lemma ingestUrl_then_lookup_witness :
  ingestUrl 7 noteExtractor sampleDigest sampleSuffix sampleISO sampleEmbeddings
            "https://example.com/b" asText chunkedState
  = (Return noteResult, snd noteRun)
  /\ Result.success noteResult = true
  /\ exists source,
       Result.source_id noteResult = Some (Source.id source)
       /\ Source.url source = Some (normalizeUrl "https://example.com/b")
       /\ getSourceById (Source.id source) (snd noteRun)
          = (Return (Some source), snd noteRun)
       /\ getSourceByUrl (normalizeUrl "https://example.com/b") (snd noteRun)
          = (Return (Some source), snd noteRun)
       /\ getSourceByHash (Source.content_hash source) (snd noteRun)
          = (Return (Some source), snd noteRun).
Proof.
  split; [exact noteRun_result|]. split; [reflexivity|].
  exact (ingestUrl_then_lookup 7 sampleDigest sampleSuffix sampleISO
           sampleEmbeddings noteExtractor "https://example.com/b" asText
           chunkedState (snd noteRun) noteResult noteRun_result eq_refl).
Defined.

Lemma updateUrl_failed_extraction_drops_chunks_witness :
  db chunkedState = Some chunkedStore
  /\ alreadyIngested chunkedStore "https://example.com/a" sampleSource
  /\ noExtractor "https://example.com/a"
       (default (detectSourceType "https://example.com/a")
                (Options.sourceType noOptions)) = None
  /\ exists st',
       updateUrl 7 noExtractor sampleDigest sampleSuffix sampleISO
                 sampleEmbeddings "https://example.com/a" noOptions chunkedState
       = (Return (failure extraction_failed
                    (Some (list_ascii_of_string "Content extraction failed"))
                    None), st')
       /\ db st'
          = Some (mkStore (kb_sources chunkedStore)
                    (List.filter
                       (fun c => negb (bool_decide
                                         (Chunk.source_id c
                                          = Source.id sampleSource)))
                       (kb_chunks chunkedStore))
                    (chunk_seq chunkedStore)).
Proof.
  assert (Hfound : alreadyIngested chunkedStore "https://example.com/a"
                                   sampleSource) by (by vm_compute).
  split; [reflexivity|]. split; [exact Hfound|]. split; [reflexivity|].
  exact (updateUrl_failed_extraction_drops_chunks 7 sampleDigest sampleSuffix
           sampleISO sampleEmbeddings noExtractor "https://example.com/a"
           noOptions chunkedState chunkedStore sampleSource eq_refl Hfound
           eq_refl).
Defined.

Lemma deleteKBSource_removes_witness :
  db chunkedState = Some chunkedStore
  /\ exists st' s',
       deleteKBSource "kb-5000-rnd" chunkedState = (Return (true, None), st')
       /\ db st' = Some s' /\ world st' = world chunkedState
       /\ (forall r, r ∈ kb_sources s' <->
                     r ∈ kb_sources chunkedStore
                     /\ Source.id r <> "kb-5000-rnd")
       /\ (forall c, c ∈ kb_chunks s' <->
                     c ∈ kb_chunks chunkedStore
                     /\ Chunk.source_id c <> "kb-5000-rnd")
       /\ getSourceById "kb-5000-rnd" st' = (Return None, st').
Proof.
  split; [reflexivity|].
  exact (deleteKBSource_removes "kb-5000-rnd" chunkedState chunkedStore eq_refl).
Defined.

Lemma pipeline_before_initialisation_witness :
  db closedState = None
  /\ (exists st',
        ingestUrl 7 noteExtractor sampleDigest sampleSuffix sampleISO
                  sampleEmbeddings "https://example.com/b" noOptions closedState
        = (Return (failure unknown
                     (Some (list_ascii_of_string "Error: Database not initialized"))
                     None), st')
        /\ db st' = None)
  /\ (exists st',
        updateUrl 7 noteExtractor sampleDigest sampleSuffix sampleISO
                  sampleEmbeddings "https://example.com/b" noOptions closedState
        = (Return (failure unknown
                     (Some (list_ascii_of_string "Error: Database not initialized"))
                     None), st')
        /\ db st' = None)
  /\ deleteKBSource "kb-5000-rnd" closedState
     = (Return (false,
                Some (list_ascii_of_string "Error: Database not initialized")),
        closedState).
Proof.
  split; [reflexivity|].
  exact (pipeline_before_initialisation 7 sampleDigest sampleSuffix sampleISO
           sampleEmbeddings noteExtractor "https://example.com/b" "kb-5000-rnd"
           noOptions closedState eq_refl).
Defined.

Lemma ingestUrl_without_extractor_witness :
  (default (detectSourceType "https://example.com/paper.PDF")
           (Options.sourceType noOptions) = Quality.pdf
   \/ default (detectSourceType "https://example.com/paper.PDF")
              (Options.sourceType noOptions) = Quality.text)
  /\ exists result st',
       ingestUrl 7 (extractContent (fun _ => Some (mkExtracted "Git" gitNote))
                                   (fun _ => None) (fun _ => None))
                 sampleDigest sampleSuffix sampleISO sampleEmbeddings
                 "https://example.com/paper.PDF" noOptions chunkedState
       = (Return result, st')
       /\ Result.success result = false
       /\ db st' = db chunkedState.
Proof.
  assert (Htype : default (detectSourceType "https://example.com/paper.PDF")
                          (Options.sourceType noOptions) = Quality.pdf)
    by (by vm_compute).
  split; [by left|].
  exact (ingestUrl_without_extractor 7 sampleDigest sampleSuffix sampleISO
           sampleEmbeddings (fun _ => Some (mkExtracted "Git" gitNote))
           (fun _ => None) (fun _ => None) "https://example.com/paper.PDF"
           noOptions chunkedState (or_introl Htype)).
Defined.

End Ingest.
